(** * Locale identifier canonicalization and likely subtags

    A model of the language-tag part of [js/src/builtin/intl/make_intl_data.py]:

    - the helpers [canonical], [addLikelySubtags] and [removeLikelySubtags]
      of [writeCLDRLanguageTagLikelySubtagsTest], as functions over the
      dictionaries read from CLDR;
    - the function [updateLocaleIdMappings] that
      [writeUpdateLocaleIdMappingsFunction] writes out, as the list of [case]
      groups the generator emits together with the reading of the emitted
      [switch] statements;
    - the function [updateGrandfatheredMappings] that
      [writeGrandfatheredMappingsFunction] writes out, as the chain of
      [if]/[else if] branches the generator emits.

    Strings are byte strings (the subtags of a locale identifier are ASCII),
    Python dictionaries are finite maps, [None] and [undefined] are [None].
    The tables the generated functions consult ([languageMappings],
    [complexLanguageMappings], [regionMappings], [complexRegionMappings]) are
    the dictionaries themselves, as [writeMappingsVar] writes them out. *)

From stdpp Require Import gmap strings list fin_maps.
From Stdlib Require Import String Ascii.

Open Scope string_scope.
Open Scope list_scope.

(** ** Exceptions *)

(** The two ways the Python helpers and the generated code abort, and the
    [KeyError] of a failed dictionary subscript. *)
Inductive exn : Type :=
  | AssertionError
  | StopIteration
  | KeyError.

Inductive result (A : Type) : Type :=
  | Ok (a : A)
  | Raise (e : exn).

Arguments Ok {A} a.
Arguments Raise {A} e.

#[global] Instance exn_eq_dec : EqDecision exn.
Proof. solve_decision. Defined.

#[global] Instance result_ret : MRet result := fun A a => Ok a.

#[global] Instance result_bind : MBind result := fun A B f m =>
  match m with
  | Ok a => f a
  | Raise e => Raise e
  end.

(** ** Data model *)

(** A [(language, script, region)] tuple; script and region may be [None]. *)
Abbreviation LangTag := (string * option string * option string)%type.

(** An entry of a complex region mapping's replacement list:
    [(language, script, region)], the script possibly [None]. *)
Abbreviation Replacement := (string * option string * string)%type.

(** The dictionary returned by [readSupplementalData]. *)
Record SupplementalData : Type := {
  grandfatheredMappings : gmap string string;
  languageMappings : gmap string string;
  complexLanguageMappings : gmap string LangTag;
  regionMappings : gmap string string;
  complexRegionMappings : gmap string (string * list Replacement);
  likelySubtags : gmap LangTag LangTag
}.

(** Python's truth value of a string-or-[None]: [None] and the empty string
    are false. *)
Definition truthy (o : option string) : bool :=
  match o with
  | Some s => negb (String.eqb s EmptyString)
  | None => false
  end.

(** [x in d] for a dictionary with string keys and an [x] that may be
    [None]. *)
Definition py_in {V : Type} (x : option string) (d : gmap string V) : bool :=
  match x with
  | Some k => bool_decide (is_Some (d !! k))
  | None => false
  end.

(** ** [canonical], [addLikelySubtags], [removeLikelySubtags] *)

Section LikelySubtags.

Variable data : SupplementalData.

(** Map deprecated language subtags. *)
Definition canonical_language (tag : LangTag) : LangTag :=
  let '(language, script, region) := tag in
  match languageMappings data !! language with
  | Some language' => (language', script, region)
  | None =>
      match complexLanguageMappings data !! language with
      | Some (language2, script2, region2) =>
          (language2,
           if truthy script then script else script2,
           if truthy region then region else region2)
      | None => (language, script, region)
      end
  end.

(** Map deprecated region subtags. *)
Definition canonical_region (tag : LangTag) : result LangTag :=
  let '(language, script, region) := tag in
  match region ≫= (regionMappings data !!.) with
  | Some region' => Ok (language, script, Some region')
  | None =>
      (* Assume no complex region mappings are needed for now. *)
      if py_in region (complexRegionMappings data)
      then Raise AssertionError
      else Ok (language, script, region)
  end.

Definition canonical (tag : LangTag) : result LangTag :=
  canonical_region (canonical_language tag).

(** [if x == placeholder: x = None] *)
Definition drop_placeholder (placeholder : string) (x : option string)
  : option string :=
  if decide (x = Some placeholder) then None else x.

(** The tuple [searches] of [addLikelySubtags]. *)
Definition searches (language : string) (script region : option string)
  : list LangTag :=
  [ (language, script, region);
    (language, None, region);
    (language, script, None);
    (language, None, None);
    ("und", script, None) ].

(** [next(search for search in searches if search in likely_subtags)]. *)
Fixpoint next_search (searches : list LangTag) : result LangTag :=
  match searches with
  | [] => Raise StopIteration
  | search :: rest =>
      if bool_decide (is_Some (likelySubtags data !! search))
      then Ok search
      else next_search rest
  end.

Definition addLikelySubtags (tag : LangTag) : result LangTag :=
  (* Step 1: Canonicalize. *)
  '(language, script, region) ← canonical tag;
  let script := drop_placeholder "Zzzz" script in
  let region := drop_placeholder "ZZ" region in
  (* Step 2: Lookup. *)
  search ← next_search (searches language script region);
  let '(language_s, script_s, region_s) := search in
  match likelySubtags data !! search with
  | None => Raise KeyError
  | Some (language_m, script_m, region_m) =>
      (* Step 3: Return. *)
      Ok (if decide (language ≠ language_s) then language else language_m,
          if decide (script ≠ script_s) then script else script_m,
          if decide (region ≠ region_s) then region else region_m)
  end.

(** The loop over the three trials of [removeLikelySubtags]. *)
Fixpoint find_match (max : LangTag) (trials : list LangTag) : result LangTag :=
  match trials with
  | [] => Ok max
  | trial :: rest =>
      m ← addLikelySubtags trial;
      if decide (m = max) then Ok trial else find_match max rest
  end.

Definition removeLikelySubtags (tag : LangTag) : result LangTag :=
  (* Step 1: Add likely subtags. *)
  max ← addLikelySubtags tag;
  (* Step 3: Find a match. *)
  let '(language, script, region) := max in
  find_match max
    [ (language, None, None); (language, None, region); (language, script, None) ].

End LikelySubtags.

(** ** Parsed locale identifiers *)

(** The object the generated functions update: [tag.language], [tag.script],
    [tag.region], [tag.variants], [tag.extensions], [tag.privateuse];
    [undefined] is [None]. *)
Module Tag.

Record t : Type := mk {
  language : string;
  script : option string;
  region : option string;
  variants : list string;
  extensions : list string;
  privateuse : option string
}.

Definition set_language (v : string) (tag : t) : t :=
  mk v (script tag) (region tag) (variants tag) (extensions tag) (privateuse tag).

Definition set_script (v : option string) (tag : t) : t :=
  mk (language tag) v (region tag) (variants tag) (extensions tag) (privateuse tag).

Definition set_region (v : option string) (tag : t) : t :=
  mk (language tag) (script tag) v (variants tag) (extensions tag) (privateuse tag).

Definition set_variants (v : list string) (tag : t) : t :=
  mk (language tag) (script tag) (region tag) v (extensions tag) (privateuse tag).

Definition set_privateuse (v : option string) (tag : t) : t :=
  mk (language tag) (script tag) (region tag) (variants tag) (extensions tag) v.

#[global] Instance eq_dec : EqDecision t.
Proof. solve_decision. Defined.

(** The tuple [(language, script, region)] of a tag. *)
Definition subtags (tag : t) : string * option string * option string :=
  (language tag, script tag, region tag).

End Tag.

(** ** [sorted] *)

(** [sorted(l, key=key)] for string keys: Python's sort is stable, and so is
    insertion from the right. *)
Fixpoint insert_by {A : Type} (key : A → string) (x : A) (l : list A) : list A :=
  match l with
  | [] => [x]
  | y :: l' =>
      if String.leb (key x) (key y) then x :: l else y :: insert_by key x l'
  end.

Definition sorted {A : Type} (key : A → string) (l : list A) : list A :=
  foldr (insert_by key) [] l.

(** [sorted(d.items(), key=itemgetter(0))]. *)
Definition sorted_items {V : Type} (d : gmap string V) : list (string * V) :=
  sorted fst (map_to_list d).

(** ** The [case] groups of a generated [switch] *)

(** Both switches of [updateLocaleIdMappings] are written by the same two
    loops: the first collects, per merge key, the deprecated subtags that
    follow the first one with that key; the second writes one group of
    [case] labels for each first subtag and skips the collected ones. *)
Section CaseGroups.

Context {V K : Type} `{Countable K}.
Variable key_of : V → K.

Definition collect_aliases (items : list (string * V)) : gmap K (list string) :=
  fold_left
    (fun aliases item =>
       match aliases !! key_of item.2 with
       | None => <[key_of item.2 := []]> aliases
       | Some l => <[key_of item.2 := l ++ [item.1]]> aliases
       end)
    items ∅.

Definition case_groups (items : list (string * V)) : list (list string * V) :=
  let aliases := collect_aliases items in
  flat_map
    (fun item =>
       let others := default [] (aliases !! key_of item.2) in
       if bool_decide (item.1 ∈ others) then [] else [(item.1 :: others, item.2)])
    items.

(** What the first loop has collected after the items [seen]: every
    collected subtag is a seen item with the key it is filed under, and
    every key has a seen item that is not among the collected ones. *)
Definition aliases_of (seen : list (string * V)) (aliases : gmap K (list string))
  : Prop :=
  ∀ k l, aliases !! k = Some l →
    (∀ x, x ∈ l → ∃ v, (x, v) ∈ seen ∧ key_of v = k)
    ∧ ∃ x0 v0, (x0, v0) ∈ seen ∧ key_of v0 = k ∧ x0 ∉ l.

End CaseGroups.

(** The clause of a [switch (x)] that runs: the first group with a label
    equal to [x]; [None] is the [default:] clause. *)
Definition select_case {V : Type} (x : string) (groups : list (list string * V))
  : option V :=
  snd <$> List.find (fun g => bool_decide (x ∈ g.1)) groups.

(** ** [updateLocaleIdMappings] *)

(** Python's [str] of a replacement tuple, for subtags without quotes or
    escapes. *)
Definition str_replacement (v : Replacement) : string :=
  let '(language, script, region) := v in
  ("('" ++ language ++ "', "
     ++ match script with
        | None => "None"
        | Some s => "'" ++ s ++ "'"
        end
     ++ ", '" ++ region ++ "')")%string.

(** [hash_key]: the default region and the sorted renderings of the
    replacements. The model keeps the sorted replacements themselves in
    place of the string of their renderings. *)
Definition hash_key (entry : string * list Replacement)
  : string * list Replacement :=
  (entry.1, sorted str_replacement entry.2).

(** The groups of the language switch: merged on the replacement tuple. *)
Definition language_cases (complex_language_mappings : gmap string LangTag)
  : list (list string * LangTag) :=
  case_groups id (sorted_items complex_language_mappings).

(** The groups of the region switch: merged on [hash_key]; the body of a
    group tests the replacements of its first region, sorted on the
    language, and ends in the default region. *)
Definition region_cases
    (complex_region_mappings : gmap string (string * list Replacement))
  : list (list string * (string * list Replacement)) :=
  (fun g => (g.1, (g.2.1, sorted (fun v => v.1.1) g.2.2)))
    <$> case_groups hash_key (sorted_items complex_region_mappings).

(** The test written for one replacement: on the language alone when the
    replacement has no script. *)
Definition replacement_applies (tag : Tag.t) (v : Replacement) : bool :=
  let '(language, script, _) := v in
  match script with
  | None => bool_decide (Tag.language tag = language)
  | Some s =>
      bool_decide (Tag.language tag = language)
      && bool_decide (Tag.script tag = Some s)
  end.

(** The body of one region group. *)
Definition region_body (default : string) (tests : list Replacement)
    (tag : Tag.t) : Tag.t :=
  match List.find (replacement_applies tag) tests with
  | Some (_, _, region) => Tag.set_region (Some region) tag
  | None => Tag.set_region (Some default) tag
  end.

(** The body of one language group. *)
Definition language_body (replacement : LangTag) (tag : Tag.t) : Tag.t :=
  let '(language, script, region) := replacement in
  let tag := Tag.set_language language tag in
  let tag :=
    match script, Tag.script tag with
    | Some _, None => Tag.set_script script tag
    | _, _ => tag
    end in
  match region, Tag.region tag with
  | Some _, None => Tag.set_region region tag
  | _, _ => tag
  end.

Section UpdateLocaleIdMappings.

Variable data : SupplementalData.

(** Replace deprecated language tags with their preferred values. *)
Definition update_language (tag : Tag.t) : result Tag.t :=
  let language := Tag.language tag in
  match languageMappings data !! language with
  | Some language' => Ok (Tag.set_language language' tag)
  | None =>
      if bool_decide (is_Some (complexLanguageMappings data !! language)) then
        match select_case language (language_cases (complexLanguageMappings data)) with
        | Some replacement => Ok (language_body replacement tag)
        | None => Raise AssertionError
        end
      else Ok tag
  end.

(** Replace deprecated subtags with their preferred values. *)
Definition update_region (tag : Tag.t) : result Tag.t :=
  match Tag.region tag with
  | None => Ok tag
  | Some region =>
      match regionMappings data !! region with
      | Some region' => Ok (Tag.set_region (Some region') tag)
      | None =>
          if bool_decide (is_Some (complexRegionMappings data !! region)) then
            match select_case region (region_cases (complexRegionMappings data)) with
            | Some (default, tests) => Ok (region_body default tests tag)
            | None => Raise AssertionError
            end
          else Ok tag
      end
  end.

Definition updateLocaleIdMappings (tag : Tag.t) : result Tag.t :=
  tag ← update_language tag;
  update_region tag.

End UpdateLocaleIdMappings.

(** ** [re_unicode_locale_id] *)

(** The character classes of the pattern, under [re.IGNORECASE], on the
    characters a [string] holds, which are those below 256: of these the
    class [a-z] matches the letters A to Z and a to z. (Of the characters
    from 256 on, which no [string] holds, it also matches U+0130, U+0131,
    U+017F and U+212A.) *)
Definition is_alpha (c : ascii) : bool :=
  let n := nat_of_ascii c in
  (Nat.leb 65 n && Nat.leb n 90) || (Nat.leb 97 n && Nat.leb n 122).

Definition is_digit (c : ascii) : bool :=
  let n := nat_of_ascii c in
  Nat.leb 48 n && Nat.leb n 57.

Definition is_alnum (c : ascii) : bool := is_alpha c || is_digit c.

Fixpoint all_chars (p : ascii → bool) (s : string) : bool :=
  match s with
  | EmptyString => true
  | String c s' => p c && all_chars p s'
  end.

(** [alpha{2,3} | alpha{5,8}] *)
Definition is_language_subtag (s : string) : bool :=
  all_chars is_alpha s
  && bool_decide (String.length s ∈ [2; 3; 5; 6; 7; 8]).

(** [alpha{4}] *)
Definition is_script_subtag (s : string) : bool :=
  all_chars is_alpha s && Nat.eqb (String.length s) 4.

(** [alpha{2} | digit{3}] *)
Definition is_region_subtag (s : string) : bool :=
  (all_chars is_alpha s && Nat.eqb (String.length s) 2)
  || (all_chars is_digit s && Nat.eqb (String.length s) 3).

(** [alphanum{5,8} | digit alphanum{3}] *)
Definition is_variant_subtag (s : string) : bool :=
  (all_chars is_alnum s && Nat.leb 5 (String.length s) && Nat.leb (String.length s) 8)
  || match s with
     | String c s' => is_digit c && all_chars is_alnum s' && Nat.eqb (String.length s') 3
     | EmptyString => false
     end.

(** [alphanum{1,8}] *)
Definition is_privateuse_subtag (s : string) : bool :=
  all_chars is_alnum s && Nat.leb 1 (String.length s) && Nat.leb (String.length s) 8.

(** [s.split("-")] *)
Fixpoint split_hyphen (s : string) : list string :=
  match s with
  | EmptyString => [EmptyString]
  | String c s' =>
      if Ascii.eqb c "-" then EmptyString :: split_hyphen s'
      else match split_hyphen s' with
           | w :: ws => String c w :: ws
           | [] => [String c EmptyString]
           end
  end.

(** ["-".join(l)] *)
Fixpoint join_hyphen (l : list string) : string :=
  match l with
  | [] => EmptyString
  | [w] => w
  | w :: ws => (w ++ "-" ++ join_hyphen ws)%string
  end.

(** [$] also matches before a newline that ends the string. *)
Fixpoint before_final_newline (s : string) : string :=
  match s with
  | EmptyString => EmptyString
  | String c s' =>
      match s' with
      | EmptyString => if Ascii.eqb c "010" then EmptyString else s
      | String _ _ => String c (before_final_newline s')
      end
  end.

(** The named groups of a match. [group("variants")] is the text
    [-v1-...-vn]; the model keeps the list [v1, ..., vn], so that
    [variants[1:]] contains a hyphen exactly when the list has more than one
    element, and [variants[1:].split("-")] is the list. *)
Record LocaleIdMatch : Type := {
  group_language : string;
  group_script : option string;
  group_region : option string;
  group_variants : option (list string);
  group_privateuse : option string
}.

(** An optional group of one subtag. *)
Definition optional_subtag (p : string → bool) (subtags : list string)
  : option string * list string :=
  match subtags with
  | s :: rest => if p s then (Some s, rest) else (None, subtags)
  | [] => (None, [])
  end.

(** A repeated group: the longest run of subtags of the given shape. *)
Fixpoint repeated_subtags (p : string → bool) (subtags : list string)
  : list string * list string :=
  match subtags with
  | s :: rest =>
      if p s then
        let '(run, rest') := repeated_subtags p rest in (s :: run, rest')
      else ([], subtags)
  | [] => ([], [])
  end.

(** [re_unicode_locale_id.match(s)]. Every part of the pattern after the
    language starts with a hyphen and no character class contains one, and
    the shapes of script, region, variant and the private-use singleton
    exclude one another, so the match is read off the hyphen-separated
    subtags from left to right. *)
Definition re_unicode_locale_id (s : string) : option LocaleIdMatch :=
  match split_hyphen (before_final_newline s) with
  | [] => None
  | language :: rest =>
      if is_language_subtag language then
        let '(script, rest) := optional_subtag is_script_subtag rest in
        let '(region, rest) := optional_subtag is_region_subtag rest in
        let '(variants, rest) := repeated_subtags is_variant_subtag rest in
        let variants := match variants with [] => None | _ => Some variants end in
        match rest with
        | [] => Some (Build_LocaleIdMatch language script region variants None)
        | x :: privateuse =>
            if (String.eqb x "x" || String.eqb x "X")
               && negb (bool_decide (privateuse = []))
               && forallb is_privateuse_subtag privateuse
            then Some (Build_LocaleIdMatch language script region variants
                         (Some (join_hyphen (x :: privateuse))))
            else None
        end
      else None
  end.

(** ** [updateGrandfatheredMappings] *)

(** One [if]/[else if] branch of the generated function: the language and
    the variant it tests, and the assignments of its body. *)
Record GrandfatheredBranch : Type := {
  tag_language : string;
  tag_variant : string;
  modern_language : string;
  modern_script : option string;
  modern_region : option string;
  modern_variants : option (list string);
  modern_privateuse : option string
}.

(** One round of the loop of [writeGrandfatheredMappingsFunction]. *)
Definition grandfathered_branch (tag modern : string) : result GrandfatheredBranch :=
  match re_unicode_locale_id tag with
  | None => Raise AssertionError
  | Some tag_match =>
      if bool_decide (group_script tag_match ≠ None) then Raise AssertionError
      else if bool_decide (group_region tag_match ≠ None) then Raise AssertionError
      else
        match group_variants tag_match with
        | None => Raise AssertionError
        | Some tag_variants =>
            if bool_decide (group_privateuse tag_match ≠ None) then Raise AssertionError
            else
              match tag_variants with
              | [tag_variant] =>
                  match re_unicode_locale_id modern with
                  | None => Raise AssertionError
                  | Some modern_match =>
                      Ok {| tag_language := group_language tag_match;
                            tag_variant := tag_variant;
                            modern_language := group_language modern_match;
                            modern_script := group_script modern_match;
                            modern_region := group_region modern_match;
                            modern_variants := sorted id <$> group_variants modern_match;
                            modern_privateuse := group_privateuse modern_match |}
                  end
              | _ => Raise AssertionError
              end
        end
  end.

Fixpoint grandfathered_branches (items : list (string * string))
  : result (list GrandfatheredBranch) :=
  match items with
  | [] => Ok []
  | (tag, modern) :: rest =>
      b ← grandfathered_branch tag modern;
      bs ← grandfathered_branches rest;
      Ok (b :: bs)
  end.

(** The branches [writeGrandfatheredMappingsFunction] writes, or the
    assertion that stops it. *)
Definition writeGrandfatheredMappingsFunction
    (grandfathered_mappings : gmap string string)
  : result (list GrandfatheredBranch) :=
  grandfathered_branches (sorted_items grandfathered_mappings).

(** The early [return] of the generated function. *)
Definition not_grandfathered_shape (tag : Tag.t) : bool :=
  bool_decide (Tag.script tag ≠ None)
  || bool_decide (Tag.region tag ≠ None)
  || bool_decide (List.length (Tag.variants tag) ≠ 1)
  || bool_decide (List.length (Tag.extensions tag) ≠ 0)
  || bool_decide (Tag.privateuse tag ≠ None).

Definition branch_applies (tag : Tag.t) (b : GrandfatheredBranch) : bool :=
  bool_decide (Tag.language tag = tag_language b)
  && bool_decide (Tag.variants tag !! 0 = Some (tag_variant b)).

Definition branch_body (b : GrandfatheredBranch) (tag : Tag.t) : Tag.t :=
  let tag := Tag.set_language (modern_language b) tag in
  let tag :=
    match modern_script b with
    | Some _ => Tag.set_script (modern_script b) tag
    | None => tag
    end in
  let tag :=
    match modern_region b with
    | Some _ => Tag.set_region (modern_region b) tag
    | None => tag
    end in
  let tag :=
    match modern_variants b with
    | Some vs => Tag.set_variants vs tag
    | None => Tag.set_variants [] tag
    end in
  match modern_privateuse b with
  | Some _ => Tag.set_privateuse (modern_privateuse b) tag
  | None => tag
  end.

Definition updateGrandfatheredMappings (branches : list GrandfatheredBranch)
    (tag : Tag.t) : Tag.t :=
  if not_grandfathered_shape tag then tag
  else
    match List.find (branch_applies tag) branches with
    | Some b => branch_body b tag
    | None => tag
    end.

(** ** [canonicalize] *)

(** The branch of the generated [updateGrandfatheredMappings] that runs for
    a tag, if there is one. *)
Definition grandfathered_branch_of (branches : list GrandfatheredBranch)
    (tag : Tag.t) : option GrandfatheredBranch :=
  if not_grandfathered_shape tag then None
  else List.find (branch_applies tag) branches.

(** Modelled from the spec: the caller that applies the two generated
    functions to a tag is not among the sources. By section 4.1 of the
    specification the grandfathered check (step 1) comes first, and where it
    rewrites a tag it "short-circuits further per-field canonicalization
    only for the fields it rewrites". It always rewrites the language, so
    the language canonicalization (step 2) is left out for such a tag; the
    region canonicalization (step 3) is left out when the replacement has a
    region. A tag the check does not rewrite goes through steps 2 and 3. *)
Definition canonicalize (data : SupplementalData)
    (branches : list GrandfatheredBranch) (tag : Tag.t) : result Tag.t :=
  match grandfathered_branch_of branches tag with
  | Some b =>
      let tag := updateGrandfatheredMappings branches tag in
      match modern_region b with
      | Some _ => Ok tag
      | None => update_region data tag
      end
  | None => updateLocaleIdMappings data tag
  end.

(** ** Further helpers of [writeCLDRLanguageTagLikelySubtagsTest] *)

(** ["-" + x if x else ""] *)
Definition hyphenated (x : option string) : string :=
  match x with
  | Some s => if String.eqb s EmptyString then EmptyString else ("-" ++ s)%string
  | None => EmptyString
  end.

Definition bcp47 (tag : LangTag) : string :=
  let '(language, script, region) := tag in
  (language ++ hyphenated script ++ hyphenated region)%string.

Section LikelyCanonical.

Variable data : SupplementalData.

Definition likely_canonical (from_tag to_tag : LangTag) : result LangTag :=
  (* Canonicalize the input tag. *)
  from_tag ← canonical data from_tag;
  (* Update the expected result if necessary. *)
  let to_tag :=
    match likelySubtags data !! from_tag with
    | Some to_tag' => to_tag'
    | None => to_tag
    end in
  (* Canonicalize the expected output. *)
  to_canonical ← canonical data to_tag;
  (* Sanity check: This should match the result of |addLikelySubtags|. *)
  maximized ← addLikelySubtags data from_tag;
  if decide (to_canonical = maximized) then Ok to_canonical
  else Raise AssertionError.

End LikelyCanonical.

(** ** The complex region mappings of [readSupplementalData] *)

(** The last loop of [readSupplementalData], which splits the territory
    aliases with several replacement regions into simple and complex region
    mappings. [likely_subtags.items()] is a list, in the order in which the
    dictionary yields its items; a replacement list is never empty ([split]
    returns at least one string) and is kept as its first region and the
    rest. *)
Section ComplexRegionMappings.

Variable likely_subtags_items : list (LangTag * LangTag).

(** Find all likely subtag entries which don't already contain a region
    subtag and whose target region is in the list of replacement regions. *)
Definition region_likely_subtags (replacements : list string) : list Replacement :=
  omap
    (fun item : LangTag * LangTag =>
       let '((from_language, from_script, from_region), (_, _, to_region)) := item in
       match from_region, to_region with
       | None, Some to_region =>
           if bool_decide (to_region ∈ replacements)
           then Some (from_language, from_script, to_region)
           else None
       | _, _ => None
       end)
    likely_subtags_items.

(** Find all likely subtag entries whose region matches the default
    region. *)
Definition default_replacements (default : string) (entries : list Replacement)
  : list (string * option string) :=
  (fun v : Replacement => (v.1.1, v.1.2))
    <$> List.filter (fun v : Replacement => bool_decide (v.2 = default)) entries.

(** And finally find those entries which don't use the default region. *)
Definition non_default_replacements (default : string)
    (entries : list Replacement) : list Replacement :=
  List.filter
    (fun v : Replacement =>
       negb (bool_decide ((v.1.1, v.1.2) ∈ default_replacements default entries)))
    entries.

(** The entry of [complex_region_mappings_final] for one territory alias;
    [None] when the alias goes to the simple region mappings. *)
Definition complex_region_entry (replacements : string * list string)
  : option (string * list Replacement) :=
  let default := replacements.1 in
  let entries := region_likely_subtags (replacements.1 :: replacements.2) in
  match non_default_replacements default entries with
  | [] => None
  | non_default => Some (default, non_default)
  end.

Definition complex_region_mappings_final
    (complex_region_mappings : gmap string (string * list string))
  : gmap string (string * list Replacement) :=
  omap complex_region_entry complex_region_mappings.

(** [region_mappings] after the loop: the aliases without non-default
    replacements are entered with their default region. *)
Definition region_mappings_final (region_mappings : gmap string string)
    (complex_region_mappings : gmap string (string * list string))
  : gmap string string :=
  omap (fun replacements : string * list string =>
          match complex_region_entry replacements with
          | None => Some replacements.1
          | Some _ => None
          end)
       complex_region_mappings
  ∪ region_mappings.

End ComplexRegionMappings.

(** ** [partition] and [updateBackzoneLinks] *)

Definition innerPartition {A : Type} (pred : A → bool) (it : list A)
  : list A * list A :=
  (List.filter pred it, List.filter (fun x => negb (pred x)) it).

(** [partition] for at least one predicate: the tuple of the elements for
    which the first predicate holds and of the others, split by the
    remaining predicates. *)
Fixpoint partition_tuple {A : Type} (predicate : A → bool)
    (predicates : list (A → bool)) (iterable : list A) : list (list A) :=
  let '(lhs, rhs) := innerPartition predicate iterable in
  match predicates with
  | [] => [lhs; rhs]
  | predicate' :: predicates' =>
      lhs :: partition_tuple predicate' predicates' rhs
  end.

(** [partition(iterable, *predicates)]; without a predicate the iterable
    itself is returned, and no tuple. *)
Definition partition {A : Type} (iterable : list A)
    (predicates : list (A → bool)) : list A + list (list A) :=
  match predicates with
  | [] => inl iterable
  | predicate :: predicates' =>
      inr (partition_tuple predicate predicates' iterable)
  end.

(** ** Time zones *)

(** A [Zone] has a name and a file name, and is equal to another zone and
    hashed by its name alone. A set of zones is the map from the names of
    its elements to their file names; a dictionary keyed by zones is the map
    from the name of a key to the file name of the key and the value. *)
Abbreviation Zones := (gmap string string).
Abbreviation Links := (gmap string (string * string)).

(** [dict(pairs)] for pairs of a zone and a value: a later pair replaces
    the value of an earlier one with an equal key, and the key stays. *)
Definition dict {V : Type} (pairs : list (string * (string * V)))
  : gmap string (string * V) :=
  fold_left
    (fun d pair =>
       match d !! pair.1 with
       | Some (filename, _) => <[pair.1 := (filename, pair.2.2)]> d
       | None => <[pair.1 := pair.2]> d
       end)
    pairs ∅.

(** [updateBackzoneLinks], with the zones and links read from the backzone
    file as arguments. *)
Definition updateBackzoneLinks (backzoneZones : Zones) (backzoneLinks : Links)
    (links : Links) : Links :=
  match
    partition
      (map_to_list links)
      [ (* Link not changed in backzone. *)
        (fun zone_target : string * (string * string) =>
           bool_decide (backzoneLinks !! zone_target.1 = None)
           && bool_decide (backzoneZones !! zone_target.1 = None));
        (* Link has a new target. *)
        (fun zone_target : string * (string * string) =>
           bool_decide (is_Some (backzoneLinks !! zone_target.1))) ]
  with
  | inr [stableZones; updatedLinks; updatedZones] =>
      (* Keep stable zones and links with updated target. *)
      dict (stableZones
            ++ omap (fun zone_target : string * (string * string) =>
                       (fun target : string * string =>
                          (zone_target.1, (zone_target.2.1, target.2)))
                       <$> backzoneLinks !! zone_target.1)
                 updatedLinks)
  | _ => ∅
  end.

(** The functions below stop on a [RuntimeError]; [None] stands for it. *)

(** Validate the zone and link entries. *)
Definition validateTimeZones (zones : Zones) (links : Links) : option unit :=
  let linkZones : gset string := dom links in
  let intersect := linkZones ∩ dom zones in
  if bool_decide (intersect ≠ ∅) then None
  else
    let zoneNames : gset string := dom zones in
    let linkTargets : gset string := map_img (snd <$> links) in
    if bool_decide (linkTargets ⊆ zoneNames) then Some () else None.

(** [readICUTimeZones], with the zones and links read from zoneinfo64.txt,
    from timezoneTypes.txt and from icuzones as arguments. The function
    [inZoneInfo64] is called after the legacy time zones are removed and
    sees the sets as they are then. *)
Definition readICUTimeZones (zoneinfoZones : Zones) (zoneinfoLinks : Links)
    (typesZones : Zones) (typesLinks : Links)
    (legacyZones : Zones) (legacyLinks : Links) : option (Zones * Links) :=
  (* Remove legacy ICU time zones from zoneinfo64 data. *)
  let zoneinfoZones :=
    filter (fun zone : string * string => legacyZones !! zone.1 = None)
      zoneinfoZones in
  let zoneinfoLinks :=
    filter (fun zone_target : string * (string * string) =>
              legacyLinks !! zone_target.1 = None)
      zoneinfoLinks in
  (* Information in zoneinfo64 should be a superset of timezoneTypes. *)
  let inZoneInfo64 (zone : string) : bool :=
    bool_decide (is_Some (zoneinfoZones !! zone))
    || bool_decide (is_Some (zoneinfoLinks !! zone)) in
  match List.filter (fun zone : string * string => negb (inZoneInfo64 zone.1))
          (map_to_list typesZones) with
  | _ :: _ => None
  | [] =>
      match List.filter
              (fun zone_target : string * (string * string) =>
                 negb (inZoneInfo64 zone_target.1))
              (map_to_list typesLinks) with
      | _ :: _ => None
      | [] =>
          (* Merge both to get the actual zones and links used by ICU. *)
          let icuZones : Zones :=
            filter (fun zone : string * string => typesLinks !! zone.1 = None)
              zoneinfoZones
            ∪ typesZones in
          let icuLinks : Links :=
            dict (map_to_list
                    (filter (fun zone_target : string * (string * string) =>
                               typesZones !! zone_target.1 = None)
                       zoneinfoLinks)
                  ++ map_to_list typesLinks) in
          Some (icuZones, icuLinks)
      end
  end.

Definition utcnames : list string := ["Etc/UTC"; "Etc/UCT"; "Etc/GMT"].

(** Find incorrect ICU zone entries. The lists of zones are compared as
    lists of their names, which is how zones are equal. *)
Definition findIncorrectICUZones (ianaZones : Zones) (ianaLinks : Links)
    (icuZones : Zones) (icuLinks : Links) (ignoreBackzone : bool)
  : option (list (string * string * string)) :=
  let isIANATimeZone (zone : string) : bool :=
    bool_decide (is_Some (ianaZones !! zone))
    || bool_decide (is_Some (ianaLinks !! zone)) in
  let isICUTimeZone (zone : string) : bool :=
    bool_decide (is_Some (icuZones !! zone))
    || bool_decide (is_Some (icuLinks !! zone)) in
  (* All IANA zones should be present in ICU. *)
  let missingTimeZones :=
    List.filter (fun zone : string * string => negb (isICUTimeZone zone.1))
      (map_to_list ianaZones) in
  let expectedMissing : list string :=
    if ignoreBackzone then [] else ["Asia/Hanoi"] in
  if bool_decide (missingTimeZones.*1 ≠ expectedMissing) then None
  else
    (* Zones which are only present in ICU? *)
    match List.filter (fun zone : string * string => negb (isIANATimeZone zone.1))
            (map_to_list icuZones) with
    | _ :: _ => None
    | [] =>
        (* Zones which are marked as links in ICU. *)
        let result :=
          omap (fun zone : string * string =>
                  (fun target : string * string => (zone, target.2))
                  <$> icuLinks !! zone.1)
            (map_to_list ianaZones) in
        (* Remove unnecessary UTC mappings. *)
        let result :=
          List.filter
            (fun zone_target : string * string * string =>
               negb (bool_decide (zone_target.1.1 ∈ utcnames)))
            result in
        Some (sorted (fun zone_target : string * string * string =>
                        zone_target.1.1)
                result)
    end.

(** Find incorrect ICU link entries. *)
Definition findIncorrectICULinks (ianaZones : Zones) (ianaLinks : Links)
    (icuZones : Zones) (icuLinks : Links)
  : option (list (string * string * string * string)) :=
  let isIANATimeZone (zone : string) : bool :=
    bool_decide (is_Some (ianaZones !! zone))
    || bool_decide (is_Some (ianaLinks !! zone)) in
  let isICUTimeZone (zone : string) : bool :=
    bool_decide (is_Some (icuZones !! zone))
    || bool_decide (is_Some (icuLinks !! zone)) in
  (* All links should be present in ICU. *)
  match List.filter
          (fun zone : string * (string * string) => negb (isICUTimeZone zone.1))
          (map_to_list ianaLinks) with
  | _ :: _ => None
  | [] =>
      (* Links which are only present in ICU? *)
      match List.filter
              (fun zone : string * (string * string) =>
                 negb (isIANATimeZone zone.1))
              (map_to_list icuLinks) with
      | _ :: _ => None
      | [] =>
          let result :=
            (* IANA links which have a different target in ICU. *)
            omap (fun zone_target : string * (string * string) =>
                    match icuLinks !! zone_target.1 with
                    | Some (_, icuTarget) =>
                        if bool_decide (zone_target.2.2 ≠ icuTarget)
                        then Some (zone_target.1, zone_target.2.1,
                                   zone_target.2.2, icuTarget)
                        else None
                    | None => None
                    end)
              (map_to_list ianaLinks)
            (* IANA links which are zones in ICU. *)
            ++ omap (fun zone_target : string * (string * string) =>
                       if bool_decide (is_Some (icuZones !! zone_target.1))
                       then Some (zone_target.1, zone_target.2.1,
                                  zone_target.2.2, zone_target.1)
                       else None)
                 (map_to_list ianaLinks) in
          (* Remove unnecessary UTC mappings. *)
          let result :=
            List.filter
              (fun entry : string * string * string * string =>
                 negb (bool_decide (entry.1.2 ∈ utcnames))
                 || negb (bool_decide (entry.2 ∈ utcnames)))
              result in
          Some (sorted (fun entry : string * string * string * string =>
                          entry.1.1.1)
                  result)
      end
  end.

(** ** Conditions on the tables *)

(** The rule of step 3 of [addLikelySubtags] for one field: the field of
    the table value when the key's field equals the input's field. *)
Definition pick {A : Type} `{EqDecision A} (input searched matched : A) : A :=
  if decide (searched = input) then matched else input.

(** A language, or a region, that none of the mappings replaces. *)
Definition no_language_mapping (data : SupplementalData) (language : string)
  : bool :=
  bool_decide (languageMappings data !! language = None)
  && bool_decide (complexLanguageMappings data !! language = None).

Definition no_region_mapping (data : SupplementalData) (region : string)
  : bool :=
  bool_decide (regionMappings data !! region = None)
  && bool_decide (complexRegionMappings data !! region = None).

(** The preferred languages of the language mappings are not themselves
    deprecated; likewise the preferred regions of the simple region
    mapping. *)
Definition preferred_languages_final (data : SupplementalData) : Prop :=
  map_Forall (fun _ language => no_language_mapping data language = true)
    (languageMappings data)
  ∧ map_Forall (fun _ (v : LangTag) => no_language_mapping data v.1.1 = true)
      (complexLanguageMappings data).

Definition preferred_regions_final (data : SupplementalData) : Prop :=
  map_Forall (fun _ region => no_region_mapping data region = true)
    (regionMappings data).

(** The value of a likely-subtags entry repeats the script and the region
    its key gives, and the language of its key unless that is "und". *)
Definition keeps_key (key value : LangTag) : bool :=
  (bool_decide (key.1.1 = "und") || bool_decide (value.1.1 = key.1.1))
  && (bool_decide (key.1.2 = None) || bool_decide (value.1.2 = key.1.2))
  && (bool_decide (key.2 = None) || bool_decide (value.2 = key.2)).

Definition likely_keeps_keys (data : SupplementalData) : Prop :=
  map_Forall (fun key value => keeps_key key value = true) (likelySubtags data).

(** The value of a likely-subtags entry is a full tuple of subtags that are
    not deprecated: a language other than "und", a script other than "Zzzz"
    and a region other than "ZZ". *)
Definition complete_value (data : SupplementalData) (value : LangTag) : bool :=
  bool_decide (value.1.1 ≠ "und")
  && no_language_mapping data value.1.1
  && match value.1.2 with
     | Some script => bool_decide (script ≠ "Zzzz")
     | None => false
     end
  && match value.2 with
     | Some region => bool_decide (region ≠ "ZZ") && no_region_mapping data region
     | None => false
     end.

Definition likely_values_complete (data : SupplementalData) : Prop :=
  map_Forall (fun _ value => complete_value data value = true)
    (likelySubtags data).

(** For an entry with the language "und" in its key: the table also has the
    entry of the bare language of the value and the entry of "und" with the
    script of the value. *)
Definition und_closed (data : SupplementalData) (key value : LangTag) : bool :=
  bool_decide (key.1.1 ≠ "und")
  || (bool_decide (is_Some (likelySubtags data !! (value.1.1, None, None)))
      && bool_decide (is_Some (likelySubtags data !! ("und", value.1.2, None)))).

Definition likely_und_closed (data : SupplementalData) : Prop :=
  map_Forall (fun key value => und_closed data key value = true)
    (likelySubtags data).

(** Two replacements whose tests can hold for the same tag: the same
    language, and the same script unless one of them has none. *)
Definition overlapping (v1 v2 : Replacement) : bool :=
  bool_decide (v1.1.1 = v2.1.1)
  && (bool_decide (v1.1.2 = None) || bool_decide (v2.1.2 = None)
      || bool_decide (v1.1.2 = v2.1.2)).

(** The replacements of a complex region mapping exclude one another: two
    of them that can hold for the same tag give the same region. *)
Definition mutually_exclusive (replacements : list Replacement) : bool :=
  forallb
    (fun v1 =>
       forallb
         (fun v2 => negb (overlapping v1 v2) || bool_decide (v1.2 = v2.2))
         replacements)
    replacements.

(** The regions of the table with the given default and the given
    replacements up to their order all list the replacements in the given
    order. *)
Definition listed_in_one_order (data : SupplementalData) (default : string)
    (replacements : list Replacement) : Prop :=
  ∀ region0 replacements0,
    complexRegionMappings data !! region0 = Some (default, replacements0) →
    replacements0 ≡ₚ replacements →
    replacements0 = replacements.

(** The region a list of replacements gives a tag: that of the first
    replacement whose test holds, else the default. *)
Definition first_replacement (default : string) (replacements : list Replacement)
    (tag : Tag.t) : string :=
  match List.find (replacement_applies tag) replacements with
  | Some v => v.2
  | None => default
  end.

(** The default and the replacement regions of the complex region mapping
    are not themselves deprecated. *)
Definition complex_regions_final (data : SupplementalData) : Prop :=
  map_Forall
    (fun _ (entry : string * list Replacement) =>
       no_region_mapping data entry.1
       && forallb (fun v : Replacement => no_region_mapping data v.2) entry.2
       = true)
    (complexRegionMappings data).

(** No branch of the grandfathered function tests the given language. *)
Definition not_grandfathered_language (branches : list GrandfatheredBranch)
    (language : string) : bool :=
  forallb (fun b => bool_decide (tag_language b ≠ language)) branches.

(** No preferred language of the language mappings is the language of a
    grandfathered tag. *)
Definition grandfathered_languages_apart (data : SupplementalData)
    (branches : list GrandfatheredBranch) : Prop :=
  map_Forall (fun _ language => not_grandfathered_language branches language = true)
    (languageMappings data)
  ∧ map_Forall
      (fun _ (v : LangTag) => not_grandfathered_language branches v.1.1 = true)
      (complexLanguageMappings data).

(** The tag a branch tests for. *)
Definition branch_tag (b : GrandfatheredBranch) : Tag.t :=
  Tag.mk (tag_language b) None None [tag_variant b] [] None.

(** The replacement of every grandfathered tag is final: its language and
    its region, if it has one, are not deprecated, and it is not itself a
    tag the grandfathered function rewrites. *)
Definition grandfathered_replacements_final (data : SupplementalData)
    (branches : list GrandfatheredBranch) : bool :=
  forallb
    (fun b =>
       let replacement := branch_body b (branch_tag b) in
       no_language_mapping data (Tag.language replacement)
       && match Tag.region replacement with
          | Some region => no_region_mapping data region
          | None => true
          end
       && match grandfathered_branch_of branches replacement with
          | Some _ => false
          | None => true
          end)
    branches.

(** ** Sample tables *)

Module Sample.

(** A cut of the CLDR tables. *)
Definition cldr : SupplementalData := {|
  grandfatheredMappings :=
    list_to_map
      [ ("art-lojban", "jbo"); ("cel-gaulish", "xtg-x-cel-gaulish");
        ("zh-guoyu", "cmn"); ("zh-hakka", "hak"); ("zh-xiang", "hsn") ];
  languageMappings := list_to_map [ ("iw", "he"); ("in", "id"); ("mo", "ro") ];
  complexLanguageMappings :=
    list_to_map
      [ ("sh", ("sr", Some "Latn", None)); ("cnr", ("sr", None, Some "ME")) ];
  regionMappings := list_to_map [ ("DD", "DE"); ("BU", "MM") ];
  complexRegionMappings :=
    list_to_map
      [ ("SU", ("RU", [ ("hy", None, "AM"); ("uz", None, "UZ");
                        ("und", Some "Armn", "AM") ])) ];
  likelySubtags :=
    list_to_map
      [ (("und", None, None), ("en", Some "Latn", Some "US"));
        (("und", Some "Latn", None), ("en", Some "Latn", Some "US"));
        (("und", Some "Cyrl", None), ("ru", Some "Cyrl", Some "RU"));
        (("und", Some "Hant", None), ("zh", Some "Hant", Some "TW"));
        (("und", Some "Armn", None), ("hy", Some "Armn", Some "AM"));
        (("en", None, None), ("en", Some "Latn", Some "US"));
        (("ru", None, None), ("ru", Some "Cyrl", Some "RU"));
        (("hy", None, None), ("hy", Some "Armn", Some "AM"));
        (("uz", None, None), ("uz", Some "Latn", Some "UZ"));
        (("sr", None, None), ("sr", Some "Cyrl", Some "RS"));
        (("sr", None, Some "ME"), ("sr", Some "Latn", Some "ME"));
        (("zh", None, None), ("zh", Some "Hans", Some "CN"));
        (("zh", Some "Hant", None), ("zh", Some "Hant", Some "TW"));
        (("zh", None, Some "TW"), ("zh", Some "Hant", Some "TW")) ]
|}.

(** A likely-subtags table whose entries lead from one language to the
    next. *)
Definition chained : SupplementalData := {|
  grandfatheredMappings := ∅;
  languageMappings := ∅;
  complexLanguageMappings := ∅;
  regionMappings := ∅;
  complexRegionMappings := ∅;
  likelySubtags :=
    list_to_map
      [ (("no", None, None), ("nb", Some "Latn", Some "NO"));
        (("nb", None, None), ("nn", Some "Latn", Some "NO")) ]
|}.

(** The CLDR aliases from "zho" and "cmn" to "zh", next to the
    grandfathered tag "zh-guoyu". *)
Definition chinese : SupplementalData := {|
  grandfatheredMappings := {[ "zh-guoyu" := "cmn" ]};
  languageMappings := list_to_map [ ("zho", "zh"); ("cmn", "zh") ];
  complexLanguageMappings := ∅;
  regionMappings := ∅;
  complexRegionMappings := ∅;
  likelySubtags := ∅
|}.

Definition chinese_branches : list GrandfatheredBranch :=
  Eval vm_compute in
    match writeGrandfatheredMappingsFunction (grandfatheredMappings chinese) with
    | Ok branches => branches
    | Raise _ => []
    end.

(** The branches written for the grandfathered mappings of [cldr]. *)
Definition branches : list GrandfatheredBranch :=
  Eval vm_compute in
    match writeGrandfatheredMappingsFunction (grandfatheredMappings cldr) with
    | Ok branches => branches
    | Raise _ => []
    end.

(** Likely subtags and territory aliases with several replacement regions,
    as [readSupplementalData] has them before its last loop. *)
Definition likely_subtags_items : list (LangTag * LangTag) :=
  [ (("und", None, None), ("en", Some "Latn", Some "US"));
    (("und", Some "Armn", None), ("hy", Some "Armn", Some "AM"));
    (("und", Some "Cyrl", None), ("ru", Some "Cyrl", Some "RU"));
    (("hy", None, None), ("hy", Some "Armn", Some "AM"));
    (("ru", None, None), ("ru", Some "Cyrl", Some "RU"));
    (("uz", None, None), ("uz", Some "Latn", Some "UZ"));
    (("sr", None, None), ("sr", Some "Cyrl", Some "RS"));
    (("sr", None, Some "ME"), ("sr", Some "Latn", Some "ME")) ].

Definition territory_aliases : gmap string (string * list string) :=
  list_to_map
    [ ("SU", ("RU", ["AM"; "AZ"; "BY"; "UZ"]));
      ("810", ("RU", ["AM"; "AZ"; "BY"; "UZ"]));
      ("CS", ("RS", ["ME"])) ].

(** The tables [readSupplementalData] returns for them. *)
Definition derived : SupplementalData := {|
  grandfatheredMappings := ∅;
  languageMappings := ∅;
  complexLanguageMappings := ∅;
  regionMappings :=
    region_mappings_final likely_subtags_items (list_to_map [ ("DD", "DE") ])
      territory_aliases;
  complexRegionMappings :=
    complex_region_mappings_final likely_subtags_items territory_aliases;
  likelySubtags := list_to_map likely_subtags_items
|}.

(** Time zones: the IANA data, and the ICU data of zoneinfo64.txt, of
    timezoneTypes.txt and of icuzones. ICU has "Asia/Calcutta" as the zone
    and "Asia/Kolkata" as the link. *)
Definition iana_zones : Zones :=
  list_to_map
    [ ("Europe/Berlin", "europe"); ("Asia/Kolkata", "asia");
      ("Asia/Hanoi", "backzone"); ("Australia/Darwin", "australasia");
      ("Etc/UTC", "etcetera") ].

Definition iana_links : Links :=
  list_to_map
    [ ("Asia/Calcutta", ("backward", "Asia/Kolkata"));
      ("Etc/UCT", ("backward", "Etc/UTC")) ].

Definition zoneinfo_zones : Zones :=
  list_to_map
    [ ("Europe/Berlin", EmptyString); ("Asia/Calcutta", EmptyString);
      ("Australia/Darwin", EmptyString); ("Etc/UTC", EmptyString);
      ("SystemV/AST4", EmptyString) ].

Definition zoneinfo_links : Links :=
  list_to_map
    [ ("Asia/Kolkata", (EmptyString, "Asia/Calcutta"));
      ("Etc/UCT", (EmptyString, "Etc/UTC"));
      ("ACT", (EmptyString, "Australia/Darwin")) ].

Definition types_zones : Zones :=
  list_to_map
    [ ("Europe/Berlin", EmptyString); ("Asia/Calcutta", EmptyString);
      ("Australia/Darwin", EmptyString); ("Etc/UTC", EmptyString) ].

Definition types_links : Links :=
  list_to_map
    [ ("Asia/Kolkata", (EmptyString, "Asia/Calcutta"));
      ("Etc/UCT", (EmptyString, "Etc/UTC")) ].

Definition legacy_zones : Zones :=
  list_to_map [ ("SystemV/AST4", "icuzones") ].

Definition legacy_links : Links :=
  list_to_map [ ("ACT", ("icuzones", "Australia/Darwin")) ].

End Sample.

(** * Properties *)

(** Closes a condition on concrete tables by evaluation. *)
Ltac by_evaluation :=
  unfold preferred_languages_final, preferred_regions_final,
    complex_regions_final, grandfathered_languages_apart,
    likely_values_complete, likely_keeps_keys, likely_und_closed;
  repeat split;
  first [ apply (bool_decide_unpack _); vm_compute; exact I
        | vm_compute; reflexivity
        | discriminate ].


(** ** The error monad *)

Lemma bind_Ok_inv {A B : Type} (m : result A) (f : A → result B) (b : B) :
  m ≫= f = Ok b → ∃ a, m = Ok a ∧ f a = Ok b.
Proof. destruct m as [a|e]; simpl; [eauto | discriminate]. Qed.

Lemma bind_Ok {A B : Type} (a : A) (f : A → result B) : Ok a ≫= f = f a.
Proof. reflexivity. Qed.

Lemma bind_Raise {A B : Type} (e : exn) (f : A → result B) :
  Raise e ≫= f = Raise e.
Proof. reflexivity. Qed.

Lemma bind_Raise_inv {A B : Type} (m : result A) (f : A → result B) (e : exn) :
  m ≫= f = Raise e → m = Raise e ∨ ∃ a, m = Ok a ∧ f a = Raise e.
Proof. destruct m as [a|e']; simpl; [eauto | intros [= ->]; auto]. Qed.

(** ** The likely-subtags lookup *)

Section LikelySubtagsFacts.

Variable data : SupplementalData.

Lemma pick_unless {A : Type} `{EqDecision A} (input searched matched : A) :
  (if decide (input ≠ searched) then input else matched)
  = pick input searched matched.
Proof.
  unfold pick.
  destruct (decide (searched = input)) as [->|Hne]; destruct (decide _) as [H1|H1];
    first [done | exfalso; apply H1; congruence].
Qed.

Lemma next_search_Ok (keys : list LangTag) (key : LangTag) :
  next_search data keys = Ok key ↔
  ∃ i, keys !! i = Some key ∧ is_Some (likelySubtags data !! key)
       ∧ ∀ j key', j < i → keys !! j = Some key' → likelySubtags data !! key' = None.
Proof.
  revert key; induction keys as [|k keys IH]; intros key; simpl.
  - split; [discriminate | intros (i & Hi & _); destruct i; discriminate].
  - case_bool_decide as Hk.
    + split.
      * intros [= <-]. exists 0; repeat split; auto. intros j key' Hj; lia.
      * intros (i & Hi & Hp & Hfirst). destruct i as [|i]; simpl in Hi.
        { congruence. }
        specialize (Hfirst 0 k ltac:(lia) eq_refl).
        rewrite Hfirst in Hk. destruct Hk as [? [=]].
    + rewrite IH. split.
      * intros (i & Hi & Hp & Hfirst). exists (S i); repeat split; auto.
        intros [|j] key' Hj Hl; simpl in Hl.
        { injection Hl as <-. by apply eq_None_not_Some. }
        apply (Hfirst j); [lia | done].
      * intros (i & Hi & Hp & Hfirst). destruct i as [|i]; simpl in Hi.
        { injection Hi as ->. contradiction. }
        exists i; repeat split; auto.
        intros j key' Hj Hl. apply (Hfirst (S j)); [lia | done].
Qed.

Lemma next_search_Raise (keys : list LangTag) (e : exn) :
  next_search data keys = Raise e ↔
  e = StopIteration ∧ ∀ key, key ∈ keys → likelySubtags data !! key = None.
Proof.
  induction keys as [|k keys IH]; simpl.
  - split.
    + intros [= <-]. split; [done | intros key Hin; inversion Hin].
    + intros [-> _]. done.
  - case_bool_decide as Hk.
    + split; [discriminate |].
      intros [_ Hall]. rewrite (Hall k) in Hk; [| left].
      destruct Hk as [? [=]].
    + rewrite IH. split; intros [-> Hall]; split; auto.
      * intros key Hin. inversion Hin; subst; auto. by apply eq_None_not_Some.
      * intros key Hin. apply Hall. by right.
Qed.

Lemma next_search_elem (keys : list LangTag) (key : LangTag) :
  next_search data keys = Ok key →
  key ∈ keys ∧ is_Some (likelySubtags data !! key).
Proof.
  rewrite next_search_Ok. intros (i & Hi & Hp & _). split; [|done].
  by eapply list_elem_of_lookup_2.
Qed.


Lemma next_search_total (keys : list LangTag) (key : LangTag) :
  key ∈ keys → is_Some (likelySubtags data !! key) →
  ∃ key', next_search data keys = Ok key'.
Proof.
  intros Hin Hp. destruct (next_search data keys) as [k|e] eqn:E; [eauto|].
  apply next_search_Raise in E as [_ Hall]. rewrite (Hall _ Hin) in Hp.
  destruct Hp as [? [=]].
Qed.

(** What a successful call of [addLikelySubtags] went through. *)
Lemma addLikelySubtags_Ok (tag result : LangTag) :
  addLikelySubtags data tag = Ok result ↔
  ∃ language script region search matched,
    canonical data tag = Ok (language, script, region)
    ∧ next_search data
        (searches language (drop_placeholder "Zzzz" script)
           (drop_placeholder "ZZ" region)) = Ok search
    ∧ likelySubtags data !! search = Some matched
    ∧ result =
        (pick language search.1.1 matched.1.1,
         pick (drop_placeholder "Zzzz" script) search.1.2 matched.1.2,
         pick (drop_placeholder "ZZ" region) search.2 matched.2).
Proof.
  unfold addLikelySubtags. split.
  - intros Hadd.
    apply bind_Ok_inv in Hadd as ([[language script] region] & Hcan & Hadd).
    apply bind_Ok_inv in Hadd as ([[language_s script_s] region_s] & Hnext & Hadd).
    destruct (likelySubtags data !! _) as [[[language_m script_m] region_m]|] eqn:Hm;
      [|discriminate].
    injection Hadd as <-.
    exists language, script, region, (language_s, script_s, region_s),
      (language_m, script_m, region_m).
    repeat split; auto. by rewrite !pick_unless.
  - intros (language & script & region & [[language_s script_s] region_s]
            & [[language_m script_m] region_m] & Hcan & Hnext & Hm & ->).
    rewrite Hcan, bind_Ok. cbv beta iota. rewrite Hnext, bind_Ok.
    cbv beta iota. rewrite Hm. by rewrite !pick_unless.
Qed.

(** The only exceptions of [addLikelySubtags]: the assertion of [canonical]
    and the exhausted generator of the lookup. *)
Lemma addLikelySubtags_Raise (tag : LangTag) (e : exn) :
  addLikelySubtags data tag = Raise e ↔
  canonical data tag = Raise e
  ∨ ∃ language script region,
      canonical data tag = Ok (language, script, region)
      ∧ next_search data
          (searches language (drop_placeholder "Zzzz" script)
             (drop_placeholder "ZZ" region)) = Raise e.
Proof.
  unfold addLikelySubtags.
  destruct (canonical data tag) as [[[language script] region]|e'].
  - rewrite bind_Ok. cbv beta iota.
    destruct (next_search _ _) as [[[language_s script_s] region_s]|e''] eqn:Hnext.
    + rewrite bind_Ok. cbv beta iota.
      destruct (next_search_elem _ _ Hnext)
        as [_ [[[language_m script_m] region_m] Hm]].
      rewrite Hm. split; [discriminate|].
      intros [[=]|(? & ? & ? & [= <- <- <-] & Hnext')].
      congruence.
    + rewrite bind_Raise. split.
      * intros [= ->]. right. eauto.
      * intros [[=]|(? & ? & ? & [= <- <- <-] & Hnext')].
        congruence.
  - rewrite bind_Raise. split.
    + intros [= ->]. by left.
    + intros [[= ->]|(? & ? & ? & [=] & _)]. done.
Qed.

End LikelySubtagsFacts.

(** C1: in [addLikelySubtags], once the canonicalized input (its "Zzzz"
    script and "ZZ" region taken as absent) has been matched against a key
    of the table, each of language, script and region of the result is
    chosen on its own: the field of the table value when the key's field
    equals the input's field, the input's field otherwise. *)
Theorem addLikelySubtags_fieldwise (data : SupplementalData) (tag result : LangTag) :
  addLikelySubtags data tag = Ok result →
  ∃ language script region search matched,
    canonical data tag = Ok (language, script, region)
    ∧ next_search data
        (searches language (drop_placeholder "Zzzz" script)
           (drop_placeholder "ZZ" region)) = Ok search
    ∧ likelySubtags data !! search = Some matched
    ∧ result.1.1 =
        (if decide (search.1.1 = language) then matched.1.1 else language)
    ∧ result.1.2 =
        (if decide (search.1.2 = drop_placeholder "Zzzz" script)
         then matched.1.2 else drop_placeholder "Zzzz" script)
    ∧ result.2 =
        (if decide (search.2 = drop_placeholder "ZZ" region)
         then matched.2 else drop_placeholder "ZZ" region).
Proof.
  intros Hadd. apply addLikelySubtags_Ok in Hadd
    as (language & script & region & search & matched & Hcan & Hnext & Hm & ->).
  exists language, script, region, search, matched. by repeat split.
Qed.

(** C2: with the canonicalized input [(language, script, region)], script
    "Zzzz" and region "ZZ" taken as absent, [addLikelySubtags] looks up
    exactly the five keys [(language, script, region)],
    [(language, None, region)], [(language, script, None)],
    [(language, None, None)], [("und", script, None)] in this order, uses the
    first one the table holds, and raises [StopIteration], and nothing
    else, exactly when the table holds none of the five. *)
Theorem addLikelySubtags_lookup (data : SupplementalData) (tag : LangTag)
    (language : string) (script0 region0 : option string) :
  canonical data tag = Ok (language, script0, region0) →
  let script := drop_placeholder "Zzzz" script0 in
  let region := drop_placeholder "ZZ" region0 in
  let keys :=
    [ (language, script, region); (language, None, region);
      (language, script, None); (language, None, None);
      ("und", script, None) ] in
  searches language script region = keys
  ∧ (∀ i key,
       keys !! i = Some key →
       is_Some (likelySubtags data !! key) →
       (∀ j key', j < i → keys !! j = Some key' →
                  likelySubtags data !! key' = None) →
       ∃ matched,
         likelySubtags data !! key = Some matched
         ∧ addLikelySubtags data tag =
             Ok (pick language key.1.1 matched.1.1,
                 pick script key.1.2 matched.1.2,
                 pick region key.2 matched.2))
  ∧ (addLikelySubtags data tag = Raise StopIteration ↔
     ∀ key, key ∈ keys → likelySubtags data !! key = None)
  ∧ (∀ e, addLikelySubtags data tag = Raise e → e = StopIteration).
Proof.
  intros Hcan script region keys. split; [reflexivity|]. split; [|split].
  - intros i key Hi [matched Hm] Hfirst. exists matched. split; [done|].
    apply addLikelySubtags_Ok.
    exists language, script0, region0, key, matched. repeat split; auto.
    apply next_search_Ok. exists i. repeat split; eauto.
  - rewrite addLikelySubtags_Raise, Hcan. split.
    + intros [[=]|(? & ? & ? & [= <- <- <-] & Hnext)].
      by apply next_search_Raise in Hnext as [_ Hall].
    + intros Hall. right. exists language, script0, region0. split; [done|].
      by apply next_search_Raise.
  - intros e. rewrite addLikelySubtags_Raise, Hcan.
    intros [[=]|(? & ? & ? & [= <- <- <-] & Hnext)].
    by apply next_search_Raise in Hnext as [-> _].
Qed.

(** C3: [removeLikelySubtags] first computes [max = addLikelySubtags(tag)];
    it then tries [(language, None, None)], [(language, None, region)] and
    [(language, script, None)] of [max] in this order, returns the first
    trial whose [addLikelySubtags] equals [max], and returns [max] when none
    of the three does. An exception of any of these calls ends the function
    with that exception. *)
Theorem removeLikelySubtags_trials (data : SupplementalData) (tag : LangTag) :
  removeLikelySubtags data tag =
    match addLikelySubtags data tag with
    | Raise e => Raise e
    | Ok max =>
        let '(language, script, region) := max in
        match addLikelySubtags data (language, None, None) with
        | Raise e => Raise e
        | Ok m1 =>
            if decide (m1 = max) then Ok (language, None, None)
            else
              match addLikelySubtags data (language, None, region) with
              | Raise e => Raise e
              | Ok m2 =>
                  if decide (m2 = max) then Ok (language, None, region)
                  else
                    match addLikelySubtags data (language, script, None) with
                    | Raise e => Raise e
                    | Ok m3 =>
                        if decide (m3 = max) then Ok (language, script, None)
                        else Ok max
                    end
              end
        end
    end.
Proof.
  unfold removeLikelySubtags.
  destruct (addLikelySubtags data tag) as [[[language script] region]|e]; simpl; [|done].
  destruct (addLikelySubtags data (language, None, None)) as [m1|e]; simpl; [|done].
  destruct (decide _); [done|].
  destruct (addLikelySubtags data (language, None, region)) as [m2|e]; simpl; [|done].
  destruct (decide _); [done|].
  destruct (addLikelySubtags data (language, script, None)) as [m3|e]; simpl; [|done].
  by destruct (decide _).
Qed.

(** ** Tables under which the likely subtags are stable *)

Section StableTables.

Variable data : SupplementalData.

Lemma no_language_mapping_true (language : string) :
  no_language_mapping data language = true ↔
  languageMappings data !! language = None
  ∧ complexLanguageMappings data !! language = None.
Proof.
  unfold no_language_mapping.
  rewrite andb_true_iff, !bool_decide_eq_true. done.
Qed.

Lemma no_region_mapping_true (region : string) :
  no_region_mapping data region = true ↔
  regionMappings data !! region = None
  ∧ complexRegionMappings data !! region = None.
Proof.
  unfold no_region_mapping.
  rewrite andb_true_iff, !bool_decide_eq_true. done.
Qed.

(** [canonical] leaves a tuple alone when no mapping applies to it. *)
Lemma canonical_fixed (language : string) (script region : option string) :
  no_language_mapping data language = true →
  (∀ r, region = Some r → no_region_mapping data r = true) →
  canonical data (language, script, region) = Ok (language, script, region).
Proof.
  intros [Hl Hcl]%no_language_mapping_true Hr.
  unfold canonical, canonical_language, canonical_region. rewrite Hl, Hcl.
  destruct region as [r|]; simpl; [|done].
  destruct (proj1 (no_region_mapping_true r) (Hr r eq_refl)) as [Hr1 Hr2].
  rewrite Hr1, Hr2. rewrite bool_decide_eq_false_2; [done|].
  by intros [? [=]].
Qed.

(** The region step of [canonical]. *)
Lemma canonical_region_final (tag result : LangTag) :
  preferred_regions_final data →
  canonical_region data tag = Ok result →
  result.1 = tag.1
  ∧ ∀ r, result.2 = Some r → no_region_mapping data r = true.
Proof.
  intros Hfinal. destruct tag as [[language script] region].
  unfold canonical_region.
  destruct (region ≫= _) as [region'|] eqn:Hmap.
  - intros [= <-]. split; [done|]. simpl. intros r [= <-].
    destruct region as [r0|]; simpl in Hmap; [|done].
    by apply (Hfinal _ _ Hmap).
  - destruct (py_in _ _) eqn:Hin; [done|]. intros [= <-]. split; [done|].
    simpl. intros r ->. simpl in Hmap, Hin.
    apply no_region_mapping_true. split; [done|].
    apply bool_decide_eq_false in Hin. by apply eq_None_not_Some.
Qed.

(** The result of [canonical] has no mapping left to apply. *)
Lemma canonical_final (tag : LangTag) (language : string)
    (script region : option string) :
  preferred_languages_final data →
  preferred_regions_final data →
  canonical data tag = Ok (language, script, region) →
  no_language_mapping data language = true
  ∧ ∀ r, region = Some r → no_region_mapping data r = true.
Proof.
  intros [Hsimple Hcomplex] Hregions.
  destruct tag as [[language0 script0] region0]. unfold canonical.
  intros [Hfields Hr]%canonical_region_final; [|done].
  split; [|done]. simpl in Hfields. unfold canonical_language in Hfields.
  destruct (languageMappings data !! language0) as [language'|] eqn:Hl.
  - injection Hfields as -> _. by apply (Hsimple _ _ Hl).
  - destruct (complexLanguageMappings data !! language0)
      as [[[language2 script2] region2]|] eqn:Hcl.
    + injection Hfields as -> _. by apply (Hcomplex _ _ Hcl).
    + injection Hfields as -> _. by apply no_language_mapping_true.
Qed.

Lemma drop_placeholder_Some (placeholder x : string) :
  x ≠ placeholder → drop_placeholder placeholder (Some x) = Some x.
Proof. intros Hne. unfold drop_placeholder. destruct (decide _); congruence. Qed.

Lemma drop_placeholder_not (placeholder : string) (x : option string) :
  drop_placeholder placeholder x ≠ Some placeholder.
Proof. unfold drop_placeholder. destruct (decide _); congruence. Qed.

Lemma keeps_key_true (key value : LangTag) :
  keeps_key key value = true ↔
  (key.1.1 = "und" ∨ value.1.1 = key.1.1)
  ∧ (key.1.2 = None ∨ value.1.2 = key.1.2)
  ∧ (key.2 = None ∨ value.2 = key.2).
Proof.
  unfold keeps_key.
  rewrite !andb_true_iff, !orb_true_iff, !bool_decide_eq_true. tauto.
Qed.

Lemma elem_of_searches_iff (key : LangTag) (language : string)
    (script region : option string) :
  key ∈ searches language script region ↔
  key = (language, script, region) ∨ key = (language, None, region)
  ∨ key = (language, script, None) ∨ key = (language, None, None)
  ∨ key = ("und", script, None).
Proof.
  unfold searches. rewrite !elem_of_cons, elem_of_nil. tauto.
Qed.

Lemma elem_of_searches (key : LangTag) (language : string)
    (script region : option string) :
  key ∈ searches language script region →
  (key.1.1 = language ∧ (key.1.2 = script ∨ key.1.2 = None)
   ∧ (key.2 = region ∨ key.2 = None))
  ∨ key = ("und", script, None).
Proof.
  rewrite elem_of_searches_iff.
  intros [->|[->|[->|[->| ->]]]]; simpl; auto 10.
Qed.

(** A tuple with script and region, none of them a placeholder or
    deprecated, and a language other than "und": whatever key
    [addLikelySubtags] finds for it, a table that keeps its keys returns the
    tuple itself. *)
Lemma addLikelySubtags_fixed (language script region : string) (search : LangTag) :
  likely_keeps_keys data →
  language ≠ "und" →
  no_language_mapping data language = true →
  no_region_mapping data region = true →
  script ≠ "Zzzz" →
  region ≠ "ZZ" →
  next_search data (searches language (Some script) (Some region)) = Ok search →
  addLikelySubtags data (language, Some script, Some region)
  = Ok (language, Some script, Some region).
Proof.
  intros Hkeeps Hund Hl Hr Hs Hz Hnext.
  destruct (next_search_elem _ _ _ Hnext) as [Hin [matched Hm]].
  apply addLikelySubtags_Ok.
  exists language, (Some script), (Some region), search, matched.
  rewrite !drop_placeholder_Some by done.
  split; [apply canonical_fixed; [done | by intros r [= <-]]|].
  split; [done|]. split; [done|].
  pose proof (proj1 (keeps_key_true _ _) (Hkeeps _ _ Hm)) as (Hk1 & Hk2 & Hk3).
  unfold pick.
  apply elem_of_searches in Hin as [(E1 & E2 & E3)| ->]; simpl in *.
  - repeat f_equal; destruct (decide _); intuition congruence.
  - repeat f_equal; destruct (decide _); intuition congruence.
Qed.

Lemma complete_value_true (value : LangTag) :
  complete_value data value = true ↔
  value.1.1 ≠ "und"
  ∧ no_language_mapping data value.1.1 = true
  ∧ (∃ script, value.1.2 = Some script ∧ script ≠ "Zzzz")
  ∧ (∃ region, value.2 = Some region
               ∧ region ≠ "ZZ" ∧ no_region_mapping data region = true).
Proof.
  unfold complete_value.
  rewrite !andb_true_iff, bool_decide_eq_true.
  destruct value.1.2 as [script|], value.2 as [region|];
    rewrite ?andb_true_iff, ?bool_decide_eq_true; split.
  - intros [[[? ?] ?] [? ?]]. eauto 10.
  - intros (? & ? & (? & [= <-] & ?) & (? & [= <-] & ? & ?)). auto.
  - intros [_ [=]].
  - intros (_ & _ & _ & (? & [=] & _)).
  - intros [[_ [=]] _].
  - intros (_ & _ & (? & [=] & _) & _).
  - intros [_ [=]].
  - intros (_ & _ & _ & (? & [=] & _)).
Qed.

Lemma und_closed_true (key value : LangTag) :
  und_closed data key value = true →
  key.1.1 = "und" →
  is_Some (likelySubtags data !! (value.1.1, None, None))
  ∧ is_Some (likelySubtags data !! ("und", value.1.2, None)).
Proof.
  unfold und_closed.
  rewrite orb_true_iff, andb_true_iff, !bool_decide_eq_true.
  intros [Hne|[? ?]] Hund; [done | auto].
Qed.

(** Step 3 for the script or the region: with a present value that
    satisfies [Q], and an input that satisfies [Q] when present, the field
    of the result is present and satisfies [Q]; the key has no such field or
    has this one. *)
Lemma pick_present (Q : string → Prop) (input searched matched : option string) :
  (∀ x, input = Some x → Q x) →
  searched = input ∨ searched = None →
  (∃ a, matched = Some a ∧ Q a) →
  searched = None ∨ matched = searched →
  ∃ x, pick input searched matched = Some x ∧ Q x
       ∧ (searched = None ∨ searched = Some x).
Proof.
  intros Hinput Hsearched (a & -> & Ha) Hkeeps. unfold pick.
  destruct (decide (searched = input)) as [<-|Hne].
  - exists a. destruct Hkeeps as [->| <-]; auto.
  - destruct Hsearched as [->| ->]; [done|].
    destruct input as [x|]; [|done]. exists x. auto.
Qed.

(** With preferred values that are final, and a likely-subtags table whose
    values are complete, keep their keys and are closed for the keys on
    "und", a result of [addLikelySubtags] is returned as it is by a second
    call. *)
Lemma addLikelySubtags_again (tag max : LangTag) :
  preferred_languages_final data →
  preferred_regions_final data →
  likely_values_complete data →
  likely_keeps_keys data →
  likely_und_closed data →
  addLikelySubtags data tag = Ok max →
  addLikelySubtags data max = Ok max.
Proof.
  intros Hlanguages Hregions Hcomplete Hkeeps Hclosed Hadd.
  apply addLikelySubtags_Ok in Hadd
    as (language & script0 & region0 & search & matched & Hcan & Hnext & Hm & ->).
  destruct (canonical_final _ _ _ _ Hlanguages Hregions Hcan) as [Hl Hr0].
  destruct (next_search_elem _ _ _ Hnext) as [Hin _].
  pose proof (proj1 (keeps_key_true _ _) (Hkeeps _ _ Hm)) as (Hk1 & Hk2 & Hk3).
  pose proof (proj1 (complete_value_true _) (Hcomplete _ _ Hm))
    as (Hv1 & Hv2 & Hv3 & Hv4).
  pose proof (und_closed_true _ _ (Hclosed _ _ Hm)) as Hund.
  set (script := drop_placeholder "Zzzz" script0) in *.
  set (region := drop_placeholder "ZZ" region0) in *.
  assert (Hsearch : (search.1.1 = language
                     ∨ search.1.1 = "und" ∧ search.1.2 = script)
                    ∧ (search.1.2 = script ∨ search.1.2 = None)
                    ∧ (search.2 = region ∨ search.2 = None)).
  { apply elem_of_searches in Hin as [(? & ? & ?)| ->]; simpl; auto. }
  destruct Hsearch as (Hs1 & Hs2 & Hs3).
  destruct (pick_present (fun x => x ≠ "Zzzz") script search.1.2 matched.1.2)
    as (S & HS & HSz & HSk); auto.
  { intros x Hx. intros ->. by apply (drop_placeholder_not "Zzzz" script0). }
  destruct (pick_present
              (fun x => x ≠ "ZZ" ∧ no_region_mapping data x = true)
              region search.2 matched.2)
    as (R & HR & [HRz HRm] & HRk); auto.
  { intros x Hx. split.
    - intros ->. by apply (drop_placeholder_not "ZZ" region0).
    - apply Hr0. subst region. unfold drop_placeholder in Hx.
      by destruct (decide _). }
  rewrite HS, HR.
  assert (HL : pick language search.1.1 matched.1.1 ≠ "und"
               ∧ no_language_mapping data
                   (pick language search.1.1 matched.1.1) = true
               ∧ ∃ key,
                   key ∈ searches (pick language search.1.1 matched.1.1)
                          (Some S) (Some R)
                   ∧ is_Some (likelySubtags data !! key)).
  { unfold pick in *. destruct (decide (search.1.1 = language)) as [Heq|Hne].
    - split; [done|]. split; [done|].
      destruct (decide (language = "und")) as [->|Hnund].
      + exists (matched.1.1, None, None). split; [|by apply Hund].
        apply elem_of_searches_iff. auto.
      + exists search. split; [|by rewrite Hm].
        assert (matched.1.1 = language) as -> by (destruct Hk1; congruence).
        destruct search as [[kl ks] kr]; simpl in *. subst kl.
        apply elem_of_searches_iff.
        destruct HSk as [->| ->], HRk as [->| ->]; auto 10.
    - apply elem_of_searches in Hin as [(? & _)|Hsearch]; [done|].
      assert (language ≠ "und") by (intros ->; by rewrite Hsearch in Hne).
      split; [done|]. split; [done|].
      exists ("und", Some S, None). split; [apply elem_of_searches_iff; auto 10|].
      rewrite Hsearch in *. simpl in *.
      destruct HSk as [Hnone|Hsome].
      + destruct (decide (script = script)) as [_|?]; [|done].
        rewrite <- HS. by apply Hund.
      + rewrite <- Hsome, Hm. done. }
  destruct HL as (HL1 & HL2 & key & Hkey & Hpresent).
  destruct (next_search_total _ _ _ Hkey Hpresent) as [search' Hnext'].
  by eapply addLikelySubtags_fixed.
Qed.

End StableTables.

(** What [removeLikelySubtags] returns: the maximized tuple, or a trial
    whose maximization is that tuple. *)
Lemma find_match_Ok (data : SupplementalData) (max : LangTag)
    (trials : list LangTag) (result : LangTag) :
  find_match data max trials = Ok result →
  result = max ∨ addLikelySubtags data result = Ok max.
Proof.
  induction trials as [|trial trials IH]; simpl.
  - intros [= <-]. by left.
  - intros (m & Hm & Hrest)%bind_Ok_inv.
    destruct (decide (m = max)) as [->|Hne]; [|auto].
    injection Hrest as <-. by right.
Qed.

Lemma removeLikelySubtags_Ok (data : SupplementalData) (tag result : LangTag) :
  removeLikelySubtags data tag = Ok result →
  ∃ max, addLikelySubtags data tag = Ok max
         ∧ (result = max ∨ addLikelySubtags data result = Ok max).
Proof.
  unfold removeLikelySubtags.
  intros ([[language script] region] & Hmax & Hmatch)%bind_Ok_inv.
  eexists. split; [done|]. by eapply find_match_Ok.
Qed.

Lemma addLikelySubtags_fieldwise_witness :
  addLikelySubtags Sample.cldr ("zh", Some "Hant", None)
  = Ok ("zh", Some "Hant", Some "TW")
  ∧ ∃ language script region search matched,
      canonical Sample.cldr ("zh", Some "Hant", None)
      = Ok (language, script, region)
      ∧ next_search Sample.cldr
          (searches language (drop_placeholder "Zzzz" script)
             (drop_placeholder "ZZ" region)) = Ok search
      ∧ likelySubtags Sample.cldr !! search = Some matched
      ∧ "zh" = (if decide (search.1.1 = language) then matched.1.1 else language)
      ∧ Some "Hant" =
          (if decide (search.1.2 = drop_placeholder "Zzzz" script)
           then matched.1.2 else drop_placeholder "Zzzz" script)
      ∧ Some "TW" =
          (if decide (search.2 = drop_placeholder "ZZ" region)
           then matched.2 else drop_placeholder "ZZ" region).
Proof.
  split; [by_evaluation|].
  apply (addLikelySubtags_fieldwise Sample.cldr ("zh", Some "Hant", None)
           ("zh", Some "Hant", Some "TW")).
  by_evaluation.
Defined.

Lemma addLikelySubtags_lookup_witness :
  canonical Sample.cldr ("sh", None, Some "ZZ") = Ok ("sr", Some "Latn", Some "ZZ")
  ∧ addLikelySubtags Sample.cldr ("sh", None, Some "ZZ")
    = Ok ("sr", Some "Latn", Some "RS").
Proof.
  split; [by_evaluation|].
  destruct (addLikelySubtags_lookup Sample.cldr ("sh", None, Some "ZZ")
              "sr" (Some "Latn") (Some "ZZ") ltac:(by_evaluation))
    as (_ & Hfirst & _).
  destruct (Hfirst 1 ("sr", None, None) eq_refl ltac:(by_evaluation))
    as (matched & Hm & ->).
  - intros j key' Hj Hkey'.
    destruct j as [|j]; simpl in Hkey';
      [injection Hkey' as <-; by_evaluation | lia].
  - vm_compute in Hm. injection Hm as <-. by_evaluation.
Defined.

(** C9, as stated, fails: with the CLDR entry that maps "und-Latn" to
    "en-Latn-US", the explicit tuple [("und", "Latn", "US")] comes back with
    the language "en". *)
Lemma addLikelySubtags_replaces_und :
  addLikelySubtags Sample.cldr ("und", Some "Latn", Some "US")
  = Ok ("en", Some "Latn", Some "US")
  ∧ ("en", Some "Latn", Some "US") ≠ ("und", Some "Latn", Some "US").
Proof. by_evaluation. Qed.

(** C9, amended: for a call of [addLikelySubtags] that succeeds on
    [(l, s, r)], where [s] and [r] are present and not the placeholders
    "Zzzz" and "ZZ", [l] is not "und", no mapping replaces [l] or [r], and
    the likely-subtags entries keep the fields of their keys, the result is
    [(l, s, r)] unchanged. *)
Theorem addLikelySubtags_explicit (data : SupplementalData)
    (language script region : string) (result : LangTag) :
  language ≠ "und" →
  no_language_mapping data language = true →
  no_region_mapping data region = true →
  script ≠ "Zzzz" →
  region ≠ "ZZ" →
  likely_keeps_keys data →
  addLikelySubtags data (language, Some script, Some region) = Ok result →
  result = (language, Some script, Some region).
Proof.
  intros Hund Hl Hr Hs Hz Hkeeps Hadd.
  pose proof Hadd as Hadd'.
  apply addLikelySubtags_Ok in Hadd'
    as (language' & script' & region' & search & matched & Hcan & Hnext & _).
  rewrite canonical_fixed in Hcan; [|done|by intros r [= <-]].
  injection Hcan as <- <- <-.
  rewrite !drop_placeholder_Some in Hnext by done.
  pose proof (addLikelySubtags_fixed data language script region search
                Hkeeps Hund Hl Hr Hs Hz Hnext) as Hfixed.
  congruence.
Qed.

Lemma addLikelySubtags_explicit_witness :
  addLikelySubtags Sample.cldr ("zh", Some "Hant", Some "HK")
  = Ok ("zh", Some "Hant", Some "HK").
Proof.
  assert (∃ result, addLikelySubtags Sample.cldr ("zh", Some "Hant", Some "HK")
                    = Ok result) as [result Hadd].
  { eexists. vm_compute. reflexivity. }
  rewrite Hadd. f_equal.
  apply (addLikelySubtags_explicit Sample.cldr "zh" "Hant" "HK" result);
    first [exact Hadd | by_evaluation].
Defined.

(** C5, as stated, fails: on a table whose entry for "no" gives "nb" and
    whose entry for "nb" gives "nn", maximizing twice differs from
    maximizing once. *)
Lemma addLikelySubtags_not_idempotent :
  addLikelySubtags Sample.chained ("no", None, None)
  = Ok ("nb", Some "Latn", Some "NO")
  ∧ addLikelySubtags Sample.chained ("nb", Some "Latn", Some "NO")
    = Ok ("nn", Some "Latn", Some "NO")
  ∧ ("nn", Some "Latn", Some "NO") ≠ ("nb", Some "Latn", Some "NO").
Proof. by_evaluation. Qed.

(** C5, amended: [addLikelySubtags] is idempotent on every input on which
    it succeeds, provided the preferred values of the language and region
    mappings are not themselves deprecated and every likely-subtags entry
    has a complete value (language other than "und", script and region
    present and not placeholders, none deprecated) that keeps the fields of
    its key, with the entries on "und" closed under the languages and
    scripts of their values. *)
Theorem addLikelySubtags_idempotent (data : SupplementalData) (tag max : LangTag) :
  preferred_languages_final data →
  preferred_regions_final data →
  likely_values_complete data →
  likely_keeps_keys data →
  likely_und_closed data →
  addLikelySubtags data tag = Ok max →
  addLikelySubtags data max = Ok max.
Proof. apply addLikelySubtags_again. Qed.

Lemma addLikelySubtags_idempotent_witness :
  addLikelySubtags Sample.cldr ("sh", None, Some "DD")
  = Ok ("sr", Some "Latn", Some "DE")
  ∧ addLikelySubtags Sample.cldr ("sr", Some "Latn", Some "DE")
    = Ok ("sr", Some "Latn", Some "DE").
Proof.
  split; [by_evaluation|].
  apply (addLikelySubtags_idempotent Sample.cldr ("sh", None, Some "DD"));
    by_evaluation.
Defined.

(** C4, as stated, fails: on the same table, minimizing "no" returns the
    maximized tuple itself, and maximizing that tuple gives another one. *)
Lemma removeLikelySubtags_not_round_trip :
  addLikelySubtags Sample.chained ("no", None, None)
  = Ok ("nb", Some "Latn", Some "NO")
  ∧ removeLikelySubtags Sample.chained ("no", None, None)
    = Ok ("nb", Some "Latn", Some "NO")
  ∧ addLikelySubtags Sample.chained ("nb", Some "Latn", Some "NO")
    = Ok ("nn", Some "Latn", Some "NO")
  ∧ ("nn", Some "Latn", Some "NO") ≠ ("nb", Some "Latn", Some "NO").
Proof. by_evaluation. Qed.

(** C4, amended: for every input on which [removeLikelySubtags] and
    [addLikelySubtags] succeed, maximizing the minimized tuple gives the
    maximized input, provided the tables satisfy the conditions under which
    maximization is idempotent. *)
Theorem removeLikelySubtags_round_trip (data : SupplementalData)
    (tag min max : LangTag) :
  preferred_languages_final data →
  preferred_regions_final data →
  likely_values_complete data →
  likely_keeps_keys data →
  likely_und_closed data →
  removeLikelySubtags data tag = Ok min →
  addLikelySubtags data tag = Ok max →
  addLikelySubtags data min = Ok max.
Proof.
  intros Hlanguages Hregions Hcomplete Hkeeps Hclosed Hmin Hmax.
  apply removeLikelySubtags_Ok in Hmin as (max' & Hmax' & Hmin).
  assert (max' = max) as -> by congruence.
  destruct Hmin as [->|Hmin]; [|done].
  by eapply addLikelySubtags_again.
Qed.

Lemma removeLikelySubtags_round_trip_witness :
  (removeLikelySubtags Sample.cldr ("en", Some "Cyrl", Some "DD")
   = Ok ("en", Some "Cyrl", Some "DE")
   ∧ addLikelySubtags Sample.cldr ("en", Some "Cyrl", Some "DD")
     = Ok ("en", Some "Cyrl", Some "DE")
   ∧ addLikelySubtags Sample.cldr ("en", Some "Cyrl", Some "DE")
     = Ok ("en", Some "Cyrl", Some "DE"))
  ∧ (removeLikelySubtags Sample.cldr ("sh", None, Some "ME")
     = Ok ("sr", None, Some "ME")
     ∧ addLikelySubtags Sample.cldr ("sh", None, Some "ME")
       = Ok ("sr", Some "Latn", Some "ME")
     ∧ addLikelySubtags Sample.cldr ("sr", None, Some "ME")
       = Ok ("sr", Some "Latn", Some "ME")).
Proof.
  split.
  - split; [by_evaluation|]. split; [by_evaluation|].
    apply (removeLikelySubtags_round_trip Sample.cldr
             ("en", Some "Cyrl", Some "DD") ("en", Some "Cyrl", Some "DE")
             ("en", Some "Cyrl", Some "DE"));
      by_evaluation.
  - split; [by_evaluation|]. split; [by_evaluation|].
    apply (removeLikelySubtags_round_trip Sample.cldr
             ("sh", None, Some "ME") ("sr", None, Some "ME")
             ("sr", Some "Latn", Some "ME"));
      by_evaluation.
Defined.

(** ** [sorted] *)

Lemma leb_refl (s : string) : String.leb s s = true.
Proof. by destruct (String.leb_total s s). Qed.

Section SortedFacts.

Context {A : Type}.
Variable key : A → string.

Lemma insert_by_Permutation (x : A) (l : list A) : insert_by key x l ≡ₚ x :: l.
Proof.
  induction l as [|y l IH]; simpl; [done|].
  destruct (String.leb _ _); [done|].
  rewrite IH. apply Permutation_swap.
Qed.

Lemma sorted_Permutation (l : list A) : sorted key l ≡ₚ l.
Proof.
  induction l as [|x l IH]; simpl; [done|].
  by rewrite insert_by_Permutation, IH.
Qed.

(** Stability: a test that only holds for elements of one key finds the
    same element before and after sorting. *)
Lemma find_insert_by (p : A → bool) (k : string) (x : A) (l : list A) :
  (∀ y, p y = true → key y = k) →
  List.find p (insert_by key x l) = if p x then Some x else List.find p l.
Proof.
  intros Hp. induction l as [|y l IH]; simpl; [done|].
  destruct (String.leb (key x) (key y)) eqn:Hle; simpl.
  - done.
  - rewrite IH. destruct (p y) eqn:Hy; [|done].
    destruct (p x) eqn:Hx; [|done].
    rewrite (Hp _ Hx), (Hp _ Hy), leb_refl in Hle. done.
Qed.

Lemma find_sorted (p : A → bool) (k : string) (l : list A) :
  (∀ y, p y = true → key y = k) →
  List.find p (sorted key l) = List.find p l.
Proof.
  intros Hp. induction l as [|x l IH]; simpl; [done|].
  by rewrite (find_insert_by p k), IH.
Qed.

End SortedFacts.

Lemma elem_of_sorted_items {V : Type} (d : gmap string V) (k : string) (v : V) :
  (k, v) ∈ sorted_items d ↔ d !! k = Some v.
Proof.
  unfold sorted_items. rewrite sorted_Permutation. apply elem_of_map_to_list.
Qed.

Lemma NoDup_sorted_items {V : Type} (d : gmap string V) :
  NoDup (sorted_items d).*1.
Proof.
  unfold sorted_items. rewrite sorted_Permutation. apply NoDup_fst_map_to_list.
Qed.

(** ** The [case] groups *)

Section CaseGroupsFacts.

Context {V K : Type} `{Countable K}.
Variable key_of : V → K.

Lemma collect_aliases_step (seen items : list (string * V))
    (aliases : gmap K (list string)) :
  NoDup (seen ++ items).*1 →
  aliases_of key_of seen aliases →
  aliases_of key_of (seen ++ items)
    (fold_left
       (fun aliases item =>
          match aliases !! key_of item.2 with
          | None => <[key_of item.2 := []]> aliases
          | Some l => <[key_of item.2 := l ++ [item.1]]> aliases
          end)
       items aliases).
Proof.
  revert seen aliases. induction items as [|[x v] items IH]; intros seen aliases.
  - rewrite app_nil_r. done.
  - intros Hnodup Hinv. simpl.
    replace (seen ++ (x, v) :: items) with ((seen ++ [(x, v)]) ++ items) in *
      by (by rewrite <- app_assoc).
    apply IH; [done|].
    assert (Hfresh : ∀ v', (x, v') ∉ seen).
    { intros v' Hin. rewrite !fmap_app in Hnodup.
      apply NoDup_app in Hnodup as [Hnodup _].
      apply NoDup_app in Hnodup as (_ & Hdisj & _).
      apply (Hdisj x); [|simpl; left].
      apply list_elem_of_fmap. by exists (x, v'). }
    intros k l. destruct (aliases !! key_of v) as [l0|] eqn:Hl0.
    + destruct (decide (k = key_of v)) as [->|Hne].
      * rewrite lookup_insert_eq. intros [= <-].
        destruct (Hinv _ _ Hl0) as [Hall (x0 & v0 & Hx0 & Hk0 & Hnot)]. split.
        -- intros y [Hy|Hy%list_elem_of_singleton]%elem_of_app.
           ++ destruct (Hall _ Hy) as (v' & ? & ?). exists v'.
              split; [|done]. apply elem_of_app. by left.
           ++ subst y. exists v. split; [|done]. apply elem_of_app. right. by left.
        -- exists x0, v0. split; [apply elem_of_app; by left|]. split; [done|].
           intros [?|Heq%list_elem_of_singleton]%elem_of_app; [done|].
           subst x0. by apply (Hfresh v0).
      * rewrite lookup_insert_ne by done. intros Hl.
        destruct (Hinv _ _ Hl) as [Hall (x0 & v0 & Hx0 & Hk0 & Hnot)]. split.
        -- intros y Hy. destruct (Hall _ Hy) as (v' & ? & ?). exists v'.
           split; [|done]. apply elem_of_app. by left.
        -- exists x0, v0. split; [apply elem_of_app; by left|]. done.
    + destruct (decide (k = key_of v)) as [->|Hne].
      * rewrite lookup_insert_eq. intros [= <-]. split.
        -- intros y Hy. by apply elem_of_nil in Hy.
        -- exists x, v. split; [apply elem_of_app; right; by left|].
           split; [done|]. apply not_elem_of_nil.
      * rewrite lookup_insert_ne by done. intros Hl.
        destruct (Hinv _ _ Hl) as [Hall (x0 & v0 & Hx0 & Hk0 & Hnot)]. split.
        -- intros y Hy. destruct (Hall _ Hy) as (v' & ? & ?). exists v'.
           split; [|done]. apply elem_of_app. by left.
        -- exists x0, v0. split; [apply elem_of_app; by left|]. done.
Qed.

Lemma collect_aliases_spec (items : list (string * V)) :
  NoDup items.*1 → aliases_of key_of items (collect_aliases key_of items).
Proof.
  intros Hnodup. apply (collect_aliases_step [] items ∅); [done|].
  intros k l. by rewrite lookup_empty.
Qed.

(** The labels of a group are items with the merge key of the group. *)
Lemma case_groups_labels (items : list (string * V)) (labels : list string) (v : V) :
  NoDup items.*1 →
  (labels, v) ∈ case_groups key_of items →
  ∀ x, x ∈ labels → ∃ v', (x, v') ∈ items ∧ key_of v' = key_of v.
Proof.
  intros Hnodup Hin x Hx. unfold case_groups in Hin.
  apply list_elem_of_In, in_flat_map in Hin as ([x0 v0] & Hitem & Hgroup).
  apply list_elem_of_In in Hitem. simpl in Hgroup.
  case_bool_decide as Hskip; [done|].
  destruct Hgroup as [[= <- <-]|[]].
  apply elem_of_cons in Hx as [->|Hx]; [eauto|].
  destruct (collect_aliases key_of items !! key_of v0) as [l|] eqn:Hl;
    simpl in Hx; [|by apply elem_of_nil in Hx].
  by apply (collect_aliases_spec items Hnodup _ _ Hl).
Qed.

(** Every item is a label of some group. *)
Lemma case_groups_cover (items : list (string * V)) (x : string) (v : V) :
  NoDup items.*1 →
  (x, v) ∈ items →
  ∃ labels v0, (labels, v0) ∈ case_groups key_of items ∧ x ∈ labels.
Proof.
  intros Hnodup Hin.
  set (others := default [] (collect_aliases key_of items !! key_of v)).
  assert (Hemit : ∀ x0 v0, (x0, v0) ∈ items → key_of v0 = key_of v →
                    x0 ∉ others → (x0 :: others, v0) ∈ case_groups key_of items).
  { intros x0 v0 Hin0 Hkey Hnot. unfold case_groups.
    apply list_elem_of_In, in_flat_map. exists (x0, v0).
    split; [by apply list_elem_of_In|]. simpl. rewrite Hkey. fold others.
    rewrite bool_decide_eq_false_2 by done. by left. }
  destruct (decide (x ∈ others)) as [Hx|Hx].
  - subst others.
    destruct (collect_aliases key_of items !! key_of v) as [l|] eqn:Hl;
      simpl in *; [|by apply elem_of_nil in Hx].
    destruct (collect_aliases_spec items Hnodup _ _ Hl)
      as [_ (x0 & v0 & Hx0 & Hk0 & Hnot)].
    exists (x0 :: l), v0. split; [by apply Hemit|]. by right.
  - exists (x :: others), v. split; [by apply Hemit|]. by left.
Qed.

End CaseGroupsFacts.

Lemma select_case_Some {V : Type} (x : string) (groups : list (list string * V))
    (v : V) :
  select_case x groups = Some v → ∃ labels, (labels, v) ∈ groups ∧ x ∈ labels.
Proof.
  unfold select_case. destruct (List.find _ groups) as [[labels v']|] eqn:Hfind;
    simpl; [|done].
  intros [= <-]. apply find_some in Hfind as [Hin Hx].
  exists labels. split; [by apply list_elem_of_In|].
  by apply bool_decide_eq_true in Hx.
Qed.

Lemma select_case_is_Some {V : Type} (x : string) (groups : list (list string * V))
    (labels : list string) (v : V) :
  (labels, v) ∈ groups → x ∈ labels → is_Some (select_case x groups).
Proof.
  intros Hin Hx. unfold select_case.
  destruct (List.find _ groups) as [g|] eqn:Hfind; simpl; [eauto|].
  apply list_elem_of_In in Hin.
  pose proof (find_none _ _ Hfind _ Hin) as Hnone. simpl in Hnone.
  by apply bool_decide_eq_false in Hnone.
Qed.

Lemma select_case_fmap {V W : Type} (f : V → W) (x : string)
    (groups : list (list string * V)) :
  select_case x ((fun g => (g.1, f g.2)) <$> groups) = f <$> select_case x groups.
Proof.
  unfold select_case. induction groups as [|[labels v] groups IH]; simpl; [done|].
  case_bool_decide; simpl; [done|]. apply IH.
Qed.

(** The clause the switch runs for a key of the dictionary: that of an item
    with the same merge key. *)
Lemma select_case_groups {V K : Type} `{Countable K} (key_of : V → K)
    (d : gmap string V) (x : string) (v : V) :
  d !! x = Some v →
  ∃ v0 x0, select_case x (case_groups key_of (sorted_items d)) = Some v0
           ∧ d !! x0 = Some v0 ∧ key_of v0 = key_of v.
Proof.
  intros Hx. apply elem_of_sorted_items in Hx as Hitem.
  pose proof (NoDup_sorted_items d) as Hnodup.
  destruct (case_groups_cover key_of _ _ _ Hnodup Hitem)
    as (labels & v1 & Hgroup & Hlabel).
  destruct (select_case_is_Some _ _ _ _ Hgroup Hlabel) as [v0 Hselect].
  destruct (select_case_Some _ _ _ Hselect) as (labels0 & Hgroup0 & Hlabel0).
  destruct (case_groups_labels key_of _ _ _ Hnodup Hgroup0 _ Hlabel0)
    as (v' & Hitem' & Hkey).
  apply elem_of_sorted_items in Hitem'.
  assert (v' = v) as -> by congruence.
  assert (∃ x0, d !! x0 = Some v0) as [x0 Hx0].
  { unfold case_groups in Hgroup0.
    apply list_elem_of_In, in_flat_map in Hgroup0 as ([x0 v0'] & Hi & Hg).
    simpl in Hg. case_bool_decide; [done|]. destruct Hg as [[= _ <-]|[]].
    exists x0. by apply elem_of_sorted_items, list_elem_of_In. }
  exists v0, x0. by rewrite Hkey.
Qed.

(** ** [updateLocaleIdMappings] *)

Section UpdateLocaleIdMappingsFacts.

Variable data : SupplementalData.

(** The language switch runs the body of the replacement the dictionary
    holds; its [default:] clause is never reached. *)
Lemma update_language_spec (tag : Tag.t) :
  update_language data tag =
    Ok match languageMappings data !! Tag.language tag with
       | Some language' => Tag.set_language language' tag
       | None =>
           match complexLanguageMappings data !! Tag.language tag with
           | Some replacement => language_body replacement tag
           | None => tag
           end
       end.
Proof.
  unfold update_language.
  destruct (languageMappings data !! _) as [language'|]; [done|].
  destruct (complexLanguageMappings data !! _) as [replacement|] eqn:Hc.
  - rewrite bool_decide_eq_true_2 by eauto.
    destruct (select_case_groups id _ _ _ Hc) as (v0 & x0 & Hselect & _ & Hkey).
    unfold language_cases. rewrite Hselect. simpl in Hkey. by subst.
  - rewrite bool_decide_eq_false_2; [done|]. by intros [? [=]].
Qed.

Lemma hash_key_eq (entry0 entry : string * list Replacement) :
  hash_key entry0 = hash_key entry → entry0.1 = entry.1 ∧ entry0.2 ≡ₚ entry.2.
Proof.
  unfold hash_key. intros [= Hdefault Hsorted]. split; [done|].
  by rewrite <- (sorted_Permutation str_replacement entry0.2), Hsorted,
    sorted_Permutation.
Qed.

Lemma replacement_applies_language (tag : Tag.t) (v : Replacement) :
  replacement_applies tag v = true → v.1.1 = Tag.language tag.
Proof.
  destruct v as [[language [script|]] region]; simpl.
  - by intros [->%bool_decide_eq_true _]%andb_true_iff.
  - by intros ->%bool_decide_eq_true.
Qed.

Lemma region_body_spec (default : string) (replacements : list Replacement)
    (tag : Tag.t) :
  region_body default (sorted (fun v => v.1.1) replacements) tag
  = Tag.set_region (Some (first_replacement default replacements tag)) tag.
Proof.
  unfold region_body, first_replacement.
  rewrite (find_sorted _ _ (Tag.language tag))
    by apply replacement_applies_language.
  by destruct (List.find _ _) as [[[? ?] ?]|].
Qed.

(** The region step where no complex mapping applies. *)
Lemma update_region_simple (tag : Tag.t) :
  (∀ region, Tag.region tag = Some region →
             regionMappings data !! region = None →
             complexRegionMappings data !! region = None) →
  update_region data tag =
    Ok match Tag.region tag ≫= (regionMappings data !!.) with
       | Some region' => Tag.set_region (Some region') tag
       | None => tag
       end.
Proof.
  intros Hnone. unfold update_region.
  destruct (Tag.region tag) as [region|]; simpl; [|done].
  destruct (regionMappings data !! region) eqn:Hsimple; [done|].
  rewrite bool_decide_eq_false_2; [done|].
  rewrite (Hnone region) by done. by intros [? [=]].
Qed.

(** The region switch runs, for a key of the dictionary, the replacements
    of a region with the same default and the same replacements up to their
    order; its [default:] clause is never reached. *)
Lemma update_region_complex (tag : Tag.t) (region default : string)
    (replacements : list Replacement) :
  Tag.region tag = Some region →
  regionMappings data !! region = None →
  complexRegionMappings data !! region = Some (default, replacements) →
  ∃ region0 replacements0,
    complexRegionMappings data !! region0 = Some (default, replacements0)
    ∧ replacements0 ≡ₚ replacements
    ∧ update_region data tag
      = Ok (Tag.set_region
              (Some (first_replacement default replacements0 tag)) tag).
Proof.
  intros Hregion Hsimple Hc.
  unfold update_region. rewrite Hregion, Hsimple.
  rewrite bool_decide_eq_true_2 by eauto.
  destruct (select_case_groups hash_key _ _ _ Hc)
    as ([default0 replacements0] & region0 & Hselect & Hc0 & Hkey).
  apply hash_key_eq in Hkey as [Hdefault Hperm]. simpl in *. subst default0.
  exists region0, replacements0. split; [done|]. split; [done|].
  unfold region_cases.
  rewrite (select_case_fmap
             (fun e => (e.1, sorted (fun v : Replacement => v.1.1) e.2))),
    Hselect.
  simpl. by rewrite region_body_spec.
Qed.

Lemma overlapping_applies (tag : Tag.t) (v1 v2 : Replacement) :
  replacement_applies tag v1 = true → replacement_applies tag v2 = true →
  overlapping v1 v2 = true.
Proof.
  unfold overlapping.
  destruct v1 as [[language1 [script1|]] region1],
    v2 as [[language2 [script2|]] region2]; simpl;
    rewrite ?andb_true_iff, ?orb_true_iff, ?bool_decide_eq_true;
    intuition congruence.
Qed.

Lemma mutually_exclusive_region (replacements : list Replacement) (tag : Tag.t)
    (v1 v2 : Replacement) :
  mutually_exclusive replacements = true →
  v1 ∈ replacements → v2 ∈ replacements →
  replacement_applies tag v1 = true → replacement_applies tag v2 = true →
  v1.2 = v2.2.
Proof.
  unfold mutually_exclusive. rewrite forallb_forall.
  intros Hexcl Hin1%list_elem_of_In Hin2%list_elem_of_In H1 H2.
  specialize (Hexcl _ Hin1). rewrite forallb_forall in Hexcl.
  specialize (Hexcl _ Hin2).
  rewrite (overlapping_applies tag) in Hexcl by done.
  by apply bool_decide_eq_true in Hexcl.
Qed.

(** With replacements that exclude one another, their order does not
    matter. *)
Lemma first_replacement_Permutation (default : string)
    (replacements0 replacements : list Replacement) (tag : Tag.t) :
  replacements0 ≡ₚ replacements →
  mutually_exclusive replacements = true →
  first_replacement default replacements0 tag
  = first_replacement default replacements tag.
Proof.
  intros Hperm Hexcl. unfold first_replacement.
  destruct (List.find _ replacements0) as [v0|] eqn:H0;
    destruct (List.find _ replacements) as [v|] eqn:H1.
  - apply find_some in H0 as [Hin0 Ha0]. apply find_some in H1 as [Hin1 Ha1].
    apply (mutually_exclusive_region replacements tag); auto.
    + rewrite <- Hperm. by apply list_elem_of_In.
    + by apply list_elem_of_In.
  - apply find_some in H0 as [Hin0 Ha0].
    apply list_elem_of_In in Hin0. rewrite Hperm in Hin0.
    apply list_elem_of_In in Hin0.
    rewrite (find_none _ _ H1 _ Hin0) in Ha0. done.
  - apply find_some in H1 as [Hin1 Ha1].
    apply list_elem_of_In in Hin1. rewrite <- Hperm in Hin1.
    apply list_elem_of_In in Hin1.
    rewrite (find_none _ _ H0 _ Hin1) in Ha1. done.
  - done.
Qed.

Lemma truthy_Some (x : option string) :
  x ≠ Some EmptyString → truthy x = match x with Some _ => true | None => false end.
Proof.
  destruct x as [x|]; [|done]. intros Hne. simpl.
  destruct (String.eqb_spec x EmptyString); [congruence | done].
Qed.

(** The language step of [canonical] and that of the generated function
    agree on tags without empty subtags. *)
Lemma canonical_language_update (tag tag' : Tag.t) :
  Tag.script tag ≠ Some EmptyString →
  Tag.region tag ≠ Some EmptyString →
  update_language data tag = Ok tag' →
  canonical_language data (Tag.subtags tag) = Tag.subtags tag'.
Proof.
  intros Hs Hr. rewrite update_language_spec. intros [= <-].
  unfold canonical_language, Tag.subtags.
  destruct (languageMappings data !! _) as [language'|]; [done|].
  destruct (complexLanguageMappings data !! _)
    as [[[language2 script2] region2]|]; [|done].
  rewrite !truthy_Some by done.
  destruct tag as [language [script|] [region|] variants extensions privateuse],
    script2 as [script2|], region2 as [region2|]; done.
Qed.

(** The region steps agree where [canonical] does not stop. *)
Lemma canonical_region_update (tag : Tag.t) (result : LangTag) :
  canonical_region data (Tag.subtags tag) = Ok result →
  ∃ tag', update_region data tag = Ok tag' ∧ Tag.subtags tag' = result.
Proof.
  unfold canonical_region, Tag.subtags. intros Hcan.
  rewrite update_region_simple.
  - destruct (Tag.region tag ≫= _) as [region'|].
    + injection Hcan as <-. eauto.
    + destruct (py_in _ _); [done|]. injection Hcan as <-. eauto.
  - intros region Hregion Hsimple. rewrite Hregion in Hcan. simpl in Hcan.
    rewrite Hsimple in Hcan. case_bool_decide as Hin; [done|].
    by apply eq_None_not_Some.
Qed.

Lemma canonical_region_Raise (tag : LangTag) (e : exn) :
  canonical_region data tag = Raise e ↔
  e = AssertionError
  ∧ ∃ region, tag.2 = Some region
              ∧ regionMappings data !! region = None
              ∧ is_Some (complexRegionMappings data !! region).
Proof.
  destruct tag as [[language script] region]. unfold canonical_region. simpl.
  destruct region as [region|]; simpl.
  - destruct (regionMappings data !! region) eqn:Hsimple.
    + split; [done|]. intros (_ & ? & [= <-] & ? & _). congruence.
    + case_bool_decide as Hin.
      * split; [intros [= <-]; eauto|]. by intros [-> _].
      * split; [done|]. by intros (_ & ? & [= <-] & _ & ?).
  - split; [done|]. by intros (_ & ? & [=] & _).
Qed.

End UpdateLocaleIdMappingsFacts.

(** C7: for a tag whose region, after the language step, has no simple but
    a complex region mapping, [updateLocaleIdMappings] sets the region of
    the first replacement, in the order of the entry's list, whose language
    (and script, when it has one) is that of the tag, and the default region
    when there is none. The replacements are taken to exclude one another,
    as the data model has it, or else the table is taken to list replacements
    that agree up to their order in one order: the generator writes one body
    for the regions whose default and replacements agree up to the order. *)
Theorem updateLocaleIdMappings_complex_region (data : SupplementalData)
    (tag tag' : Tag.t) (region default : string)
    (replacements : list Replacement) :
  update_language data tag = Ok tag' →
  Tag.region tag' = Some region →
  regionMappings data !! region = None →
  complexRegionMappings data !! region = Some (default, replacements) →
  mutually_exclusive replacements = true
  ∨ listed_in_one_order data default replacements →
  updateLocaleIdMappings data tag =
    Ok (Tag.set_region
          (Some match List.find (replacement_applies tag') replacements with
                | Some (_, _, region') => region'
                | None => default
                end)
          tag').
Proof.
  intros Hlanguage Hregion Hsimple Hcomplex Horder.
  unfold updateLocaleIdMappings. rewrite Hlanguage, bind_Ok.
  destruct (update_region_complex data tag' _ _ _ Hregion Hsimple Hcomplex)
    as (region0 & replacements0 & Hentry & Hperm & ->).
  assert (first_replacement default replacements0 tag'
          = first_replacement default replacements tag') as ->.
  { destruct Horder as [Hexcl|Hone].
    - by apply first_replacement_Permutation.
    - by rewrite (Hone _ _ Hentry Hperm). }
  unfold first_replacement. by destruct (List.find _ _) as [[[? ?] ?]|].
Qed.

Lemma updateLocaleIdMappings_complex_region_witness :
  updateLocaleIdMappings Sample.cldr (Tag.mk "uz" None (Some "SU") [] [] None)
  = Ok (Tag.mk "uz" None (Some "UZ") [] [] None)
  ∧ updateLocaleIdMappings Sample.cldr (Tag.mk "ru" None (Some "SU") [] [] None)
    = Ok (Tag.mk "ru" None (Some "RU") [] [] None).
Proof.
  split.
  - rewrite (updateLocaleIdMappings_complex_region Sample.cldr
               (Tag.mk "uz" None (Some "SU") [] [] None)
               (Tag.mk "uz" None (Some "SU") [] [] None) "SU" "RU"
               [ ("hy", None, "AM"); ("uz", None, "UZ");
                 ("und", Some "Armn", "AM") ]);
      first [left; reflexivity | by_evaluation].
  - rewrite (updateLocaleIdMappings_complex_region Sample.cldr
               (Tag.mk "ru" None (Some "SU") [] [] None)
               (Tag.mk "ru" None (Some "SU") [] [] None) "SU" "RU"
               [ ("hy", None, "AM"); ("uz", None, "UZ");
                 ("und", Some "Armn", "AM") ]);
      first [left; reflexivity | by_evaluation].
Defined.

(** C10, as stated, fails: for a region with a complex mapping [canonical]
    stops on its assertion where the generated function replaces the
    region, and a complex language mapping sets the script of a tag that
    has none. *)
Lemma canonical_rejects_complex_region :
  canonical Sample.cldr ("uz", None, Some "SU") = Raise AssertionError
  ∧ updateLocaleIdMappings Sample.cldr (Tag.mk "uz" None (Some "SU") [] [] None)
    = Ok (Tag.mk "uz" None (Some "UZ") [] [] None)
  ∧ canonical Sample.cldr ("sh", None, None) = Ok ("sr", Some "Latn", None).
Proof. by_evaluation. Qed.

(** C10, amended: on a tuple without empty subtags, [canonical] applies the
    simple language, complex language and simple region mappings as the
    generated [updateLocaleIdMappings] does; it applies no complex region
    mapping but stops on an assertion exactly when the region left by the
    language step has a complex and no simple mapping; and the script is
    passed through unchanged unless it is absent and a complex language
    mapping supplies one. *)
Theorem canonical_as_updateLocaleIdMappings (data : SupplementalData)
    (tag : Tag.t) :
  Tag.script tag ≠ Some EmptyString →
  Tag.region tag ≠ Some EmptyString →
  (∀ result,
     canonical data (Tag.subtags tag) = Ok result →
     ∃ tag', updateLocaleIdMappings data tag = Ok tag'
             ∧ Tag.subtags tag' = result)
  ∧ (∀ e,
       canonical data (Tag.subtags tag) = Raise e ↔
       e = AssertionError
       ∧ ∃ tag' region,
           update_language data tag = Ok tag'
           ∧ Tag.region tag' = Some region
           ∧ regionMappings data !! region = None
           ∧ is_Some (complexRegionMappings data !! region))
  ∧ (∀ language script region,
       canonical data (Tag.subtags tag) = Ok (language, script, region) →
       script = Tag.script tag
       ∨ Tag.script tag = None
         ∧ languageMappings data !! Tag.language tag = None
         ∧ ∃ language2 region2,
             complexLanguageMappings data !! Tag.language tag
             = Some (language2, script, region2)).
Proof.
  intros Hs Hr.
  destruct (update_language data tag) as [tag1|e1] eqn:Hlanguage;
    [|by rewrite update_language_spec in Hlanguage].
  pose proof (canonical_language_update data tag tag1 Hs Hr Hlanguage) as Hstep.
  unfold canonical. rewrite Hstep. split; [|split].
  - intros result Hcan. unfold updateLocaleIdMappings.
    rewrite Hlanguage, bind_Ok. by apply canonical_region_update.
  - intros e. rewrite canonical_region_Raise. split.
    + intros [-> (region & Hregion & ? & ?)]. split; [done|].
      exists tag1, region. by repeat split.
    + intros [-> (tag' & region & [= <-] & Hregion & ? & ?)]. split; [done|].
      exists region. by repeat split.
  - intros language script region Hcan.
    assert (script = Tag.script tag1) as ->.
    { unfold canonical_region, Tag.subtags in Hcan.
      destruct (Tag.region tag1 ≫= _); [by injection Hcan|].
      destruct (py_in _ _); [done|]. by injection Hcan. }
    rewrite update_language_spec in Hlanguage. injection Hlanguage as <-.
    destruct (languageMappings data !! _) as [language'|]; [by left|].
    destruct (complexLanguageMappings data !! _)
      as [[[language2 script2] region2]|]; [|by left].
    destruct tag as [language0 [script0|] region0 variants extensions privateuse];
      simpl.
    + left. by destruct script2, region2, region0.
    + right. repeat split. exists language2, region2.
      by destruct script2, region2, region0.
Qed.

Lemma canonical_as_updateLocaleIdMappings_witness :
  canonical Sample.cldr ("sh", None, Some "DD") = Ok ("sr", Some "Latn", Some "DE")
  ∧ ∃ tag',
      updateLocaleIdMappings Sample.cldr
        (Tag.mk "sh" None (Some "DD") ["fonipa"] [] None) = Ok tag'
      ∧ Tag.subtags tag' = ("sr", Some "Latn", Some "DE").
Proof.
  split; [by_evaluation|].
  apply (canonical_as_updateLocaleIdMappings Sample.cldr
           (Tag.mk "sh" None (Some "DD") ["fonipa"] [] None));
    by_evaluation.
Defined.

(** ** [updateGrandfatheredMappings] *)

Lemma repeated_subtags_Forall (p : string → bool) (subtags run rest : list string) :
  repeated_subtags p subtags = (run, rest) → Forall (fun s => p s = true) run.
Proof.
  revert run rest. induction subtags as [|s subtags IH]; intros run rest; simpl.
  - intros [= <- _]. constructor.
  - destruct (p s) eqn:Hs.
    + destruct (repeated_subtags p subtags) as [run' rest'] eqn:Hrep.
      intros [= <- _]. constructor; [done|]. by eapply IH.
    + intros [= <- _]. constructor.
Qed.

(** The variants of a match have the shape of a variant subtag. *)
Lemma re_unicode_locale_id_variants (s : string) (m : LocaleIdMatch)
    (variants : list string) :
  re_unicode_locale_id s = Some m →
  group_variants m = Some variants →
  Forall (fun v => is_variant_subtag v = true) variants.
Proof.
  unfold re_unicode_locale_id.
  destruct (split_hyphen _) as [|language rest]; [done|].
  destruct (is_language_subtag language); [|done].
  destruct (optional_subtag is_script_subtag rest) as [script rest1].
  destruct (optional_subtag is_region_subtag rest1) as [region rest2].
  destruct (repeated_subtags is_variant_subtag rest2) as [run rest3] eqn:Hrep.
  apply repeated_subtags_Forall in Hrep.
  destruct rest3 as [|x privateuse].
  - intros [= <-]. simpl. destruct run; [done|]. by intros [= <-].
  - destruct (_ && _ && _); [|done].
    intros [= <-]. simpl. destruct run; [done|]. by intros [= <-].
Qed.

(** A branch is written for a key that matches the pattern with the tested
    language and the tested variant as its only variant. *)
Lemma grandfathered_branch_Ok (tag modern : string) (b : GrandfatheredBranch) :
  grandfathered_branch tag modern = Ok b →
  ∃ m, re_unicode_locale_id tag = Some m
       ∧ group_language m = tag_language b
       ∧ group_variants m = Some [tag_variant b].
Proof.
  unfold grandfathered_branch.
  destruct (re_unicode_locale_id tag) as [m|]; [|done].
  repeat (case_bool_decide; [done|]).
  destruct (group_variants m) as [variants|] eqn:Hvariants; [|done].
  case_bool_decide; [done|].
  destruct variants as [|variant [|? ?]]; [done| |done].
  destruct (re_unicode_locale_id modern) as [m'|]; [|done].
  intros [= <-]. exists m. by repeat split.
Qed.

Lemma grandfathered_branches_Ok (items : list (string * string))
    (branches : list GrandfatheredBranch) (b : GrandfatheredBranch) :
  grandfathered_branches items = Ok branches →
  b ∈ branches →
  ∃ tag modern, (tag, modern) ∈ items ∧ grandfathered_branch tag modern = Ok b.
Proof.
  revert branches. induction items as [|[tag modern] items IH]; intros branches.
  - intros [= <-] Hin. by apply elem_of_nil in Hin.
  - simpl. intros (b0 & Hb0 & Hrest)%bind_Ok_inv.
    apply bind_Ok_inv in Hrest as (bs & Hbs & [= <-]).
    intros [->|Hin]%elem_of_cons.
    + exists tag, modern. split; [by left | done].
    + destruct (IH _ Hbs Hin) as (tag' & modern' & ? & ?).
      exists tag', modern'. split; [by right | done].
Qed.

Lemma writeGrandfatheredMappingsFunction_Ok
    (grandfathered_mappings : gmap string string)
    (branches : list GrandfatheredBranch) (b : GrandfatheredBranch) :
  writeGrandfatheredMappingsFunction grandfathered_mappings = Ok branches →
  b ∈ branches →
  ∃ key modern m,
    grandfathered_mappings !! key = Some modern
    ∧ re_unicode_locale_id key = Some m
    ∧ group_language m = tag_language b
    ∧ group_variants m = Some [tag_variant b].
Proof.
  intros Hwrite Hin.
  destruct (grandfathered_branches_Ok _ _ _ Hwrite Hin)
    as (key & modern & Hitem & Hbranch).
  apply elem_of_sorted_items in Hitem.
  destruct (grandfathered_branch_Ok _ _ _ Hbranch) as (m & ? & ? & ?).
  by exists key, modern, m.
Qed.

Lemma not_grandfathered_shape_false (tag : Tag.t) :
  not_grandfathered_shape tag = false ↔
  Tag.script tag = None ∧ Tag.region tag = None
  ∧ (∃ variant, Tag.variants tag = [variant])
  ∧ Tag.extensions tag = [] ∧ Tag.privateuse tag = None.
Proof.
  unfold not_grandfathered_shape.
  rewrite !orb_false_iff, !bool_decide_eq_false.
  destruct tag as [language script region variants extensions privateuse]; simpl.
  split.
  - intros ((((Hs & Hr) & Hv) & He) & Hp).
    destruct script; [by destruct Hs|]. destruct region; [by destruct Hr|].
    destruct privateuse; [by destruct Hp|].
    destruct extensions; [|by destruct He].
    destruct variants as [|variant [|? ?]]; [by destruct Hv| |by destruct Hv].
    eauto 10.
  - intros (-> & -> & [variant ->] & -> & ->). simpl. intuition congruence.
Qed.

(** A tag the function changes has the shape of a grandfathered tag, and a
    branch was written for its language and variant. *)
Lemma updateGrandfatheredMappings_changed (branches : list GrandfatheredBranch)
    (tag : Tag.t) :
  updateGrandfatheredMappings branches tag ≠ tag →
  not_grandfathered_shape tag = false
  ∧ ∃ b, b ∈ branches ∧ branch_applies tag b = true
         ∧ updateGrandfatheredMappings branches tag = branch_body b tag.
Proof.
  unfold updateGrandfatheredMappings.
  destruct (not_grandfathered_shape tag); [done|].
  destruct (List.find _ branches) as [b|] eqn:Hfind; [|done].
  intros _. split; [done|]. apply find_some in Hfind as [Hin Happlies].
  exists b. split; [by apply list_elem_of_In | done].
Qed.

(** C8, as stated, fails: the generator stops on its assertion for a table
    with the key "no-bok", whose second subtag is no variant of a Unicode
    locale identifier; and the function written for the grandfathered tags that
    are such identifiers leaves language "no" with the variant "bok" as it
    is. *)
Lemma writeGrandfatheredMappingsFunction_no_bok :
  writeGrandfatheredMappingsFunction {[ "no-bok" := "nb" ]} = Raise AssertionError
  ∧ writeGrandfatheredMappingsFunction (grandfatheredMappings Sample.cldr)
    = Ok Sample.branches
  ∧ updateGrandfatheredMappings Sample.branches
      (Tag.mk "no" None None ["bok"] [] None)
    = Tag.mk "no" None None ["bok"] [] None.
Proof. by_evaluation. Qed.

(** C8, amended: the function written for a table changes a tag only when
    the tag has no script, no region, exactly one variant, no extensions and
    no private use, and its language and variant are those of a key of the
    table; a tag with language "no" and the single variant "bok" is left as
    it is whatever the table, since no key can have "bok" as its variant;
    and a tag with a non-empty extension list is left as it is. *)
Theorem updateGrandfatheredMappings_only (grandfathered_mappings : gmap string string)
    (branches : list GrandfatheredBranch) (tag : Tag.t) :
  writeGrandfatheredMappingsFunction grandfathered_mappings = Ok branches →
  (updateGrandfatheredMappings branches tag ≠ tag →
   Tag.script tag = None ∧ Tag.region tag = None
   ∧ Tag.extensions tag = [] ∧ Tag.privateuse tag = None
   ∧ ∃ variant key modern m,
       Tag.variants tag = [variant]
       ∧ grandfathered_mappings !! key = Some modern
       ∧ re_unicode_locale_id key = Some m
       ∧ group_language m = Tag.language tag
       ∧ group_variants m = Some [variant])
  ∧ (Tag.language tag = "no" → Tag.variants tag = ["bok"] →
     updateGrandfatheredMappings branches tag = tag)
  ∧ (Tag.extensions tag ≠ [] →
     updateGrandfatheredMappings branches tag = tag).
Proof.
  intros Hwrite.
  assert (Hchanged : updateGrandfatheredMappings branches tag ≠ tag →
            Tag.script tag = None ∧ Tag.region tag = None
            ∧ Tag.extensions tag = [] ∧ Tag.privateuse tag = None
            ∧ ∃ variant key modern m,
                Tag.variants tag = [variant]
                ∧ grandfathered_mappings !! key = Some modern
                ∧ re_unicode_locale_id key = Some m
                ∧ group_language m = Tag.language tag
                ∧ group_variants m = Some [variant]).
  { intros [Hshape (b & Hin & Happlies & _)]%updateGrandfatheredMappings_changed.
    apply not_grandfathered_shape_false in Hshape
      as (Hs & Hr & [variant Hv] & He & Hp).
    repeat (split; [done|]).
    destruct (writeGrandfatheredMappingsFunction_Ok _ _ _ Hwrite Hin)
      as (key & modern & m & Hkey & Hm & Hl & Hvs).
    apply andb_true_iff in Happlies as [Hal%bool_decide_eq_true Hav%bool_decide_eq_true].
    rewrite Hv in Hav. injection Hav as ->.
    exists (tag_variant b), key, modern, m. repeat split; congruence. }
  split; [done|]. split.
  - intros Hno Hbok.
    destruct (decide (updateGrandfatheredMappings branches tag = tag))
      as [|Hne]; [done|].
    destruct (Hchanged Hne)
      as (_ & _ & _ & _ & variant & key & modern & m & Hv & _ & Hm & _ & Hvs).
    rewrite Hbok in Hv. injection Hv as <-.
    pose proof (re_unicode_locale_id_variants _ _ _ Hm Hvs) as Hshape.
    apply Forall_cons in Hshape as [Hshape _]. done.
  - intros He.
    destruct (decide (updateGrandfatheredMappings branches tag = tag))
      as [|Hne]; [done|].
    by destruct (Hchanged Hne) as (_ & _ & ? & _).
Qed.

Lemma updateGrandfatheredMappings_only_witness :
  writeGrandfatheredMappingsFunction (grandfatheredMappings Sample.cldr)
  = Ok Sample.branches
  ∧ updateGrandfatheredMappings Sample.branches
      (Tag.mk "art" None None ["lojban"] [] None)
    = Tag.mk "jbo" None None [] [] None
  ∧ updateGrandfatheredMappings Sample.branches
      (Tag.mk "art" None None ["lojban"] ["u-ca-gregory"] None)
    = Tag.mk "art" None None ["lojban"] ["u-ca-gregory"] None.
Proof.
  split; [by_evaluation|]. split; [by_evaluation|].
  apply (updateGrandfatheredMappings_only (grandfatheredMappings Sample.cldr));
    by_evaluation.
Defined.

(** ** Idempotence of the canonicalization *)

Section CanonicalizeFacts.

Variable data : SupplementalData.

(** The language step leaves the tag alone, or sets a preferred language
    of one of the two language mappings. *)
Lemma update_language_cases (tag tag' : Tag.t) :
  update_language data tag = Ok tag' →
  (tag' = tag
   ∧ languageMappings data !! Tag.language tag = None
   ∧ complexLanguageMappings data !! Tag.language tag = None)
  ∨ (∃ k, languageMappings data !! k = Some (Tag.language tag'))
  ∨ (∃ k v, complexLanguageMappings data !! k = Some v
            ∧ v.1.1 = Tag.language tag').
Proof.
  rewrite update_language_spec. intros [= <-].
  destruct (languageMappings data !! _) as [language'|] eqn:Hl.
  - right. left. by exists (Tag.language tag).
  - destruct (complexLanguageMappings data !! _)
      as [[[language2 script2] region2]|] eqn:Hc; [|left; by repeat split].
    right. right. exists (Tag.language tag), (language2, script2, region2).
    split; [done|]. clear Hl Hc.
    destruct tag as [language [script|] [region|] variants extensions privateuse],
      script2, region2; done.
Qed.

(** Neither step removes a script or a region, nor touches the variants,
    the extensions or the private use. *)
Lemma update_language_keeps (tag tag' : Tag.t) :
  update_language data tag = Ok tag' →
  Tag.variants tag' = Tag.variants tag
  ∧ Tag.extensions tag' = Tag.extensions tag
  ∧ Tag.privateuse tag' = Tag.privateuse tag
  ∧ (Tag.script tag' = None → Tag.script tag = None)
  ∧ (Tag.region tag' = None → Tag.region tag = None).
Proof.
  rewrite update_language_spec. intros [= <-].
  destruct (languageMappings data !! _) as [language'|]; [done|].
  destruct (complexLanguageMappings data !! _)
    as [[[language2 script2] region2]|]; [|done].
  destruct tag as [language [script|] [region|] variants extensions privateuse],
    script2, region2; done.
Qed.

Lemma update_region_total (tag : Tag.t) :
  ∃ region', update_region data tag = Ok (Tag.set_region region' tag)
             ∧ (Tag.region tag = None ↔ region' = None).
Proof.
  destruct (Tag.region tag) as [region|] eqn:Hregion.
  - destruct (regionMappings data !! region) as [region'|] eqn:Hsimple.
    + exists (Some region'). unfold update_region. by rewrite Hregion, Hsimple.
    + destruct (complexRegionMappings data !! region)
        as [[default replacements]|] eqn:Hcomplex.
      * destruct (update_region_complex data tag _ _ _ Hregion Hsimple Hcomplex)
          as (region0 & replacements0 & _ & _ & ->).
        by eexists.
      * exists (Some region). rewrite update_region_simple.
        -- rewrite Hregion. simpl. rewrite Hsimple. split; [|done].
           f_equal. destruct tag; simpl in *. by subst.
        -- intros r. rewrite Hregion. by intros [= <-].
  - exists None. unfold update_region. rewrite Hregion. split; [|done].
    f_equal. destruct tag; simpl in *. by subst.
Qed.

Lemma updateLocaleIdMappings_Ok (tag : Tag.t) :
  ∃ tag1 region',
    update_language data tag = Ok tag1
    ∧ updateLocaleIdMappings data tag = Ok (Tag.set_region region' tag1)
    ∧ update_region data tag1 = Ok (Tag.set_region region' tag1)
    ∧ (Tag.region tag1 = None ↔ region' = None).
Proof.
  destruct (update_language data tag) as [tag1|e] eqn:Hlanguage;
    [|by rewrite update_language_spec in Hlanguage].
  destruct (update_region_total tag1) as (region' & Hregion & Hnone).
  exists tag1, region'. unfold updateLocaleIdMappings.
  by rewrite Hlanguage, bind_Ok.
Qed.

Lemma update_language_final (tag tag' : Tag.t) :
  preferred_languages_final data →
  update_language data tag = Ok tag' →
  no_language_mapping data (Tag.language tag') = true.
Proof.
  intros [Hsimple Hcomplex] [(-> & ? & ?)|[[k Hk]|(k & v & Hk & <-)]]%update_language_cases.
  - by apply no_language_mapping_true.
  - by apply (Hsimple _ _ Hk).
  - by apply (Hcomplex _ _ Hk).
Qed.

Lemma first_replacement_elem (default : string) (replacements : list Replacement)
    (tag : Tag.t) :
  first_replacement default replacements tag = default
  ∨ ∃ v, v ∈ replacements ∧ first_replacement default replacements tag = v.2.
Proof.
  unfold first_replacement.
  destruct (List.find _ replacements) as [v|] eqn:Hfind; [|by left].
  right. exists v. split; [|done]. apply find_some in Hfind as [Hin _].
  by apply list_elem_of_In.
Qed.

Lemma update_region_final (tag tag' : Tag.t) (region' : string) :
  preferred_regions_final data →
  complex_regions_final data →
  update_region data tag = Ok tag' →
  Tag.region tag' = Some region' →
  no_region_mapping data region' = true.
Proof.
  intros Hsimples Hcomplexes.
  destruct (Tag.region tag) as [region|] eqn:Hregion.
  - destruct (regionMappings data !! region) as [region1|] eqn:Hsimple.
    + unfold update_region. rewrite Hregion, Hsimple.
      intros [= <-] [= <-]. by apply (Hsimples _ _ Hsimple).
    + destruct (complexRegionMappings data !! region)
        as [[default replacements]|] eqn:Hcomplex.
      * destruct (update_region_complex data tag _ _ _ Hregion Hsimple Hcomplex)
          as (region0 & replacements0 & Hentry & _ & ->).
        intros [= <-] [= <-].
        pose proof (Hcomplexes _ _ Hentry) as Hfinal. simpl in Hfinal.
        apply andb_true_iff in Hfinal as [Hdefault Hall].
        rewrite forallb_forall in Hall.
        destruct (first_replacement_elem default replacements0 tag)
          as [->|(v & Hin & ->)]; [done|].
        by apply Hall, list_elem_of_In.
      * rewrite update_region_simple.
        -- rewrite Hregion. simpl. rewrite Hsimple. intros [= <-].
           rewrite Hregion. intros [= <-]. by apply no_region_mapping_true.
        -- intros r. rewrite Hregion. by intros [= <-].
  - unfold update_region. rewrite Hregion. intros [= <-]. by rewrite Hregion.
Qed.

(** A tag without a deprecated language or region is left alone. *)
Lemma updateLocaleIdMappings_fixed (tag : Tag.t) :
  no_language_mapping data (Tag.language tag) = true →
  (∀ region, Tag.region tag = Some region →
             no_region_mapping data region = true) →
  updateLocaleIdMappings data tag = Ok tag.
Proof.
  intros [Hl Hc]%no_language_mapping_true Hregion.
  unfold updateLocaleIdMappings. rewrite update_language_spec, Hl, Hc, bind_Ok.
  rewrite update_region_simple.
  - destruct (Tag.region tag) as [region|] eqn:Hr; simpl; [|done].
    by destruct (proj1 (no_region_mapping_true _ _) (Hregion _ eq_refl)) as [-> _].
  - intros region Hr _.
    by destruct (proj1 (no_region_mapping_true _ _) (Hregion _ Hr)) as [_ ->].
Qed.

Lemma updateLocaleIdMappings_again (tag tag' : Tag.t) :
  preferred_languages_final data →
  preferred_regions_final data →
  complex_regions_final data →
  updateLocaleIdMappings data tag = Ok tag' →
  updateLocaleIdMappings data tag' = Ok tag'.
Proof.
  intros Hlanguages Hsimples Hcomplexes Hupdate.
  destruct (updateLocaleIdMappings_Ok tag)
    as (tag1 & region' & Hlanguage & Hupdate' & Hregion & _).
  assert (tag' = Tag.set_region region' tag1) as -> by congruence.
  apply updateLocaleIdMappings_fixed.
  - simpl. by apply (update_language_final tag).
  - intros region. by apply (update_region_final tag1).
Qed.

Lemma branch_applies_tag (tag : Tag.t) (b : GrandfatheredBranch) :
  not_grandfathered_shape tag = false →
  branch_applies tag b = true →
  tag = branch_tag b.
Proof.
  intros (Hs & Hr & [variant Hv] & He & Hp)%not_grandfathered_shape_false.
  intros [Hl%bool_decide_eq_true Hb%bool_decide_eq_true]%andb_true_iff.
  rewrite Hv in Hb. injection Hb as ->.
  unfold branch_tag. destruct tag; simpl in *. by subst.
Qed.

Lemma grandfathered_branch_of_Some (branches : list GrandfatheredBranch)
    (tag : Tag.t) (b : GrandfatheredBranch) :
  grandfathered_branch_of branches tag = Some b →
  b ∈ branches
  ∧ tag = branch_tag b
  ∧ updateGrandfatheredMappings branches tag = branch_body b (branch_tag b).
Proof.
  unfold grandfathered_branch_of, updateGrandfatheredMappings.
  destruct (not_grandfathered_shape tag) eqn:Hshape; [done|].
  intros Hfind. rewrite Hfind.
  apply find_some in Hfind as [Hin Happlies].
  pose proof (branch_applies_tag _ _ Hshape Happlies) as Htag.
  split; [by apply list_elem_of_In|]. split; [done|]. by rewrite <- Htag.
Qed.

Lemma branch_body_region (b : GrandfatheredBranch) :
  Tag.language (branch_body b (branch_tag b)) = modern_language b
  ∧ Tag.region (branch_body b (branch_tag b)) = modern_region b.
Proof.
  unfold branch_body, branch_tag.
  by destruct (modern_script b), (modern_region b), (modern_variants b),
    (modern_privateuse b).
Qed.

(** A tag the grandfathered check rewrites: the result is the replacement
    the branch writes. *)
Lemma canonicalize_grandfathered (branches : list GrandfatheredBranch)
    (tag : Tag.t) (b : GrandfatheredBranch) :
  grandfathered_branch_of branches tag = Some b →
  canonicalize data branches tag = Ok (branch_body b (branch_tag b)).
Proof.
  intros Hbranch. unfold canonicalize. rewrite Hbranch. cbv zeta.
  destruct (grandfathered_branch_of_Some _ _ _ Hbranch) as (_ & _ & ->).
  destruct (modern_region b) eqn:Hregion; [done|].
  unfold update_region.
  destruct (branch_body_region b) as [_ ->]. by rewrite Hregion.
Qed.

(** Canonicalizing the replacement of a grandfathered tag, when it is
    final. *)
Lemma canonicalize_replacement (branches : list GrandfatheredBranch)
    (b : GrandfatheredBranch) :
  grandfathered_replacements_final data branches = true →
  b ∈ branches →
  canonicalize data branches (branch_body b (branch_tag b))
  = Ok (branch_body b (branch_tag b)).
Proof.
  unfold grandfathered_replacements_final. rewrite forallb_forall.
  intros Hfinal Hin%list_elem_of_In. specialize (Hfinal _ Hin).
  cbv zeta in Hfinal.
  apply andb_true_iff in Hfinal as [Hfinal Hbranch].
  apply andb_true_iff in Hfinal as [Hlanguage Hregion].
  unfold canonicalize.
  destruct (grandfathered_branch_of branches _); [done|].
  apply updateLocaleIdMappings_fixed; [done|].
  intros region Heq. by rewrite Heq in Hregion.
Qed.

(** A tag the grandfathered check does not rewrite is not rewritten by it
    after the language and region canonicalization either, when no preferred
    language is the language of a grandfathered tag. *)
Lemma grandfathered_branch_of_canonical (branches : list GrandfatheredBranch)
    (tag tag' : Tag.t) :
  grandfathered_languages_apart data branches →
  grandfathered_branch_of branches tag = None →
  updateLocaleIdMappings data tag = Ok tag' →
  grandfathered_branch_of branches tag' = None.
Proof.
  intros [Hsimple Hcomplex] Hnone Hupdate.
  destruct (grandfathered_branch_of branches tag') as [b|] eqn:Hbranch; [|done].
  exfalso. unfold grandfathered_branch_of in Hnone, Hbranch.
  destruct (not_grandfathered_shape tag') eqn:Hshape'; [done|].
  apply find_some in Hbranch as [Hin Happlies].
  destruct (updateLocaleIdMappings_Ok tag)
    as (tag1 & region' & Hlanguage & Hupdate' & _ & Hregion).
  assert (tag' = Tag.set_region region' tag1) as Htag' by congruence.
  destruct (update_language_keeps _ _ Hlanguage) as (Kv & Ke & Kp & Ks & Kr).
  apply not_grandfathered_shape_false in Hshape' as Hfields.
  rewrite Htag' in Hfields. simpl in Hfields.
  destruct Hfields as (Fs & Fr & Fv & Fe & Fp).
  apply Hregion in Fr as Fr1.
  assert (not_grandfathered_shape tag = false) as Hshape.
  { apply not_grandfathered_shape_false. rewrite <- Kv, <- Ke, <- Kp. auto. }
  rewrite Hshape in Hnone.
  assert (tag_language b = Tag.language tag1) as Hb.
  { apply andb_true_iff in Happlies as [Hl%bool_decide_eq_true _].
    by rewrite Htag' in Hl. }
  destruct (update_language_cases _ _ Hlanguage)
    as [(-> & _ & _)|[[k Hk]|(k & v & Hk & Hv)]].
  - assert (tag' = tag) as ->.
    { rewrite Htag', Fr. destruct tag; simpl in *. by subst. }
    by rewrite (find_none _ _ Hnone _ Hin) in Happlies.
  - pose proof (Hsimple _ _ Hk) as Hfresh.
    unfold not_grandfathered_language in Hfresh.
    rewrite forallb_forall in Hfresh.
    by apply Hfresh, bool_decide_eq_true in Hin.
  - pose proof (Hcomplex _ _ Hk) as Hfresh. simpl in Hfresh.
    rewrite Hv in Hfresh.
    unfold not_grandfathered_language in Hfresh.
    rewrite forallb_forall in Hfresh.
    by apply Hfresh, bool_decide_eq_true in Hin.
Qed.

End CanonicalizeFacts.

(** C6, as stated, fails: with the aliases from "zho" and "cmn" to "zh" and
    the grandfathered tag "zh-guoyu", the tag "zho-guoyu" canonicalizes to
    "zh-guoyu" (the grandfathered check ran before the language was
    replaced), "zh-guoyu" canonicalizes to "cmn" (the language the check
    wrote is not canonicalized further), and "cmn" canonicalizes to "zh". *)
Lemma canonicalize_not_idempotent :
  writeGrandfatheredMappingsFunction (grandfatheredMappings Sample.chinese)
  = Ok Sample.chinese_branches
  ∧ canonicalize Sample.chinese Sample.chinese_branches
      (Tag.mk "zho" None None ["guoyu"] [] None)
    = Ok (Tag.mk "zh" None None ["guoyu"] [] None)
  ∧ canonicalize Sample.chinese Sample.chinese_branches
      (Tag.mk "zh" None None ["guoyu"] [] None)
    = Ok (Tag.mk "cmn" None None [] [] None)
  ∧ canonicalize Sample.chinese Sample.chinese_branches
      (Tag.mk "cmn" None None [] [] None)
    = Ok (Tag.mk "zh" None None [] [] None).
Proof. by_evaluation. Qed.

(** C6, amended: canonicalization succeeds on every tag, and canonicalizing
    its result again changes nothing, provided the preferred languages and
    regions of the four mappings are not themselves deprecated, no preferred
    language is the language of a grandfathered tag, and the replacement of
    each grandfathered tag is final: its language and its region are not
    deprecated, and it is not itself rewritten by the grandfathered
    rule. *)
Theorem canonicalize_idempotent (data : SupplementalData)
    (branches : list GrandfatheredBranch) (tag : Tag.t) :
  writeGrandfatheredMappingsFunction (grandfatheredMappings data) = Ok branches →
  preferred_languages_final data →
  preferred_regions_final data →
  complex_regions_final data →
  grandfathered_languages_apart data branches →
  grandfathered_replacements_final data branches = true →
  ∃ tag', canonicalize data branches tag = Ok tag'
          ∧ canonicalize data branches tag' = Ok tag'.
Proof.
  intros _ Hlanguages Hsimples Hcomplexes Hapart Hfinal.
  destruct (grandfathered_branch_of branches tag) as [b|] eqn:Hbranch.
  - exists (branch_body b (branch_tag b)).
    split; [by apply canonicalize_grandfathered|].
    apply canonicalize_replacement; [done|].
    by destruct (grandfathered_branch_of_Some _ _ _ Hbranch).
  - destruct (updateLocaleIdMappings_Ok data tag)
      as (tag1 & region' & _ & Hupdate & _).
    exists (Tag.set_region region' tag1).
    unfold canonicalize. rewrite Hbranch. split; [done|].
    rewrite (grandfathered_branch_of_canonical data branches tag) by done.
    by eapply updateLocaleIdMappings_again.
Qed.

Lemma canonicalize_idempotent_witness :
  (canonicalize Sample.cldr Sample.branches
     (Tag.mk "art" None None ["lojban"] [] None)
   = Ok (Tag.mk "jbo" None None [] [] None)
   ∧ canonicalize Sample.cldr Sample.branches
       (Tag.mk "jbo" None None [] [] None)
     = Ok (Tag.mk "jbo" None None [] [] None))
  ∧ (canonicalize Sample.cldr Sample.branches
       (Tag.mk "sh" None (Some "SU") ["fonipa"] ["u-ca-gregory"] None)
     = Ok (Tag.mk "sr" (Some "Latn") (Some "RU") ["fonipa"] ["u-ca-gregory"]
             None)
     ∧ canonicalize Sample.cldr Sample.branches
         (Tag.mk "sr" (Some "Latn") (Some "RU") ["fonipa"] ["u-ca-gregory"]
            None)
       = Ok (Tag.mk "sr" (Some "Latn") (Some "RU") ["fonipa"]
               ["u-ca-gregory"] None)).
Proof.
  split.
  - destruct (canonicalize_idempotent Sample.cldr Sample.branches
                (Tag.mk "art" None None ["lojban"] [] None))
      as (tag' & Hcan & Hagain); [by_evaluation ..|].
    assert (canonicalize Sample.cldr Sample.branches
              (Tag.mk "art" None None ["lojban"] [] None)
            = Ok (Tag.mk "jbo" None None [] [] None)) as Hvalue
      by by_evaluation.
    rewrite Hvalue in Hcan. injection Hcan as <-. by split.
  - destruct (canonicalize_idempotent Sample.cldr Sample.branches
                (Tag.mk "sh" None (Some "SU") ["fonipa"] ["u-ca-gregory"] None))
      as (tag' & Hcan & Hagain); [by_evaluation ..|].
    assert (canonicalize Sample.cldr Sample.branches
              (Tag.mk "sh" None (Some "SU") ["fonipa"] ["u-ca-gregory"] None)
            = Ok (Tag.mk "sr" (Some "Latn") (Some "RU") ["fonipa"]
                    ["u-ca-gregory"] None)) as Hvalue by by_evaluation.
    rewrite Hvalue in Hcan. injection Hcan as <-. by split.
Defined.

(** * Further properties of the generated functions *)

(** X1: the [default:] clauses of the two generated switches, which assert
    [false], are never reached: the switches have a [case] for every key of
    the complex mappings, and [updateLocaleIdMappings] returns for every
    tag and every table. *)
Theorem updateLocaleIdMappings_returns (data : SupplementalData) (tag : Tag.t) :
  ∃ tag', updateLocaleIdMappings data tag = Ok tag'.
Proof.
  destruct (updateLocaleIdMappings_Ok data tag) as (tag1 & region' & _ & -> & _).
  eauto.
Qed.

Lemma update_language_script (data : SupplementalData) (tag tag' : Tag.t)
    (script : string) :
  update_language data tag = Ok tag' →
  Tag.script tag = Some script → Tag.script tag' = Some script.
Proof.
  rewrite update_language_spec. intros [= <-].
  destruct (languageMappings data !! _) as [language'|]; [done|].
  destruct (complexLanguageMappings data !! _)
    as [[[language2 script2] region2]|]; [|done].
  destruct tag as [language [script0|] [region|] variants extensions privateuse],
    script2, region2; done.
Qed.

(** X2: [updateLocaleIdMappings] leaves the variants, the extensions and
    the private use of a tag as they are, never changes a script that is
    present, and never removes a region. *)
Theorem updateLocaleIdMappings_keeps (data : SupplementalData) (tag tag' : Tag.t) :
  updateLocaleIdMappings data tag = Ok tag' →
  Tag.variants tag' = Tag.variants tag
  ∧ Tag.extensions tag' = Tag.extensions tag
  ∧ Tag.privateuse tag' = Tag.privateuse tag
  ∧ (∀ script, Tag.script tag = Some script → Tag.script tag' = Some script)
  ∧ (is_Some (Tag.region tag) → is_Some (Tag.region tag')).
Proof.
  intros Hupdate.
  destruct (updateLocaleIdMappings_Ok data tag)
    as (tag1 & region' & Hlanguage & Hupdate' & _ & Hnone).
  assert (tag' = Tag.set_region region' tag1) as -> by congruence.
  destruct (update_language_keeps _ _ _ Hlanguage) as (Kv & Ke & Kp & _ & Kr).
  simpl. repeat split; try done.
  - intros script. by apply (update_language_script data tag).
  - intros [region Hregion]. destruct region' as [r|]; [by eexists|].
    rewrite Kr in Hregion; [done|]. by apply Hnone.
Qed.

Lemma updateLocaleIdMappings_keeps_witness :
  updateLocaleIdMappings Sample.cldr
    (Tag.mk "cnr" (Some "Cyrl") (Some "SU") ["fonipa"] ["u-nu-latn"] (Some "x-a"))
  = Ok (Tag.mk "sr" (Some "Cyrl") (Some "RU") ["fonipa"] ["u-nu-latn"] (Some "x-a"))
  ∧ Tag.variants
      (Tag.mk "sr" (Some "Cyrl") (Some "RU") ["fonipa"] ["u-nu-latn"] (Some "x-a"))
    = ["fonipa"].
Proof.
  split; [by_evaluation|].
  apply (updateLocaleIdMappings_keeps Sample.cldr
           (Tag.mk "cnr" (Some "Cyrl") (Some "SU") ["fonipa"] ["u-nu-latn"]
              (Some "x-a"))).
  by_evaluation.
Defined.

(** X3: merging the languages with equal replacements into one group of
    [case] labels does not change what the switch does: for a language with
    a complex and no simple mapping the language step sets the preferred
    language, and sets the script and the region of the mapping only where
    the tag has none. *)
Theorem update_language_complex (data : SupplementalData) (tag : Tag.t)
    (language2 : string) (script2 region2 : option string) :
  languageMappings data !! Tag.language tag = None →
  complexLanguageMappings data !! Tag.language tag
  = Some (language2, script2, region2) →
  update_language data tag =
    Ok (Tag.mk language2
          (match Tag.script tag with Some s => Some s | None => script2 end)
          (match Tag.region tag with Some r => Some r | None => region2 end)
          (Tag.variants tag) (Tag.extensions tag) (Tag.privateuse tag)).
Proof.
  intros Hsimple Hcomplex. rewrite update_language_spec, Hsimple, Hcomplex.
  f_equal.
  destruct tag as [language [script|] [region|] variants extensions privateuse],
    script2, region2; done.
Qed.

Lemma update_language_complex_witness :
  update_language Sample.cldr (Tag.mk "sh" None (Some "BA") [] [] None)
  = Ok (Tag.mk "sr" (Some "Latn") (Some "BA") [] [] None)
  ∧ update_language Sample.cldr (Tag.mk "cnr" None (Some "BA") [] [] None)
    = Ok (Tag.mk "sr" None (Some "BA") [] [] None).
Proof.
  split.
  - apply (update_language_complex Sample.cldr
             (Tag.mk "sh" None (Some "BA") [] [] None) "sr" (Some "Latn") None);
      by_evaluation.
  - apply (update_language_complex Sample.cldr
             (Tag.mk "cnr" None (Some "BA") [] [] None) "sr" None (Some "ME"));
      by_evaluation.
Defined.

(** X4: whatever the table, for a region with a complex and no simple
    mapping the region step sets the default region of the entry when the
    test of none of its replacements holds for the tag, and otherwise the
    region of one of its replacements whose test holds. *)
Theorem update_region_within_entry (data : SupplementalData) (tag : Tag.t)
    (region default : string) (replacements : list Replacement) :
  Tag.region tag = Some region →
  regionMappings data !! region = None →
  complexRegionMappings data !! region = Some (default, replacements) →
  ∃ region',
    update_region data tag = Ok (Tag.set_region (Some region') tag)
    ∧ (region' = default
       ∧ (∀ v, v ∈ replacements → replacement_applies tag v = false)
       ∨ ∃ v, v ∈ replacements ∧ replacement_applies tag v = true
              ∧ v.2 = region').
Proof.
  intros Hregion Hsimple Hcomplex.
  destruct (update_region_complex data tag _ _ _ Hregion Hsimple Hcomplex)
    as (region0 & replacements0 & _ & Hperm & ->).
  eexists. split; [done|]. unfold first_replacement.
  destruct (List.find _ replacements0) as [v|] eqn:Hfind.
  - right. apply find_some in Hfind as [Hin Happlies]. exists v.
    split; [|done]. rewrite <- Hperm. by apply list_elem_of_In.
  - left. split; [done|]. intros v Hin. rewrite <- Hperm in Hin.
    by apply (find_none _ _ Hfind), list_elem_of_In.
Qed.

Lemma update_region_within_entry_witness :
  ∃ region',
    update_region Sample.cldr (Tag.mk "und" (Some "Armn") (Some "SU") [] [] None)
    = Ok (Tag.set_region (Some region')
            (Tag.mk "und" (Some "Armn") (Some "SU") [] [] None))
    ∧ (region' = "RU"
       ∧ (∀ v, v ∈ [ ("hy", None, "AM"); ("uz", None, "UZ");
                     ("und", Some "Armn", "AM") ] →
               replacement_applies
                 (Tag.mk "und" (Some "Armn") (Some "SU") [] [] None) v = false)
       ∨ ∃ v, v ∈ [ ("hy", None, "AM"); ("uz", None, "UZ");
                    ("und", Some "Armn", "AM") ]
              ∧ replacement_applies
                  (Tag.mk "und" (Some "Armn") (Some "SU") [] [] None) v = true
              ∧ v.2 = region').
Proof.
  apply (update_region_within_entry Sample.cldr
           (Tag.mk "und" (Some "Armn") (Some "SU") [] [] None) "SU" "RU");
    by_evaluation.
Defined.

(** * Further properties of the likely-subtags helpers *)

Lemma find_match_trial (data : SupplementalData) (max : LangTag)
    (trials : list LangTag) (result : LangTag) :
  find_match data max trials = Ok result →
  result = max ∨ result ∈ trials ∧ addLikelySubtags data result = Ok max.
Proof.
  induction trials as [|trial trials IH]; simpl.
  - intros [= <-]. by left.
  - intros (m & Hm & Hrest)%bind_Ok_inv.
    destruct (decide (m = max)) as [->|Hne].
    + injection Hrest as <-. right. split; [by left | done].
    + destruct (IH Hrest) as [->|[Hin Hadd]]; [by left|].
      right. split; [by right | done].
Qed.

(** X5: whatever the tables, a result of [removeLikelySubtags] other than
    the maximized tuple itself is the maximized tuple without its script,
    without its region or without both, and [addLikelySubtags] gives the
    maximized tuple back for it. *)
Theorem removeLikelySubtags_result (data : SupplementalData) (tag min : LangTag) :
  removeLikelySubtags data tag = Ok min →
  ∃ language script region,
    addLikelySubtags data tag = Ok (language, script, region)
    ∧ (min = (language, script, region)
       ∨ addLikelySubtags data min = Ok (language, script, region)
         ∧ (min = (language, None, None) ∨ min = (language, None, region)
            ∨ min = (language, script, None))).
Proof.
  unfold removeLikelySubtags.
  intros ([[language script] region] & Hmax & Hmatch)%bind_Ok_inv.
  exists language, script, region. split; [done|].
  apply find_match_trial in Hmatch as [->|[Hin Hadd]]; [by left|].
  right. split; [done|].
  rewrite !elem_of_cons, elem_of_nil in Hin. tauto.
Qed.

Lemma removeLikelySubtags_result_witness :
  removeLikelySubtags Sample.cldr ("zh", Some "Hant", Some "TW")
  = Ok ("zh", None, Some "TW")
  ∧ addLikelySubtags Sample.cldr ("zh", None, Some "TW")
    = Ok ("zh", Some "Hant", Some "TW").
Proof.
  split; [by_evaluation|].
  destruct (removeLikelySubtags_result Sample.cldr
              ("zh", Some "Hant", Some "TW") ("zh", None, Some "TW")
              ltac:(by_evaluation))
    as (language & script & region & Hmax & [Heq|[Hadd _]]);
    vm_compute in Hmax; injection Hmax as <- <- <-.
  - discriminate Heq.
  - exact Hadd.
Defined.

Lemma drop_placeholder_again (placeholder : string) (x : option string) :
  drop_placeholder placeholder (drop_placeholder placeholder x)
  = drop_placeholder placeholder x.
Proof.
  unfold drop_placeholder.
  destruct (decide (x = Some placeholder)) as [->|Hne].
  - by destruct (decide (None = Some placeholder)).
  - by destruct (decide (x = Some placeholder)).
Qed.

(** The region step of [canonical] does not look at the script. *)
Lemma canonical_region_script (data : SupplementalData) (language : string)
    (script region : option string) :
  canonical_region data (language, script, region) =
    match canonical_region data (language, None, region) with
    | Ok (language', _, region') => Ok (language', script, region')
    | Raise e => Raise e
    end.
Proof.
  unfold canonical_region. destruct (region ≫= _); [done|].
  by destruct (py_in _ _).
Qed.

(** X6: for a language without a complex mapping (or with a simple one),
    and tables in which "ZZ" is no deprecated region, a script "Zzzz" and a
    region "ZZ" in the input of [addLikelySubtags] are the same as an absent
    script and an absent region. *)
Theorem addLikelySubtags_placeholders (data : SupplementalData)
    (language : string) (script region : option string) :
  is_Some (languageMappings data !! language)
  ∨ complexLanguageMappings data !! language = None →
  regionMappings data !! "ZZ" = None →
  complexRegionMappings data !! "ZZ" = None →
  addLikelySubtags data (language, script, region)
  = addLikelySubtags data
      (language, drop_placeholder "Zzzz" script, drop_placeholder "ZZ" region).
Proof.
  intros Hlanguage Hsimple Hcomplex.
  set (l' := match languageMappings data !! language with
             | Some language' => language'
             | None => language
             end).
  assert (Hstep : ∀ s r, canonical_language data (language, s, r) = (l', s, r)).
  { intros s r. unfold canonical_language, l'.
    destruct (languageMappings data !! language) as [language'|] eqn:Hl; [done|].
    by destruct Hlanguage as [[? [=]]| ->]. }
  pose (lookup := fun (l : string) (s r : option string) =>
    search ← next_search data (searches l s r);
    let '(language_s, script_s, region_s) := search in
    match likelySubtags data !! search with
    | None => Raise KeyError
    | Some (language_m, script_m, region_m) =>
        Ok (if decide (l ≠ language_s) then l else language_m,
            if decide (s ≠ script_s) then s else script_m,
            if decide (r ≠ region_s) then r else region_m)
    end).
  assert (Hadd : ∀ tag, addLikelySubtags data tag =
            canonical data tag ≫= fun '(l, s, r) =>
              lookup l (drop_placeholder "Zzzz" s) (drop_placeholder "ZZ" r))
    by reflexivity.
  rewrite !Hadd. clearbody lookup. unfold canonical. rewrite !Hstep.
  assert (Hzz : ∀ s, canonical_region data (l', s, Some "ZZ")
                     = Ok (l', s, Some "ZZ")).
  { intros s. unfold canonical_region. simpl. rewrite Hsimple.
    rewrite bool_decide_eq_false_2; [done|]. rewrite Hcomplex. by intros [? [=]]. }
  destruct (decide (region = Some "ZZ")) as [->|Hne].
  - assert (drop_placeholder "ZZ" (Some "ZZ") = None) as -> by reflexivity.
    assert (∀ s, canonical_region data (l', s, None) = Ok (l', s, None)) as ->
      by reflexivity.
    rewrite Hzz, !bind_Ok. by rewrite drop_placeholder_again.
  - assert (drop_placeholder "ZZ" region = region) as ->
      by (unfold drop_placeholder; by destruct (decide _)).
    rewrite (canonical_region_script data l' script),
      (canonical_region_script data l' (drop_placeholder "Zzzz" script)).
    destruct (canonical_region data (l', None, region))
      as [[[language0 script0] region0]|e]; [|done].
    rewrite !bind_Ok. by rewrite drop_placeholder_again.
Qed.

Lemma addLikelySubtags_placeholders_witness :
  addLikelySubtags Sample.cldr ("zh", Some "Zzzz", Some "TW")
  = addLikelySubtags Sample.cldr ("zh", None, Some "TW")
  ∧ addLikelySubtags Sample.cldr ("sh", Some "Zzzz", None)
    ≠ addLikelySubtags Sample.cldr ("sh", None, None).
Proof.
  split; [|by_evaluation].
  apply (addLikelySubtags_placeholders Sample.cldr "zh" (Some "Zzzz") (Some "TW"));
    first [right; by_evaluation | by_evaluation].
Defined.

(** * Further properties of [re_unicode_locale_id] *)

Lemma split_hyphen_not_nil (s : string) : split_hyphen s ≠ [].
Proof.
  destruct s as [|c s]; simpl; [done|].
  destruct (Ascii.eqb c "-"); [done|].
  by destruct (split_hyphen s).
Qed.

Lemma join_hyphen_cons (w : string) (ws : list string) :
  ws ≠ [] → join_hyphen (w :: ws) = (w ++ "-" ++ join_hyphen ws)%string.
Proof. by destruct ws. Qed.

Lemma join_hyphen_split_hyphen (s : string) : join_hyphen (split_hyphen s) = s.
Proof.
  induction s as [|c s IH]; [done|].
  cbn [split_hyphen].
  destruct (Ascii.eqb_spec c "-") as [->|_].
  - rewrite join_hyphen_cons by apply split_hyphen_not_nil.
    by rewrite IH.
  - pose proof (split_hyphen_not_nil s) as Hnil.
    destruct (split_hyphen s) as [|w ws]; [done|].
    destruct ws as [|w' ws].
    + simpl in *. by rewrite IH.
    + rewrite join_hyphen_cons by done.
      rewrite join_hyphen_cons in IH by done.
      simpl. by rewrite <- IH.
Qed.

Lemma join_hyphen_app_join (l1 l2 : list string) :
  l2 ≠ [] → join_hyphen (l1 ++ [join_hyphen l2]) = join_hyphen (l1 ++ l2).
Proof.
  intros Hl2.
  induction l1 as [|w l1 IH]; [done|].
  rewrite <- !app_comm_cons.
  rewrite !join_hyphen_cons; [by rewrite IH| |].
  - by destruct l1.
  - by destruct l1.
Qed.

Lemma optional_subtag_spec (p : string → bool) (subtags : list string)
    (group : option string) (rest : list string) :
  optional_subtag p subtags = (group, rest) →
  subtags = option_list group ++ rest ∧ (∀ s, group = Some s → p s = true).
Proof.
  destruct subtags as [|s subtags]; simpl.
  - by intros [= <- <-].
  - destruct (p s) eqn:Hp; intros [= <- <-]; [|done].
    split; [done|]. by intros ? [= <-].
Qed.

Lemma repeated_subtags_app (p : string → bool) (subtags run rest : list string) :
  repeated_subtags p subtags = (run, rest) → subtags = run ++ rest.
Proof.
  revert run rest.
  induction subtags as [|s subtags IH]; intros run rest; simpl.
  - by intros [= <- <-].
  - destruct (p s).
    + destruct (repeated_subtags p subtags) as [run' rest'].
      intros [= <- <-]. by rewrite (IH run' rest').
    + by intros [= <- <-].
Qed.

Lemma before_final_newline_spec (s : string) :
  s = before_final_newline s ∨ s = (before_final_newline s ++ String "010" EmptyString)%string.
Proof.
  induction s as [|c s IH]; [by left|].
  destruct s as [|c' s].
  - cbn [before_final_newline].
    destruct (Ascii.eqb_spec c "010") as [->|_]; [by right|by left].
  - change (before_final_newline (String c (String c' s)))
      with (String c (before_final_newline (String c' s))).
    destruct IH as [IH|IH]; [left|right].
    + by rewrite <- IH.
    + change (String c (before_final_newline (String c' s)) ++ String "010" EmptyString)%string
        with (String c (before_final_newline (String c' s) ++ String "010" EmptyString)%string).
      by rewrite <- IH.
Qed.

Lemma re_unicode_locale_id_text (s : string) (m : LocaleIdMatch) :
  re_unicode_locale_id s = Some m →
  before_final_newline s
  = join_hyphen (group_language m :: option_list (group_script m)
                   ++ option_list (group_region m)
                   ++ default [] (group_variants m)
                   ++ option_list (group_privateuse m)).
Proof.
  unfold re_unicode_locale_id.
  pose proof (join_hyphen_split_hyphen (before_final_newline s)) as Hjoin.
  destruct (split_hyphen (before_final_newline s)) as [|language rest]; [done|].
  destruct (is_language_subtag language); [|done].
  destruct (optional_subtag is_script_subtag rest) as [script rest1] eqn:Hscript.
  destruct (optional_subtag is_region_subtag rest1) as [region rest2] eqn:Hregion.
  destruct (repeated_subtags is_variant_subtag rest2) as [run rest3] eqn:Hrun.
  apply optional_subtag_spec in Hscript as [-> _].
  apply optional_subtag_spec in Hregion as [-> _].
  apply repeated_subtags_app in Hrun as ->.
  assert (default [] (match run with [] => None | _ :: _ => Some run end) = run)
    as Hdefault by by destruct run.
  destruct rest3 as [|x privateuse].
  - intros [= <-]. cbn [group_language group_script group_region group_variants
                         group_privateuse].
    rewrite Hdefault. change (option_list (@None string)) with (@nil string).
    by rewrite Hjoin.
  - remember (join_hyphen (x :: privateuse)) as joined eqn:Hjoined.
    destruct ((String.eqb x "x" || String.eqb x "X")
              && negb (bool_decide (privateuse = []))
              && forallb is_privateuse_subtag privateuse); [|done].
    intros [= <-]. cbn [group_language group_script group_region group_variants
                         group_privateuse].
    rewrite Hdefault. change (option_list (Some joined)) with [joined].
    replace (language :: option_list script ++ option_list region ++ run
               ++ [joined])
      with ((language :: option_list script ++ option_list region ++ run)
              ++ [joined])
      by (by rewrite <- app_comm_cons, <- !app_assoc).
    rewrite Hjoined, join_hyphen_app_join by done.
    by rewrite <- app_comm_cons, <- !app_assoc, Hjoin.
Qed.

(** X7: the groups of a match of [re_unicode_locale_id] are the whole of the
    matched text, up to a final newline: joined with hyphens in the order of
    the pattern they give the string back. The language has two, three or
    five to eight characters, the script four, the region two or else three
    digits; the variants, when the group is there, are at least one, each of
    five to eight characters or of four that begin with a digit; and a
    private-use group is [x] or [X] followed by at least one subtag of one
    to eight characters. *)
Theorem re_unicode_locale_id_groups (s : string) (m : LocaleIdMatch) :
  re_unicode_locale_id s = Some m →
  (s = join_hyphen (group_language m :: option_list (group_script m)
                      ++ option_list (group_region m)
                      ++ default [] (group_variants m)
                      ++ option_list (group_privateuse m))
   ∨ s = (join_hyphen (group_language m :: option_list (group_script m)
                         ++ option_list (group_region m)
                         ++ default [] (group_variants m)
                         ++ option_list (group_privateuse m))
          ++ String "010" EmptyString)%string)
  ∧ String.length (group_language m) ∈ [2; 3; 5; 6; 7; 8]
  ∧ (∀ script, group_script m = Some script → String.length script = 4)
  ∧ (∀ region, group_region m = Some region →
       String.length region = 2
       ∨ String.length region = 3 ∧ all_chars is_digit region = true)
  ∧ (∀ variants, group_variants m = Some variants →
       variants ≠ []
       ∧ Forall
           (fun v =>
              (5 <= String.length v <= 8)%nat
              ∨ String.length v = 4
                ∧ ∃ c v', v = String c v' ∧ is_digit c = true)
           variants)
  ∧ (∀ privateuse, group_privateuse m = Some privateuse →
       ∃ x subtags,
         privateuse = join_hyphen (x :: subtags)
         ∧ (x = "x" ∨ x = "X")
         ∧ subtags ≠ []
         ∧ Forall (fun v => (1 <= String.length v <= 8)%nat) subtags).
Proof.
  intros Hmatch.
  split.
  { rewrite <- (re_unicode_locale_id_text _ _ Hmatch).
    apply before_final_newline_spec. }
  revert Hmatch. unfold re_unicode_locale_id.
  destruct (split_hyphen (before_final_newline s)) as [|language rest]; [done|].
  destruct (is_language_subtag language) eqn:Hlanguage; [|done].
  destruct (optional_subtag is_script_subtag rest) as [script rest1] eqn:Hscript.
  destruct (optional_subtag is_region_subtag rest1) as [region rest2] eqn:Hregion.
  destruct (repeated_subtags is_variant_subtag rest2) as [run rest3] eqn:Hrun.
  apply optional_subtag_spec in Hscript as [_ Hscript].
  apply optional_subtag_spec in Hregion as [_ Hregion].
  apply repeated_subtags_Forall in Hrun.
  assert (String.length language ∈ [2; 3; 5; 6; 7; 8]) as Llanguage.
  { unfold is_language_subtag in Hlanguage.
    by apply andb_true_iff in Hlanguage as [_ ?%bool_decide_eq_true]. }
  assert (∀ x, script = Some x → String.length x = 4) as Lscript.
  { intros x Hx. specialize (Hscript x Hx). unfold is_script_subtag in Hscript.
    by apply andb_true_iff in Hscript as [_ ?%Nat.eqb_eq]. }
  assert (∀ x, region = Some x →
            String.length x = 2
            ∨ String.length x = 3 ∧ all_chars is_digit x = true) as Lregion.
  { intros x Hx. specialize (Hregion x Hx). unfold is_region_subtag in Hregion.
    apply orb_true_iff in Hregion as [H|H];
      apply andb_true_iff in H as [Hchars Hlength%Nat.eqb_eq]; auto. }
  assert (∀ variants, match run with [] => None | _ :: _ => Some run end = Some variants →
            variants ≠ []
            ∧ Forall
                (fun v =>
                   (5 <= String.length v <= 8)%nat
                   ∨ String.length v = 4
                     ∧ ∃ c v', v = String c v' ∧ is_digit c = true)
                variants)
    as Lvariants.
  { intros variants Hvariants.
    assert (variants = run ∧ variants ≠ []) as [-> Hnil]
      by (destruct run; [done|]; by injection Hvariants as <-).
    split; [done|]. eapply Forall_impl; [exact Hrun|].
    intros v Hv. cbv beta in Hv. unfold is_variant_subtag in Hv.
    apply orb_true_iff in Hv as [Hv|Hv].
    - apply andb_true_iff in Hv as [Hv Hmax%Nat.leb_le].
      apply andb_true_iff in Hv as [_ Hmin%Nat.leb_le]. left. lia.
    - destruct v as [|c v']; [done|].
      apply andb_true_iff in Hv as [Hv Hlength%Nat.eqb_eq].
      apply andb_true_iff in Hv as [Hdigit _].
      right. split; [simpl; by rewrite Hlength | by exists c, v']. }
  destruct rest3 as [|x privateuse].
  - by intros [= <-].
  - remember (join_hyphen (x :: privateuse)) as joined eqn:Hjoined.
    destruct ((String.eqb x "x" || String.eqb x "X")
              && negb (bool_decide (privateuse = []))
              && forallb is_privateuse_subtag privateuse) eqn:Hx; [|done].
    apply andb_true_iff in Hx as [Hx Hall].
    apply andb_true_iff in Hx as [Hx Hnil].
    apply negb_true_iff, bool_decide_eq_false in Hnil.
    intros [= <-].
    refine (conj Llanguage (conj Lscript (conj Lregion (conj Lvariants _)))).
    intros ? [= <-]. exists x, privateuse. repeat split; try done.
    + apply orb_true_iff in Hx as [Hx|Hx]; apply String.eqb_eq in Hx; auto.
    + apply Forall_forall. intros v Hv.
      rewrite forallb_forall in Hall.
      apply list_elem_of_In, Hall in Hv. unfold is_privateuse_subtag in Hv.
      apply andb_true_iff in Hv as [Hv Hmax%Nat.leb_le].
      apply andb_true_iff in Hv as [_ Hmin%Nat.leb_le]. lia.
Qed.

Lemma re_unicode_locale_id_groups_witness :
  re_unicode_locale_id "sl-Latn-IT-rozaj-biske-1994-x-private"
  = Some {| group_language := "sl"; group_script := Some "Latn";
            group_region := Some "IT";
            group_variants := Some ["rozaj"; "biske"; "1994"];
            group_privateuse := Some "x-private" |}
  ∧ String.length "sl" ∈ [2; 3; 5; 6; 7; 8].
Proof.
  split; [by_evaluation|].
  apply (re_unicode_locale_id_groups "sl-Latn-IT-rozaj-biske-1994-x-private"
           {| group_language := "sl"; group_script := Some "Latn";
              group_region := Some "IT";
              group_variants := Some ["rozaj"; "biske"; "1994"];
              group_privateuse := Some "x-private" |}).
  by_evaluation.
Defined.

(** * The generated [updateGrandfatheredMappings] on a grandfathered tag *)

Lemma grandfathered_branches_elem (items : list (string * string))
    (branches : list GrandfatheredBranch) (tag modern : string) :
  grandfathered_branches items = Ok branches →
  (tag, modern) ∈ items →
  ∃ b, b ∈ branches ∧ grandfathered_branch tag modern = Ok b.
Proof.
  revert branches. induction items as [|[tag0 modern0] items IH]; intros branches.
  - intros _ Hin. by apply elem_of_nil in Hin.
  - simpl. intros (b0 & Hb0 & Hrest)%bind_Ok_inv.
    apply bind_Ok_inv in Hrest as (bs & Hbs & [= <-]).
    intros [[= -> ->]|Hin]%elem_of_cons.
    + exists b0. split; [by left | done].
    + destruct (IH _ Hbs Hin) as (b & ? & ?).
      exists b. split; [by right | done].
Qed.

(** What the generator read off a key and its value when it wrote a
    branch. *)
Lemma grandfathered_branch_inv (tag modern : string) (b : GrandfatheredBranch) :
  grandfathered_branch tag modern = Ok b →
  ∃ m m',
    re_unicode_locale_id tag = Some m
    ∧ group_language m = tag_language b
    ∧ group_script m = None ∧ group_region m = None
    ∧ group_variants m = Some [tag_variant b]
    ∧ group_privateuse m = None
    ∧ re_unicode_locale_id modern = Some m'
    ∧ modern_language b = group_language m'
    ∧ modern_script b = group_script m'
    ∧ modern_region b = group_region m'
    ∧ modern_variants b = (sorted id <$> group_variants m')
    ∧ modern_privateuse b = group_privateuse m'.
Proof.
  unfold grandfathered_branch.
  destruct (re_unicode_locale_id tag) as [m|]; [|done].
  case_bool_decide as Hscript; [done|].
  case_bool_decide as Hregion; [done|].
  destruct (group_variants m) as [variants|] eqn:Hvariants; [|done].
  case_bool_decide as Hprivateuse; [done|].
  destruct variants as [|variant [|? ?]]; [done| |done].
  destruct (re_unicode_locale_id modern) as [m'|]; [|done].
  intros [= <-]. exists m, m'. cbn.
  destruct (group_script m); [by destruct Hscript|].
  destruct (group_region m); [by destruct Hregion|].
  destruct (group_privateuse m); [by destruct Hprivateuse|].
  by repeat split.
Qed.

Lemma before_final_newline_fixed (s : string) :
  (∀ prefix, s ≠ (prefix ++ String "010" EmptyString)%string) →
  before_final_newline s = s.
Proof.
  intros Hs. destruct (before_final_newline_spec s) as [Heq|Heq]; [done|].
  by destruct (Hs _ Heq).
Qed.

Lemma before_final_newline_app (prefix : string) :
  before_final_newline (prefix ++ String "010" EmptyString) = prefix.
Proof.
  induction prefix as [|c prefix IH]; [done|].
  change (String c prefix ++ String "010" EmptyString)%string
    with (String c (prefix ++ String "010" EmptyString)%string).
  destruct prefix as [|c' prefix]; [done|].
  change (String c' prefix ++ String "010" EmptyString)%string
    with (String c' (prefix ++ String "010" EmptyString)%string) in *.
  change (before_final_newline (String c (String c' (prefix ++ String "010" EmptyString))))
    with (String c (before_final_newline (String c' (prefix ++ String "010" EmptyString)))).
  by rewrite IH.
Qed.

Lemma not_ends_in_newline (s : string) :
  before_final_newline s = s →
  ∀ prefix, s ≠ (prefix ++ String "010" EmptyString)%string.
Proof.
  intros Hs prefix ->. rewrite before_final_newline_app in Hs.
  induction prefix as [|c prefix IH]; [done|].
  injection Hs as Hs. by apply IH.
Qed.

(** The text of a key for which a branch was written. *)
Lemma grandfathered_branch_text (tag modern : string) (b : GrandfatheredBranch) :
  grandfathered_branch tag modern = Ok b →
  before_final_newline tag = join_hyphen [tag_language b; tag_variant b].
Proof.
  intros (m & _ & Hm & Hl & Hs & Hr & Hv & Hp & _)%grandfathered_branch_inv.
  rewrite (re_unicode_locale_id_text _ _ Hm), Hl, Hs, Hr, Hv, Hp. done.
Qed.

(** X8: the function written for a table does to a grandfathered tag what
    the table says. When no key of the table ends in a newline, a tag
    without script, region, extensions and private use whose language and
    variants are those of a key is rewritten to the subtags of the value of
    that key: its language, script, region and private use, and its variants
    in sorted order; the single variant of the tag is dropped. *)
Theorem updateGrandfatheredMappings_applies
    (grandfathered_mappings : gmap string string)
    (branches : list GrandfatheredBranch) (tag : Tag.t)
    (key modern : string) (m : LocaleIdMatch) :
  writeGrandfatheredMappingsFunction grandfathered_mappings = Ok branches →
  (∀ key' prefix, is_Some (grandfathered_mappings !! key') →
     key' ≠ (prefix ++ String "010" EmptyString)%string) →
  grandfathered_mappings !! key = Some modern →
  re_unicode_locale_id key = Some m →
  Tag.language tag = group_language m →
  Some (Tag.variants tag) = group_variants m →
  Tag.script tag = None → Tag.region tag = None →
  Tag.extensions tag = [] → Tag.privateuse tag = None →
  ∃ m',
    re_unicode_locale_id modern = Some m'
    ∧ updateGrandfatheredMappings branches tag
      = Tag.mk (group_language m') (group_script m') (group_region m')
          (sorted id (default [] (group_variants m'))) []
          (group_privateuse m').
Proof.
  intros Hwrite Hnewline Hkey Hm Hlanguage Hvariants Hscript Hregion
    Hextensions Hprivateuse.
  (* the branch written for the key *)
  pose proof Hkey as Hitem. apply elem_of_sorted_items in Hitem.
  destruct (grandfathered_branches_elem _ _ _ _ Hwrite Hitem) as (b & Hb & Hbranch).
  pose proof (grandfathered_branch_text _ _ _ Hbranch) as Htext.
  destruct (grandfathered_branch_inv _ _ _ Hbranch)
    as (m0 & m' & Hm0 & Hl0 & _ & _ & Hv0 & _ & Hm' & Hml & Hms & Hmr & Hmv & Hmp).
  rewrite Hm in Hm0. injection Hm0 as <-.
  rewrite Hv0 in Hvariants. injection Hvariants as Hvariants.
  assert (branch_applies tag b = true) as Happlies.
  { unfold branch_applies. rewrite Hvariants, Hlanguage, Hl0.
    apply andb_true_iff. split; by apply bool_decide_eq_true. }
  (* the branch the function takes *)
  exists m'. split; [done|].
  unfold updateGrandfatheredMappings.
  assert (not_grandfathered_shape tag = false) as ->.
  { apply not_grandfathered_shape_false. eauto 10. }
  destruct (List.find (branch_applies tag) branches) as [b1|] eqn:Hfind.
  2: { eapply find_none in Hfind; [|by apply list_elem_of_In].
       by rewrite Happlies in Hfind. }
  apply find_some in Hfind as [Hb1%list_elem_of_In Happlies1].
  destruct (grandfathered_branches_Ok _ _ _ Hwrite Hb1)
    as (key1 & modern1 & Hitem1 & Hbranch1).
  apply elem_of_sorted_items in Hitem1.
  pose proof (grandfathered_branch_text _ _ _ Hbranch1) as Htext1.
  assert (key1 = key) as ->.
  { rewrite before_final_newline_fixed in Htext, Htext1
      by (intros prefix; by apply Hnewline).
    rewrite Htext, Htext1.
    unfold branch_applies in Happlies, Happlies1.
    apply andb_true_iff in Happlies
      as [Hal%bool_decide_eq_true Hav%bool_decide_eq_true].
    apply andb_true_iff in Happlies1
      as [Hal1%bool_decide_eq_true Hav1%bool_decide_eq_true].
    congruence. }
  assert (b1 = b) as -> by congruence.
  (* its body *)
  unfold branch_body. rewrite Hml, Hms, Hmr, Hmv, Hmp.
  destruct tag as [language script region variants extensions privateuse].
  cbn in Hscript, Hregion, Hextensions, Hprivateuse. subst.
  by destruct (group_script m'), (group_region m'), (group_variants m'),
    (group_privateuse m').
Qed.

Lemma updateGrandfatheredMappings_applies_witness :
  writeGrandfatheredMappingsFunction (grandfatheredMappings Sample.cldr)
  = Ok Sample.branches
  ∧ ∃ m',
      re_unicode_locale_id "xtg-x-cel-gaulish" = Some m'
      ∧ updateGrandfatheredMappings Sample.branches
          (Tag.mk "cel" None None ["gaulish"] [] None)
        = Tag.mk (group_language m') (group_script m') (group_region m')
            (sorted id (default [] (group_variants m'))) []
            (group_privateuse m').
Proof.
  split; [by_evaluation|].
  apply (updateGrandfatheredMappings_applies (grandfatheredMappings Sample.cldr)
           Sample.branches (Tag.mk "cel" None None ["gaulish"] [] None)
           "cel-gaulish" "xtg-x-cel-gaulish"
           {| group_language := "cel"; group_script := None;
              group_region := None; group_variants := Some ["gaulish"];
              group_privateuse := None |});
    try by_evaluation.
  intros key' prefix [modern' Hlookup]. apply not_ends_in_newline.
  revert key' modern' Hlookup.
  change (map_Forall (fun (k : string) (_ : string) => before_final_newline k = k)
            (grandfatheredMappings Sample.cldr)).
  apply (bool_decide_unpack _). vm_compute. exact I.
Defined.

(** * The complex region mappings of [readSupplementalData] *)

Lemma filter_Permutation_eq {A : Type} (P Q : A → bool) (l : list A) :
  List.filter P l ≡ₚ List.filter Q l → List.filter P l = List.filter Q l.
Proof.
  induction l as [|a l IH]; [done|].
  simpl. destruct (P a) eqn:HP, (Q a) eqn:HQ; intros Hperm.
  - f_equal. apply IH. by apply (Permutation_cons_inv Hperm).
  - assert (In a (List.filter Q l)) as Hin.
    { apply list_elem_of_In. rewrite <- Hperm. by left. }
    apply filter_In in Hin as [_ Hin]. congruence.
  - assert (In a (List.filter P l)) as Hin.
    { apply list_elem_of_In. rewrite Hperm. by left. }
    apply filter_In in Hin as [_ Hin]. congruence.
  - by apply IH.
Qed.

Lemma filter_filter_bool {A : Type} (P Q : A → bool) (l : list A) :
  List.filter P (List.filter Q l) = List.filter (fun x => Q x && P x) l.
Proof.
  induction l as [|a l IH]; [done|].
  simpl. destruct (Q a); simpl; [destruct (P a)|]; by rewrite IH.
Qed.

Lemma omap_filter_bool {A B : Type} (f g : A → option B) (q : B → bool)
    (l : list A) :
  (∀ a, f a = match g a with
              | Some b => if q b then Some b else None
              | None => None
              end) →
  omap f l = List.filter q (omap g l).
Proof.
  intros Hf. induction l as [|a l IH]; [done|].
  change (omap f (a :: l))
    with (match f a with Some y => y :: omap f l | None => omap f l end).
  change (omap g (a :: l))
    with (match g a with Some y => y :: omap g l | None => omap g l end).
  rewrite Hf, IH. destruct (g a) as [b|]; [|done].
  cbn [List.filter]. by destruct (q b).
Qed.

(** The entries found for a list of replacement regions are picked, in the
    order of the likely subtags, out of the entries without a region in
    their key. *)
Lemma region_likely_subtags_filter (items : list (LangTag * LangTag))
    (replacements : list string) :
  region_likely_subtags items replacements
  = List.filter (fun v : Replacement => bool_decide (v.2 ∈ replacements))
      (omap (fun item : LangTag * LangTag =>
               match item.1.2, item.2.2 with
               | None, Some to_region => Some (item.1.1.1, item.1.1.2, to_region)
               | _, _ => None
               end)
         items).
Proof.
  apply omap_filter_bool.
  intros [[[from_language from_script] [from_region|]]
            [[to_language to_script] [to_region|]]]; done.
Qed.

Lemma non_default_replacements_filter (items : list (LangTag * LangTag))
    (default : string) (replacements : list string) :
  ∃ P : Replacement → bool,
    non_default_replacements default (region_likely_subtags items replacements)
    = List.filter P
        (omap (fun item : LangTag * LangTag =>
                 match item.1.2, item.2.2 with
                 | None, Some to_region => Some (item.1.1.1, item.1.1.2, to_region)
                 | _, _ => None
                 end)
           items).
Proof.
  unfold non_default_replacements.
  rewrite region_likely_subtags_filter.
  eexists. apply filter_filter_bool.
Qed.

Lemma complex_region_entry_Some (items : list (LangTag * LangTag))
    (original : string * list string) (default : string)
    (replacements : list Replacement) :
  complex_region_entry items original = Some (default, replacements) →
  default = original.1
  ∧ replacements ≠ []
  ∧ replacements
    = non_default_replacements default
        (region_likely_subtags items (original.1 :: original.2)).
Proof.
  unfold complex_region_entry. cbv zeta.
  destruct (non_default_replacements _ _) as [|v vs] eqn:Hnd; [done|].
  intros [= <- <-]. by rewrite Hnd.
Qed.

(** X9: the complex region mappings that [readSupplementalData] returns
    list equal replacements in one order: two regions with the same default
    whose replacements agree up to their order have the same list of
    replacements, since both lists are in the order of the likely
    subtags. *)
Theorem complex_region_mappings_final_one_order
    (items : list (LangTag * LangTag))
    (complex_region_mappings : gmap string (string * list string))
    (data : SupplementalData) (region default : string)
    (replacements : list Replacement) :
  complexRegionMappings data
  = complex_region_mappings_final items complex_region_mappings →
  complexRegionMappings data !! region = Some (default, replacements) →
  listed_in_one_order data default replacements.
Proof.
  intros Hdata Hregion region0 replacements0 Hregion0 Hperm.
  rewrite Hdata in Hregion, Hregion0.
  unfold complex_region_mappings_final in Hregion, Hregion0.
  rewrite lookup_omap in Hregion, Hregion0.
  destruct (complex_region_mappings !! region) as [original|]; [|done].
  destruct (complex_region_mappings !! region0) as [original0|]; [|done].
  apply complex_region_entry_Some in Hregion as (_ & _ & ->).
  apply complex_region_entry_Some in Hregion0 as (_ & _ & ->).
  destruct (non_default_replacements_filter items default
              (original.1 :: original.2)) as [P HP].
  destruct (non_default_replacements_filter items default
              (original0.1 :: original0.2)) as [P0 HP0].
  rewrite HP, HP0 in *. by apply filter_Permutation_eq.
Qed.

Lemma complex_region_mappings_final_one_order_witness :
  complexRegionMappings Sample.derived !! "SU"
  = Some ("RU", [ ("und", Some "Armn", "AM"); ("hy", None, "AM");
                  ("uz", None, "UZ") ])
  ∧ listed_in_one_order Sample.derived "RU"
      [ ("und", Some "Armn", "AM"); ("hy", None, "AM"); ("uz", None, "UZ") ].
Proof.
  split; [by_evaluation|].
  apply (complex_region_mappings_final_one_order Sample.likely_subtags_items
           Sample.territory_aliases Sample.derived "SU");
    by_evaluation.
Defined.

(** X10: what a complex region mapping that [readSupplementalData] returns
    holds. Its default is the first replacement region of the territory
    alias; its list of replacements is not empty; and each replacement has
    the language and the script of a likely-subtags entry without a region
    in its key, and the region of the value of that entry, which is one of
    the other replacement regions of the alias and not the default. No two
    replacements with the default as the region of one of them have the same
    language and script. *)
Theorem complex_region_mappings_final_entry
    (items : list (LangTag * LangTag))
    (complex_region_mappings : gmap string (string * list string))
    (region default : string) (replacements : list Replacement) :
  complex_region_mappings_final items complex_region_mappings !! region
  = Some (default, replacements) →
  ∃ others,
    complex_region_mappings !! region = Some (default, others)
    ∧ replacements ≠ []
    ∧ ∀ v : Replacement, v ∈ replacements →
        v.2 ∈ others
        ∧ v.2 ≠ default
        ∧ (∃ value : LangTag,
             ((v.1.1, v.1.2, None), value) ∈ items ∧ value.2 = Some v.2)
        ∧ (∀ value : LangTag,
             ((v.1.1, v.1.2, None), value) ∈ items → value.2 ≠ Some default).
Proof.
  unfold complex_region_mappings_final. rewrite lookup_omap.
  destruct (complex_region_mappings !! region) as [[default0 others]|]; [|done].
  intros (Hdefault & Hnil & ->)%complex_region_entry_Some.
  cbn [fst snd] in *. subst default0.
  exists others. split; [done|]. split; [done|].
  intros v Hv.
  unfold non_default_replacements in Hv.
  apply list_elem_of_In, filter_In in Hv as [Hv Hnot].
  apply negb_true_iff, bool_decide_eq_false in Hnot.
  assert (∀ w : Replacement,
            In w (region_likely_subtags items (default :: others)) ↔
            w.2 ∈ default :: others
            ∧ ∃ value : LangTag,
                ((w.1.1, w.1.2, None), value) ∈ items ∧ value.2 = Some w.2)
    as Hentries.
  { intros w. rewrite region_likely_subtags_filter, filter_In, bool_decide_eq_true.
    rewrite <- list_elem_of_In, list_elem_of_omap.
    split.
    - intros [([[[fl fs] fr] [[tl ts] tr]] & Hitem & Hw) Hin].
      cbn [fst snd] in Hw.
      destruct fr; [done|]. destruct tr as [tr|]; [|done].
      injection Hw as <-. split; [done|].
      exists (tl, ts, Some tr). by split.
    - intros [Hin ([[tl ts] tr] & Hitem & Htr)].
      split; [|done]. cbn [snd] in Htr. subst tr.
      exists ((w.1.1, w.1.2, None), (tl, ts, Some w.2)). split; [done|].
      cbn [fst snd]. by destruct w as [[? ?] ?]. }
  assert (v.2 ≠ default) as Hne.
  { intros Heq. apply Hnot. unfold default_replacements.
    apply list_elem_of_fmap. exists v. split; [done|].
    apply list_elem_of_In, filter_In. split; [done|].
    by apply bool_decide_eq_true. }
  apply Hentries in Hv as [Hin Hvalue].
  split; [|split; [done|split; [done|]]].
  - apply elem_of_cons in Hin as [Heq|Hin]; [by destruct Hne | done].
  - intros [[tl ts] tr] Hitem Htr. cbn [snd] in Htr. subst tr.
    apply Hnot. unfold default_replacements.
    apply list_elem_of_fmap. exists (v.1.1, v.1.2, default). split; [done|].
    apply list_elem_of_In, filter_In. split; [|by apply bool_decide_eq_true].
    apply Hentries. cbn [fst snd]. split; [by left|].
    exists (tl, ts, Some default). by split.
Qed.

Lemma complex_region_mappings_final_entry_witness :
  complex_region_mappings_final Sample.likely_subtags_items
    Sample.territory_aliases !! "SU"
  = Some ("RU", [ ("und", Some "Armn", "AM"); ("hy", None, "AM");
                  ("uz", None, "UZ") ])
  ∧ ∃ others,
      Sample.territory_aliases !! "SU" = Some ("RU", others)
      ∧ [ ("und", Some "Armn", "AM"); ("hy", None, "AM"); ("uz", None, "UZ") ]
        ≠ ([] : list Replacement)
      ∧ ∀ v : Replacement,
          v ∈ [ ("und", Some "Armn", "AM"); ("hy", None, "AM");
                ("uz", None, "UZ") ] →
          v.2 ∈ others
          ∧ v.2 ≠ "RU"
          ∧ (∃ value : LangTag,
               ((v.1.1, v.1.2, None), value) ∈ Sample.likely_subtags_items
               ∧ value.2 = Some v.2)
          ∧ (∀ value : LangTag,
               ((v.1.1, v.1.2, None), value) ∈ Sample.likely_subtags_items →
               value.2 ≠ Some "RU").
Proof.
  split; [by_evaluation|].
  apply (complex_region_mappings_final_entry Sample.likely_subtags_items
           Sample.territory_aliases "SU").
  by_evaluation.
Defined.

(** X11: every territory alias with several replacement regions ends in
    exactly one of the two region tables that [readSupplementalData]
    returns: in the complex region mappings, the simple region mapping being
    left as it was for that region; or, when no likely-subtags entry asks for
    a region other than the default, in the simple region mapping with the
    default region. A region that is no such alias keeps its simple
    mapping and gets no complex one. *)
Theorem region_mappings_final_split
    (items : list (LangTag * LangTag))
    (region_mappings : gmap string string)
    (complex_region_mappings : gmap string (string * list string))
    (region : string) :
  match complex_region_mappings !! region with
  | Some replacements =>
      (∃ entry,
         complex_region_mappings_final items complex_region_mappings !! region
         = Some (replacements.1, entry)
         ∧ region_mappings_final items region_mappings complex_region_mappings
             !! region
           = region_mappings !! region)
      ∨ (complex_region_mappings_final items complex_region_mappings !! region
         = None
         ∧ region_mappings_final items region_mappings complex_region_mappings
             !! region
           = Some replacements.1)
  | None =>
      complex_region_mappings_final items complex_region_mappings !! region
      = None
      ∧ region_mappings_final items region_mappings complex_region_mappings
          !! region
        = region_mappings !! region
  end.
Proof.
  unfold complex_region_mappings_final, region_mappings_final.
  rewrite lookup_union, !lookup_omap.
  destruct (complex_region_mappings !! region) as [replacements|]; cbn.
  - destruct (complex_region_entry items replacements) as [[default entry]|] eqn:He.
    + left. exists entry.
      apply complex_region_entry_Some in He as (-> & _ & _).
      split; [done|]. by destruct (region_mappings !! region).
    + right. split; [done|]. by destruct (region_mappings !! region).
  - split; [done|]. by destruct (region_mappings !! region).
Qed.

(** * The expected values of the likely-subtags test *)

Lemma addLikelySubtags_canonical (data : SupplementalData)
    (tag canonical_tag : LangTag) :
  canonical data tag = Ok canonical_tag →
  canonical data canonical_tag = Ok canonical_tag →
  addLikelySubtags data tag = addLikelySubtags data canonical_tag.
Proof.
  intros Htag Hcanonical. unfold addLikelySubtags. by rewrite Htag, Hcanonical.
Qed.

(** X12: when the preferred languages and regions of the mappings are not
    themselves deprecated, the expected value that [likely_canonical]
    returns for a key of the likely subtags is the result of
    [addLikelySubtags] on that key as it stands in the table, not only on its
    canonical form, and it is canonical. *)
Theorem likely_canonical_maximizes (data : SupplementalData)
    (from_tag to_tag expected : LangTag) :
  preferred_languages_final data →
  preferred_regions_final data →
  likely_canonical data from_tag to_tag = Ok expected →
  addLikelySubtags data from_tag = Ok expected
  ∧ canonical data expected = Ok expected.
Proof.
  intros Hlanguages Hregions. unfold likely_canonical.
  intros ([[language script] region] & Hfrom & Hrest)%bind_Ok_inv.
  apply bind_Ok_inv in Hrest as ([[language' script'] region'] & Hto & Hrest).
  apply bind_Ok_inv in Hrest as (maximized & Hadd & Hrest).
  destruct (decide _) as [<-|]; [|done]. injection Hrest as <-.
  split.
  - rewrite <- Hadd. apply addLikelySubtags_canonical; [done|].
    destruct (canonical_final _ _ _ _ _ Hlanguages Hregions Hfrom).
    by apply canonical_fixed.
  - destruct (canonical_final _ _ _ _ _ Hlanguages Hregions Hto).
    by apply canonical_fixed.
Qed.

Lemma likely_canonical_maximizes_witness :
  likely_canonical Sample.cldr ("sh", None, None) ("sr", Some "Latn", Some "RS")
  = Ok ("sr", Some "Latn", Some "RS")
  ∧ addLikelySubtags Sample.cldr ("sh", None, None)
    = Ok ("sr", Some "Latn", Some "RS").
Proof.
  split; [by_evaluation|].
  apply (likely_canonical_maximizes Sample.cldr ("sh", None, None)
           ("sr", Some "Latn", Some "RS"));
    by_evaluation.
Defined.

(** * [partition] and [updateBackzoneLinks] *)

Lemma filter_complement_Permutation {A : Type} (P : A → bool) (l : list A) :
  List.filter P l ++ List.filter (fun x => negb (P x)) l ≡ₚ l.
Proof.
  induction l as [|a l IH]; [done|].
  simpl. destruct (P a); simpl.
  - by rewrite IH.
  - by rewrite <- Permutation_middle, IH.
Qed.

Lemma partition_tuple_length {A : Type} (predicate : A → bool)
    (predicates : list (A → bool)) (iterable : list A) :
  List.length (partition_tuple predicate predicates iterable)
  = S (S (List.length predicates)).
Proof.
  revert predicate iterable.
  induction predicates as [|predicate' predicates IH]; intros predicate iterable;
    [done|].
  simpl. by rewrite IH.
Qed.

Lemma partition_tuple_concat {A : Type} (predicate : A → bool)
    (predicates : list (A → bool)) (iterable : list A) :
  List.concat (partition_tuple predicate predicates iterable) ≡ₚ iterable.
Proof.
  revert predicate iterable.
  induction predicates as [|predicate' predicates IH]; intros predicate iterable.
  - simpl. rewrite app_nil_r. apply filter_complement_Permutation.
  - simpl. rewrite IH. apply filter_complement_Permutation.
Qed.

Lemma partition_tuple_lookup {A : Type} (predicate : A → bool)
    (predicates : list (A → bool)) (iterable : list A) (i : nat)
    (part : list A) :
  partition_tuple predicate predicates iterable !! i = Some part →
  part
  = List.filter
      (fun x =>
         forallb (fun q : A → bool => negb (q x)) (take i (predicate :: predicates))
         && match (predicate :: predicates) !! i with
            | Some q => q x
            | None => true
            end)
      iterable.
Proof.
  revert predicate iterable i.
  induction predicates as [|predicate' predicates IH]; intros predicate iterable i.
  - destruct i as [|[|i]]; [| |done]; intros [= <-]; apply filter_ext; intros x;
      simpl; by destruct (predicate x).
  - destruct i as [|i].
    + intros [= <-]. apply filter_ext. intros x. simpl. by destruct (predicate x).
    + cbn [partition_tuple innerPartition]. rewrite lookup_cons. intros Hpart.
      rewrite (IH _ _ _ Hpart), filter_filter_bool.
      apply filter_ext. intros x. rewrite firstn_cons.
      cbn [forallb].
      change ((predicate :: predicate' :: predicates) !! S i)
        with ((predicate' :: predicates) !! i).
      by destruct (predicate x).
Qed.

(** X13: [partition] splits the iterable by the first predicate that holds.
    With n predicates (n at least one) it returns n + 1 parts; the part of
    index i holds, in their order in the iterable, the elements for which
    the predicate of index i holds and none before it does, the last part
    those for which no predicate holds; so the parts together are the
    iterable rearranged. Without a predicate the iterable itself is
    returned. *)
Theorem partition_parts {A : Type} (iterable : list A)
    (predicates : list (A → bool)) :
  match partition iterable predicates with
  | inl same => predicates = [] ∧ same = iterable
  | inr parts =>
      List.length parts = S (List.length predicates)
      ∧ List.concat parts ≡ₚ iterable
      ∧ ∀ i part,
          parts !! i = Some part →
          part
          = List.filter
              (fun x =>
                 forallb (fun q : A → bool => negb (q x)) (take i predicates)
                 && match predicates !! i with
                    | Some q => q x
                    | None => true
                    end)
              iterable
  end.
Proof.
  destruct predicates as [|predicate predicates]; [done|].
  cbn [partition]. split; [apply partition_tuple_length|].
  split; [apply partition_tuple_concat|].
  intros i part. apply partition_tuple_lookup.
Qed.

Lemma elem_of_filter_bool {A : Type} (P : A → bool) (l : list A) (x : A) :
  x ∈ List.filter P l ↔ x ∈ l ∧ P x = true.
Proof. by rewrite !list_elem_of_In, filter_In. Qed.

Lemma dict_snoc {V : Type} (pairs : list (string * (string * V)))
    (pair : string * (string * V)) :
  dict (pairs ++ [pair])
  = match dict pairs !! pair.1 with
    | Some (filename, _) => <[pair.1 := (filename, pair.2.2)]> (dict pairs)
    | None => <[pair.1 := pair.2]> (dict pairs)
    end.
Proof. unfold dict. by rewrite fold_left_app. Qed.

(** The keys of [dict(pairs)]. *)
Lemma dict_is_Some {V : Type} (pairs : list (string * (string * V))) (k : string) :
  is_Some (dict pairs !! k) ↔ k ∈ pairs.*1.
Proof.
  induction pairs as [|[k0 v0] pairs IH] using rev_ind.
  - unfold dict. simpl. rewrite lookup_empty, is_Some_alt. split; [done|].
    by intros ?%elem_of_nil.
  - rewrite dict_snoc, fmap_app, elem_of_app, <- IH. cbn [fst snd fmap list_fmap].
    rewrite list_elem_of_singleton.
    destruct (dict pairs !! k0) as [[filename v]|] eqn:Hk0.
    + destruct (decide (k0 = k)) as [->|Hne].
      * rewrite lookup_insert_eq, Hk0. split; [by left | eauto].
      * rewrite lookup_insert_ne by done. split; [by left|].
        intros [?|?]; [done|]. by destruct Hne.
    + destruct (decide (k0 = k)) as [->|Hne].
      * rewrite lookup_insert_eq. split; [by right | eauto].
      * rewrite lookup_insert_ne by done. split; [by left|].
        intros [?|?]; [done|]. by destruct Hne.
Qed.

(** Looking a key up in [dict(pairs)], when the pairs give it one file name
    and one value. *)
Lemma dict_lookup {V : Type} (pairs : list (string * (string * V))) (k : string)
    (v : string * V) :
  (∀ v1 v2, (k, v1) ∈ pairs → (k, v2) ∈ pairs → v1 = v2) →
  dict pairs !! k = Some v ↔ (k, v) ∈ pairs.
Proof.
  revert v.
  induction pairs as [|[k0 v0] pairs IH] using rev_ind; intros v Hunique.
  - unfold dict. simpl. rewrite lookup_empty. split; [done|].
    by intros ?%elem_of_nil.
  - assert (∀ v1 v2, (k, v1) ∈ pairs → (k, v2) ∈ pairs → v1 = v2) as Hunique'.
    { intros v1 v2 H1 H2. apply Hunique; apply elem_of_app; by left. }
    pose proof (fun v => IH v Hunique') as IH'. clear IH.
    rewrite dict_snoc. cbn [fst snd].
    destruct (decide (k0 = k)) as [->|Hne].
    + assert (dict pairs !! k = Some v0 ∨ dict pairs !! k = None) as Hold.
      { destruct (dict pairs !! k) as [v1|] eqn:Hk; [left|by right].
        f_equal. apply Hunique.
        - apply elem_of_app. left. by apply IH'.
        - apply elem_of_app. right. by left. }
      assert (match dict pairs !! k with
              | Some (filename, _) => <[k := (filename, v0.2)]> (dict pairs)
              | None => <[k := v0]> (dict pairs)
              end = <[k := v0]> (dict pairs)) as ->.
      { destruct Hold as [-> | ->]; [|done]. by destruct v0. }
      rewrite lookup_insert_eq. split.
      * intros [= ->]. apply elem_of_app. right. by left.
      * intros Hin. f_equal. apply Hunique; [|done].
        apply elem_of_app. right. by left.
    + assert (match dict pairs !! k0 with
              | Some (filename, _) => <[k0 := (filename, v0.2)]> (dict pairs)
              | None => <[k0 := v0]> (dict pairs)
              end !! k = dict pairs !! k) as ->.
      { destruct (dict pairs !! k0) as [[? ?]|]; by rewrite lookup_insert_ne. }
      rewrite IH', elem_of_app, list_elem_of_singleton.
      split; [by left|]. intros [?|[= ? ?]]; [done|]. by destruct Hne.
Qed.

(** X14: [updateBackzoneLinks] keeps the names of the links and their file
    names and looks at the backzone file for each: a link that the backzone
    file also has as a link takes its target from there; a link that the
    backzone file has as a zone only is dropped; every other link stays as
    it is, and no link is added. *)
Theorem updateBackzoneLinks_lookup (backzoneZones : Zones)
    (backzoneLinks links : Links) (name : string) :
  updateBackzoneLinks backzoneZones backzoneLinks links !! name
  = match links !! name with
    | None => None
    | Some (filename, target) =>
        match backzoneLinks !! name with
        | Some (_, target') => Some (filename, target')
        | None =>
            match backzoneZones !! name with
            | Some _ => None
            | None => Some (filename, target)
            end
        end
    end.
Proof.
  unfold updateBackzoneLinks. cbn [partition partition_tuple innerPartition].
  apply option_eq. intros [filename' target'].
  rewrite dict_lookup.
  - rewrite elem_of_app, list_elem_of_omap.
    repeat setoid_rewrite elem_of_filter_bool.
    split.
    + intros [[Hlink Hstable]|([name0 [filename target]] & [[Hlink Hnot] Hupdated] & Hmap)];
        apply elem_of_map_to_list in Hlink.
      * rewrite Hlink. cbn [fst] in Hstable.
        apply andb_true_iff in Hstable
          as [Hnone%bool_decide_eq_true Hzone%bool_decide_eq_true].
        by rewrite Hnone, Hzone.
      * cbn [fst snd] in *.
        destruct (backzoneLinks !! name0) as [[filename0 target0]|] eqn:Hback;
          [|done].
        injection Hmap as -> -> ->. by rewrite Hlink, Hback.
    + destruct (links !! name) as [[filename target]|] eqn:Hlink; [|done].
      apply elem_of_map_to_list in Hlink.
      destruct (backzoneLinks !! name) as [[filename0 target0]|] eqn:Hback.
      * intros [= <- <-]. right. exists (name, (filename, target)).
        cbn [fst snd]. rewrite Hback. split; [|done].
        split; [split; [done|]|].
        -- by rewrite bool_decide_eq_false_2.
        -- by apply bool_decide_eq_true.
      * destruct (backzoneZones !! name) eqn:Hzone; [done|].
        intros [= <- <-]. left.
        split; [done|]. cbn [fst]. rewrite Hback, Hzone.
        apply andb_true_iff. split; by apply bool_decide_eq_true.
  - intros [f1 t1] [f2 t2].
    rewrite !elem_of_app, !list_elem_of_omap.
    repeat setoid_rewrite elem_of_filter_bool.
    intros [[Hl1 Hs1]|([n1 [g1 u1]] & [[Hl1 Hn1] Hu1] & Hm1)]
           [[Hl2 Hs2]|([n2 [g2 u2]] & [[Hl2 Hn2] Hu2] & Hm2)];
      apply elem_of_map_to_list in Hl1; apply elem_of_map_to_list in Hl2;
      cbn [fst snd] in *.
    + congruence.
    + destruct (backzoneLinks !! n2) as [[? ?]|] eqn:Hb2; [|done].
      injection Hm2 as -> -> ->.
      apply andb_true_iff in Hs1 as [Hnone%bool_decide_eq_true _]. congruence.
    + destruct (backzoneLinks !! n1) as [[? ?]|] eqn:Hb1; [|done].
      injection Hm1 as -> -> ->.
      apply andb_true_iff in Hs2 as [Hnone%bool_decide_eq_true _]. congruence.
    + destruct (backzoneLinks !! n1) as [[? ?]|] eqn:Hb1; [|done].
      destruct (backzoneLinks !! n2) as [[? ?]|] eqn:Hb2; [|done].
      injection Hm1 as -> -> ->. injection Hm2 as -> -> ->. congruence.
Qed.

(** * [bcp47] and [re_unicode_locale_id] *)

Lemma append_EmptyString_r (s : string) : (s ++ EmptyString)%string = s.
Proof.
  induction s as [|c s IH]; [done|].
  change (String c s ++ EmptyString)%string with (String c (s ++ EmptyString)%string).
  by rewrite IH.
Qed.

Lemma all_chars_impl (p q : ascii → bool) (s : string) :
  (∀ c, p c = true → q c = true) →
  all_chars p s = true → all_chars q s = true.
Proof.
  intros Hpq. induction s as [|c s IH]; [done|].
  simpl. intros [Hc Hs]%andb_true_iff.
  apply andb_true_iff. split; [by apply Hpq | by apply IH].
Qed.

Lemma all_chars_app (p : ascii → bool) (s1 s2 : string) :
  all_chars p (s1 ++ s2) = all_chars p s1 && all_chars p s2.
Proof.
  induction s1 as [|c s1 IH]; [done|].
  simpl. by rewrite IH, andb_assoc.
Qed.

(** No character class of the pattern contains the hyphen or the newline. *)
Lemma is_alnum_plain (c : ascii) :
  is_alnum c = true →
  negb (Ascii.eqb c "-") = true ∧ negb (Ascii.eqb c "010") = true.
Proof. destruct c as [[] [] [] [] [] [] [] []]; vm_compute; done. Qed.

Lemma is_alpha_alnum (c : ascii) : is_alpha c = true → is_alnum c = true.
Proof. unfold is_alnum. by intros ->. Qed.

Lemma is_digit_alnum (c : ascii) : is_digit c = true → is_alnum c = true.
Proof. unfold is_alnum. intros ->. by destruct (is_alpha c). Qed.

Lemma split_hyphen_plain (w : string) :
  all_chars (fun c => negb (Ascii.eqb c "-")) w = true →
  split_hyphen w = [w].
Proof.
  induction w as [|c w IH]; [done|].
  simpl. intros [Hc Hw]%andb_true_iff.
  apply negb_true_iff in Hc. rewrite Hc. by rewrite IH.
Qed.

Lemma split_hyphen_app (w rest : string) :
  all_chars (fun c => negb (Ascii.eqb c "-")) w = true →
  split_hyphen (w ++ String "-" rest) = w :: split_hyphen rest.
Proof.
  induction w as [|c w IH]; [done|].
  intros [Hc Hw]%andb_true_iff.
  apply negb_true_iff in Hc.
  change (String c w ++ String "-" rest)%string
    with (String c (w ++ String "-" rest)%string).
  cbn [split_hyphen]. rewrite Hc. by rewrite IH.
Qed.

(** Splitting undoes joining, for subtags without a hyphen. *)
Lemma split_hyphen_join_hyphen (subtags : list string) :
  subtags ≠ [] →
  Forall (fun w => all_chars (fun c => negb (Ascii.eqb c "-")) w = true) subtags →
  split_hyphen (join_hyphen subtags) = subtags.
Proof.
  induction subtags as [|w subtags IH]; [done|].
  intros _ [Hw Hsubtags]%Forall_cons.
  destruct subtags as [|w' subtags]; [by apply split_hyphen_plain|].
  rewrite join_hyphen_cons by done.
  change ("-" ++ join_hyphen (w' :: subtags))%string
    with (String "-" (join_hyphen (w' :: subtags))).
  rewrite split_hyphen_app by done. by rewrite IH.
Qed.

Lemma all_chars_join_hyphen (p : ascii → bool) (subtags : list string) :
  p "-"%char = true →
  Forall (fun w => all_chars p w = true) subtags →
  all_chars p (join_hyphen subtags) = true.
Proof.
  intros Hp. induction subtags as [|w subtags IH]; [done|].
  intros [Hw Hsubtags]%Forall_cons.
  destruct subtags as [|w' subtags]; [done|].
  rewrite join_hyphen_cons by done.
  rewrite !all_chars_app, Hw, IH by done. simpl. by rewrite Hp.
Qed.

Lemma before_final_newline_plain (s : string) :
  all_chars (fun c => negb (Ascii.eqb c "010")) s = true →
  before_final_newline s = s.
Proof.
  intros Hs. apply before_final_newline_fixed. intros prefix ->.
  rewrite all_chars_app in Hs. apply andb_true_iff in Hs as [_ Hs]. done.
Qed.

(** What the shapes of language, script and region have in common. *)
Lemma subtag_shapes (s : string) :
  is_language_subtag s = true ∨ is_script_subtag s = true
  ∨ is_region_subtag s = true →
  all_chars (fun c => negb (Ascii.eqb c "-")) s = true
  ∧ all_chars (fun c => negb (Ascii.eqb c "010")) s = true
  ∧ s ≠ EmptyString.
Proof.
  intros Hshape.
  assert (all_chars is_alnum s = true ∧ s ≠ EmptyString) as [Halnum Hne].
  { unfold is_language_subtag, is_script_subtag, is_region_subtag in Hshape.
    destruct Hshape as [H|[H|H]].
    - apply andb_true_iff in H as [Ha Hl]. split.
      + eapply all_chars_impl; [apply is_alpha_alnum | done].
      + intros ->. by vm_compute in Hl.
    - apply andb_true_iff in H as [Ha Hl]. split.
      + eapply all_chars_impl; [apply is_alpha_alnum | done].
      + by intros ->.
    - apply orb_true_iff in H as [H|H]; apply andb_true_iff in H as [Ha Hl];
        (split; [|by intros ->]).
      + eapply all_chars_impl; [apply is_alpha_alnum | done].
      + eapply all_chars_impl; [apply is_digit_alnum | done]. }
  repeat split; [| |done].
  - eapply all_chars_impl; [|done]. intros c Hc. by apply is_alnum_plain.
  - eapply all_chars_impl; [|done]. intros c Hc. by apply is_alnum_plain.
Qed.

Lemma is_region_not_script (s : string) :
  is_region_subtag s = true → is_script_subtag s = false.
Proof.
  unfold is_region_subtag, is_script_subtag.
  intros [H|H]%orb_true_iff; apply andb_true_iff in H as [_ Hl%Nat.eqb_eq];
    rewrite Hl; apply andb_false_r.
Qed.

(** The text [bcp47] writes, for a script and a region that are not the
    empty string. *)
Lemma bcp47_text (language : string) (script region : option string) :
  script ≠ Some EmptyString →
  region ≠ Some EmptyString →
  bcp47 (language, script, region)
  = join_hyphen (language :: option_list script ++ option_list region).
Proof.
  intros Hscript Hregion. unfold bcp47, hyphenated.
  destruct script as [[|c s]|], region as [[|c' r]|]; try done.
  - cbn. by rewrite append_EmptyString_r.
  - cbn. by rewrite append_EmptyString_r.
Qed.

(** X15: [bcp47] writes a Unicode locale identifier: for a language, a
    script and a region of the shapes of the pattern, [re_unicode_locale_id]
    matches the text and its groups are the language, the script and the
    region, without variants and private use. *)
Theorem bcp47_matches (language : string) (script region : option string) :
  is_language_subtag language = true →
  (∀ s, script = Some s → is_script_subtag s = true) →
  (∀ r, region = Some r → is_region_subtag r = true) →
  re_unicode_locale_id (bcp47 (language, script, region))
  = Some {| group_language := language; group_script := script;
            group_region := region; group_variants := None;
            group_privateuse := None |}.
Proof.
  intros Hlanguage Hscript Hregion.
  destruct (subtag_shapes language) as (Hl1 & Hl2 & _); [by left|].
  assert (∀ s, script = Some s →
            all_chars (fun c => negb (Ascii.eqb c "-")) s = true
            ∧ all_chars (fun c => negb (Ascii.eqb c "010")) s = true
            ∧ s ≠ EmptyString) as Hs.
  { intros s Hs. apply subtag_shapes. right. left. by apply Hscript. }
  assert (∀ r, region = Some r →
            all_chars (fun c => negb (Ascii.eqb c "-")) r = true
            ∧ all_chars (fun c => negb (Ascii.eqb c "010")) r = true
            ∧ r ≠ EmptyString) as Hr.
  { intros r Hr. apply subtag_shapes. right. right. by apply Hregion. }
  rewrite bcp47_text.
  2: { intros Heq. by destruct (Hs _ Heq) as (_ & _ & ?). }
  2: { intros Heq. by destruct (Hr _ Heq) as (_ & _ & ?). }
  assert (Forall (fun w => all_chars (fun c => negb (Ascii.eqb c "-")) w = true)
            (language :: option_list script ++ option_list region)) as Hhyphen.
  { apply Forall_cons. split; [done|]. apply Forall_app.
    split; [destruct script as [s|] | destruct region as [r|]]; try done;
      apply Forall_cons; split; try done.
    - by destruct (Hs s eq_refl).
    - by destruct (Hr r eq_refl). }
  assert (Forall (fun w => all_chars (fun c => negb (Ascii.eqb c "010")) w = true)
            (language :: option_list script ++ option_list region)) as Hnewline.
  { apply Forall_cons. split; [done|]. apply Forall_app.
    split; [destruct script as [s|] | destruct region as [r|]]; try done;
      apply Forall_cons; split; try done.
    - by destruct (Hs s eq_refl) as (_ & ? & _).
    - by destruct (Hr r eq_refl) as (_ & ? & _). }
  unfold re_unicode_locale_id.
  rewrite before_final_newline_plain by by apply all_chars_join_hyphen.
  rewrite split_hyphen_join_hyphen by done.
  rewrite Hlanguage.
  destruct script as [s|], region as [r|]; cbn [option_list option_rect app optional_subtag].
  - rewrite (Hscript s eq_refl). cbn [optional_subtag].
    by rewrite (Hregion r eq_refl).
  - by rewrite (Hscript s eq_refl).
  - rewrite (is_region_not_script r) by by apply Hregion.
    cbn [optional_subtag]. by rewrite (Hregion r eq_refl).
  - done.
Qed.

Lemma bcp47_matches_witness :
  bcp47 ("zh", Some "Hant", Some "TW") = "zh-Hant-TW"
  ∧ re_unicode_locale_id (bcp47 ("zh", Some "Hant", Some "TW"))
    = Some {| group_language := "zh"; group_script := Some "Hant";
              group_region := Some "TW"; group_variants := None;
              group_privateuse := None |}.
Proof.
  split; [by_evaluation|].
  apply (bcp47_matches "zh" (Some "Hant") (Some "TW")).
  - by_evaluation.
  - intros s [= <-]. by_evaluation.
  - intros r [= <-]. by_evaluation.
Defined.

(** X16: and back: for a match of [re_unicode_locale_id] without variants
    and private use, [bcp47] of the language, the script and the region of
    the match writes the matched text, up to a final newline. *)
Theorem bcp47_of_match (s : string) (m : LocaleIdMatch) :
  re_unicode_locale_id s = Some m →
  group_variants m = None →
  group_privateuse m = None →
  s = bcp47 (group_language m, group_script m, group_region m)
  ∨ s = (bcp47 (group_language m, group_script m, group_region m)
         ++ String "010" EmptyString)%string.
Proof.
  intros Hm Hvariants Hprivateuse.
  assert (group_script m ≠ Some EmptyString ∧ group_region m ≠ Some EmptyString)
    as [Hscript Hregion].
  { revert Hm. unfold re_unicode_locale_id.
    destruct (split_hyphen (before_final_newline s)) as [|language rest]; [done|].
    destruct (is_language_subtag language); [|done].
    destruct (optional_subtag is_script_subtag rest) as [script rest1] eqn:Hs.
    destruct (optional_subtag is_region_subtag rest1) as [region rest2] eqn:Hr.
    destruct (repeated_subtags is_variant_subtag rest2) as [run rest3].
    apply optional_subtag_spec in Hs as [_ Hs].
    apply optional_subtag_spec in Hr as [_ Hr].
    assert (script ≠ Some EmptyString) by (intros Heq; by apply Hs in Heq).
    assert (region ≠ Some EmptyString) by (intros Heq; by apply Hr in Heq).
    destruct rest3 as [|x privateuse]; [by intros [= <-]|].
    destruct (_ && _); [|done]. by intros [= <-]. }
  rewrite bcp47_text by done.
  pose proof (re_unicode_locale_id_text _ _ Hm) as Htext.
  rewrite Hvariants, Hprivateuse in Htext.
  change (default [] None ++ option_list None) with (@nil string) in Htext.
  rewrite app_nil_r in Htext. rewrite <- Htext.
  apply before_final_newline_spec.
Qed.

Lemma bcp47_of_match_witness :
  re_unicode_locale_id "sr-Latn-ME"
  = Some {| group_language := "sr"; group_script := Some "Latn";
            group_region := Some "ME"; group_variants := None;
            group_privateuse := None |}
  ∧ ("sr-Latn-ME" = bcp47 ("sr", Some "Latn", Some "ME")
     ∨ "sr-Latn-ME"
       = (bcp47 ("sr", Some "Latn", Some "ME") ++ String "010" EmptyString)%string).
Proof.
  split; [by_evaluation|].
  apply (bcp47_of_match "sr-Latn-ME"
           {| group_language := "sr"; group_script := Some "Latn";
              group_region := Some "ME"; group_variants := None;
              group_privateuse := None |});
    by_evaluation.
Defined.

(** * Time zones *)

Lemma filter_bool_nil {A : Type} (P : A → bool) (l : list A) (x : A) :
  List.filter P l = [] → x ∈ l → P x = false.
Proof.
  intros Hnil Hx. destruct (P x) eqn:HP; [|done].
  assert (x ∈ List.filter P l) as Hin by by apply elem_of_filter_bool.
  rewrite Hnil in Hin. by apply elem_of_nil in Hin.
Qed.

Ltac filter_is_Some :=
  unfold is_Some; repeat setoid_rewrite map_lookup_filter_Some; cbn [fst];
  split;
  [ intros (x & ? & ?); eauto
  | intros [[x ?] ?]; eauto ].

(** What [validateTimeZones] checks: no link is also a zone, and the target
    of every link is a zone. *)
Lemma validateTimeZones_Some (zones : Zones) (links : Links) :
  validateTimeZones zones links = Some () ↔
  (∀ name, is_Some (links !! name) → zones !! name = None)
  ∧ (∀ name filename target,
       links !! name = Some (filename, target) → is_Some (zones !! target)).
Proof.
  unfold validateTimeZones. cbv zeta.
  case_bool_decide as Hintersect.
  - split; [done|]. intros [Hdisjoint _]. destruct Hintersect.
    apply set_eq. intros name. rewrite elem_of_intersection, !elem_of_dom.
    split; [|by intros ?%elem_of_empty].
    intros [Hlink Hzone]. rewrite (Hdisjoint _ Hlink) in Hzone.
    by destruct Hzone.
  - assert (∀ name, is_Some (links !! name) → zones !! name = None) as Hdisjoint.
    { intros name Hlink. apply eq_None_not_Some. intros Hzone.
      assert (name ∈ dom links ∩ dom zones) as Hin
        by (apply elem_of_intersection; by rewrite !elem_of_dom).
      rewrite Hintersect in Hin. by apply elem_of_empty in Hin. }
    case_bool_decide as Htargets.
    + split; [|done]. intros _. split; [done|].
      intros name filename target Hlink. apply elem_of_dom, Htargets.
      apply elem_of_map_img. exists name. by rewrite lookup_fmap, Hlink.
    + split; [done|]. intros [_ Hzones]. destruct Htargets.
      intros target [name Hname]%elem_of_map_img.
      rewrite lookup_fmap in Hname.
      destruct (links !! name) as [[filename target0]|] eqn:Hlink; [|done].
      injection Hname as ->. apply elem_of_dom. by eapply Hzones.
Qed.

(** X17: the zones and links that [readICUTimeZones] returns are, together,
    the names of zoneinfo64.txt that are not legacy time zones; and when the
    data of each of the two files has passed [validateTimeZones], no name is
    both a zone and a link of the result. *)
Theorem readICUTimeZones_names (zoneinfoZones : Zones) (zoneinfoLinks : Links)
    (typesZones : Zones) (typesLinks : Links)
    (legacyZones : Zones) (legacyLinks : Links)
    (icuZones : Zones) (icuLinks : Links) :
  readICUTimeZones zoneinfoZones zoneinfoLinks typesZones typesLinks
    legacyZones legacyLinks = Some (icuZones, icuLinks) →
  (∀ name,
     is_Some (icuZones !! name) ∨ is_Some (icuLinks !! name) ↔
     (is_Some (zoneinfoZones !! name) ∧ legacyZones !! name = None)
     ∨ (is_Some (zoneinfoLinks !! name) ∧ legacyLinks !! name = None))
  ∧ (validateTimeZones zoneinfoZones zoneinfoLinks = Some () →
     validateTimeZones typesZones typesLinks = Some () →
     ∀ name, is_Some (icuZones !! name) → icuLinks !! name = None).
Proof.
  unfold readICUTimeZones. cbv zeta.
  destruct (List.filter _ (map_to_list typesZones)) eqn:HtypesZones; [|done].
  destruct (List.filter _ (map_to_list typesLinks)) eqn:HtypesLinks; [|done].
  intros [= <- <-].
  (* the names of the two filtered tables of zoneinfo64 *)
  assert (∀ name,
            is_Some (filter (fun zone : string * string =>
                               legacyZones !! zone.1 = None) zoneinfoZones
                     !! name)
            ↔ is_Some (zoneinfoZones !! name) ∧ legacyZones !! name = None)
    as Hzones.
  { intros name. filter_is_Some. }
  assert (∀ name,
            is_Some (filter (fun zone_target : string * (string * string) =>
                               legacyLinks !! zone_target.1 = None) zoneinfoLinks
                     !! name)
            ↔ is_Some (zoneinfoLinks !! name) ∧ legacyLinks !! name = None)
    as Hlinks.
  { intros name. filter_is_Some. }
  (* timezoneTypes is within zoneinfo64 *)
  assert (∀ name, is_Some (typesZones !! name) →
            (is_Some (zoneinfoZones !! name) ∧ legacyZones !! name = None)
            ∨ (is_Some (zoneinfoLinks !! name) ∧ legacyLinks !! name = None))
    as HinZones.
  { intros name [filename Hname].
    pose proof (filter_bool_nil _ _ (name, filename) HtypesZones) as Hfound.
    cbn [fst] in Hfound. rewrite negb_false_iff, orb_true_iff in Hfound.
    rewrite !bool_decide_eq_true, Hzones, Hlinks in Hfound.
    apply Hfound. by apply elem_of_map_to_list. }
  assert (∀ name, is_Some (typesLinks !! name) →
            (is_Some (zoneinfoZones !! name) ∧ legacyZones !! name = None)
            ∨ (is_Some (zoneinfoLinks !! name) ∧ legacyLinks !! name = None))
    as HinLinks.
  { intros name [target Hname].
    pose proof (filter_bool_nil _ _ (name, target) HtypesLinks) as Hfound.
    cbn [fst] in Hfound. rewrite negb_false_iff, orb_true_iff in Hfound.
    rewrite !bool_decide_eq_true, Hzones, Hlinks in Hfound.
    apply Hfound. by apply elem_of_map_to_list. }
  (* the names of the result *)
  assert (∀ name,
            is_Some ((filter (fun zone : string * string =>
                                typesLinks !! zone.1 = None)
                        (filter (fun zone : string * string =>
                                   legacyZones !! zone.1 = None) zoneinfoZones)
                      ∪ typesZones) !! name)
            ↔ (is_Some (zoneinfoZones !! name) ∧ legacyZones !! name = None
               ∧ typesLinks !! name = None)
              ∨ is_Some (typesZones !! name))
    as HicuZones.
  { intros name. rewrite lookup_union_is_Some.
    assert (is_Some
              (filter (fun zone : string * string => typesLinks !! zone.1 = None)
                 (filter (fun zone : string * string =>
                            legacyZones !! zone.1 = None) zoneinfoZones)
               !! name)
            ↔ is_Some (filter (fun zone : string * string =>
                                 legacyZones !! zone.1 = None) zoneinfoZones
                       !! name)
              ∧ typesLinks !! name = None) as ->
      by filter_is_Some.
    rewrite Hzones. split; intros [H|H]; auto; left; tauto. }
  assert (∀ name,
            is_Some (dict
                       (map_to_list
                          (filter (fun zone_target : string * (string * string) =>
                                     typesZones !! zone_target.1 = None)
                             (filter
                                (fun zone_target : string * (string * string) =>
                                   legacyLinks !! zone_target.1 = None)
                                zoneinfoLinks))
                        ++ map_to_list typesLinks) !! name)
            ↔ (is_Some (zoneinfoLinks !! name) ∧ legacyLinks !! name = None
               ∧ typesZones !! name = None)
              ∨ is_Some (typesLinks !! name))
    as HicuLinks.
  { intros name. rewrite dict_is_Some, fmap_app, elem_of_app.
    rewrite !list_elem_of_fmap.
    split.
    - intros [([name0 target] & -> & Hin)|([name0 target] & -> & Hin)];
        apply elem_of_map_to_list in Hin; cbn [fst].
      + apply map_lookup_filter_Some in Hin as [Hin Htypes].
        apply map_lookup_filter_Some in Hin as [Hin Hlegacy].
        left. eauto.
      + right. eauto.
    - intros [([target Hin] & Hlegacy & Htypes)|[target Hin]].
      + left. exists (name, target). split; [done|].
        apply elem_of_map_to_list. apply map_lookup_filter_Some.
        split; [|done]. by apply map_lookup_filter_Some.
      + right. exists (name, target). split; [done|].
        by apply elem_of_map_to_list. }
  split.
  - intros name. rewrite HicuZones, HicuLinks. split.
    + intros [[(? & ? & ?)|?]|[(? & ? & ?)|?]]; auto.
    + intros [[Hzone Hlegacy]|[Hlink Hlegacy]].
      * destruct (typesLinks !! name) eqn:Htypes; [right; right; eauto|].
        left. left. done.
      * destruct (typesZones !! name) eqn:Htypes; [left; right; eauto|].
        right. left. done.
  - intros [Hzoneinfo _]%validateTimeZones_Some [Htypes _]%validateTimeZones_Some.
    intros name Hzone. apply eq_None_not_Some. intros Hlink.
    apply HicuZones in Hzone. apply HicuLinks in Hlink.
    destruct Hzone as [(Hzone & _ & Hnone)|Hzone],
      Hlink as [(Hlink & _ & Hnone')|Hlink].
    + rewrite (Hzoneinfo _ Hlink) in Hzone. by destruct Hzone.
    + rewrite Hnone in Hlink. by destruct Hlink.
    + rewrite Hnone' in Hzone. by destruct Hzone.
    + rewrite (Htypes _ Hlink) in Hzone. by destruct Hzone.
Qed.

Lemma readICUTimeZones_names_witness :
  readICUTimeZones Sample.zoneinfo_zones Sample.zoneinfo_links
    Sample.types_zones Sample.types_links Sample.legacy_zones
    Sample.legacy_links
  = Some (Sample.types_zones, Sample.types_links)
  ∧ validateTimeZones Sample.zoneinfo_zones Sample.zoneinfo_links = Some ()
  ∧ validateTimeZones Sample.types_zones Sample.types_links = Some ()
  ∧ Sample.types_links !! "Etc/UTC" = None.
Proof.
  split; [by_evaluation|]. split; [by_evaluation|]. split; [by_evaluation|].
  destruct (readICUTimeZones_names Sample.zoneinfo_zones Sample.zoneinfo_links
              Sample.types_zones Sample.types_links Sample.legacy_zones
              Sample.legacy_links Sample.types_zones Sample.types_links
              ltac:(by_evaluation)) as [_ Hdisjoint].
  apply Hdisjoint; by_evaluation.
Defined.

Lemma findIncorrectICUZones_Some (ianaZones : Zones) (ianaLinks : Links)
    (icuZones : Zones) (icuLinks : Links) (ignoreBackzone : bool)
    (result : list (string * string * string)) :
  findIncorrectICUZones ianaZones ianaLinks icuZones icuLinks ignoreBackzone
  = Some result →
  (List.filter
     (fun zone : string * string =>
        negb (bool_decide (is_Some (icuZones !! zone.1))
              || bool_decide (is_Some (icuLinks !! zone.1))))
     (map_to_list ianaZones)).*1
  = (if ignoreBackzone then [] else ["Asia/Hanoi"])
  ∧ (∀ name, is_Some (icuZones !! name) →
       is_Some (ianaZones !! name) ∨ is_Some (ianaLinks !! name))
  ∧ result
    ≡ₚ List.filter
         (fun zone_target : string * string * string =>
            negb (bool_decide (zone_target.1.1 ∈ utcnames)))
         (omap (fun zone : string * string =>
                  (fun target : string * string => (zone, target.2))
                  <$> icuLinks !! zone.1)
            (map_to_list ianaZones)).
Proof.
  unfold findIncorrectICUZones. cbv zeta.
  case_bool_decide as Hmissing; [done|].
  destruct (List.filter _ (map_to_list icuZones)) eqn:Hadditional; [|done].
  intros [= <-]. split; [done|]. split; [|apply sorted_Permutation].
  intros name [filename Hname].
  pose proof (filter_bool_nil _ _ (name, filename) Hadditional) as Hfound.
  cbn [fst] in Hfound. rewrite negb_false_iff, orb_true_iff in Hfound.
  rewrite !bool_decide_eq_true in Hfound.
  apply Hfound. by apply elem_of_map_to_list.
Qed.

Lemma findIncorrectICULinks_Some (ianaZones : Zones) (ianaLinks : Links)
    (icuZones : Zones) (icuLinks : Links)
    (result : list (string * string * string * string)) :
  findIncorrectICULinks ianaZones ianaLinks icuZones icuLinks = Some result →
  (∀ name, is_Some (ianaLinks !! name) →
     is_Some (icuZones !! name) ∨ is_Some (icuLinks !! name))
  ∧ (∀ name, is_Some (icuLinks !! name) →
       is_Some (ianaZones !! name) ∨ is_Some (ianaLinks !! name))
  ∧ ∀ entry, entry ∈ result →
      ianaLinks !! entry.1.1.1 = Some (entry.1.1.2, entry.1.2)
      ∧ ((∃ filename, icuLinks !! entry.1.1.1 = Some (filename, entry.2))
            ∧ entry.1.2 ≠ entry.2
         ∨ is_Some (icuZones !! entry.1.1.1) ∧ entry.2 = entry.1.1.1)
      ∧ ¬ (entry.1.2 ∈ utcnames ∧ entry.2 ∈ utcnames).
Proof.
  unfold findIncorrectICULinks. cbv zeta.
  destruct (List.filter _ (map_to_list ianaLinks)) eqn:Hmissing; [|done].
  destruct (List.filter _ (map_to_list icuLinks)) eqn:Hadditional; [|done].
  intros [= <-]. split; [|split].
  - intros name [target Hname].
    pose proof (filter_bool_nil _ _ (name, target) Hmissing) as Hfound.
    cbn [fst] in Hfound. rewrite negb_false_iff, orb_true_iff in Hfound.
    rewrite !bool_decide_eq_true in Hfound.
    apply Hfound. by apply elem_of_map_to_list.
  - intros name [target Hname].
    pose proof (filter_bool_nil _ _ (name, target) Hadditional) as Hfound.
    cbn [fst] in Hfound. rewrite negb_false_iff, orb_true_iff in Hfound.
    rewrite !bool_decide_eq_true in Hfound.
    apply Hfound. by apply elem_of_map_to_list.
  - intros entry. rewrite sorted_Permutation, elem_of_filter_bool, elem_of_app.
    rewrite !list_elem_of_omap.
    intros [[([name [filename target]] & Hlink & Hentry)
            |([name [filename target]] & Hlink & Hentry)] Hutc];
      apply elem_of_map_to_list in Hlink; cbn [fst snd] in Hentry.
    + destruct (icuLinks !! name) as [[filename' icuTarget]|] eqn:Hicu; [|done].
      destruct (bool_decide (target ≠ icuTarget)) eqn:Hne; [|done].
      apply bool_decide_eq_true in Hne. injection Hentry as <-.
      cbn [fst snd] in *. split; [done|]. split; [left; eauto|].
      intros [H1 H2]. apply orb_true_iff in Hutc as [Hutc|Hutc];
        apply negb_true_iff, bool_decide_eq_false in Hutc; by destruct Hutc.
    + destruct (bool_decide (is_Some (icuZones !! name))) eqn:Hzone; [|done].
      apply bool_decide_eq_true in Hzone. injection Hentry as <-.
      cbn [fst snd] in *. split; [done|]. split; [by right|].
      intros [H1 H2]. apply orb_true_iff in Hutc as [Hutc|Hutc];
        apply negb_true_iff, bool_decide_eq_false in Hutc; by destruct Hutc.
Qed.

(** X18: when [findIncorrectICUZones] and [findIncorrectICULinks] both
    return, IANA and ICU know the same time zone names: a name is an IANA
    zone or link exactly when it is an ICU zone or link. When the backzone
    file is not ignored, the one exception is "Asia/Hanoi", which is then an
    IANA zone that ICU does not have. *)
Theorem findIncorrectICU_names (ianaZones : Zones) (ianaLinks : Links)
    (icuZones : Zones) (icuLinks : Links) (ignoreBackzone : bool)
    (incorrectZones : list (string * string * string))
    (incorrectLinks : list (string * string * string * string)) :
  findIncorrectICUZones ianaZones ianaLinks icuZones icuLinks ignoreBackzone
  = Some incorrectZones →
  findIncorrectICULinks ianaZones ianaLinks icuZones icuLinks
  = Some incorrectLinks →
  (∀ name,
     (ignoreBackzone = false → name ≠ "Asia/Hanoi") →
     is_Some (ianaZones !! name) ∨ is_Some (ianaLinks !! name) ↔
     is_Some (icuZones !! name) ∨ is_Some (icuLinks !! name))
  ∧ (ignoreBackzone = false →
     is_Some (ianaZones !! "Asia/Hanoi")
     ∧ icuZones !! "Asia/Hanoi" = None ∧ icuLinks !! "Asia/Hanoi" = None).
Proof.
  intros (Hmissing & HicuZones & _)%findIncorrectICUZones_Some
         (HianaLinks & HicuLinks & _)%findIncorrectICULinks_Some.
  split.
  - intros name Hname. split.
    + intros [[filename Hzone]|Hlink]; [|by apply HianaLinks].
      destruct (icuZones !! name) eqn:Hicu; [left; eauto|].
      destruct (icuLinks !! name) eqn:Hicu'; [right; eauto|].
      assert ((name, filename)
              ∈ List.filter
                  (fun zone : string * string =>
                     negb (bool_decide (is_Some (icuZones !! zone.1))
                           || bool_decide (is_Some (icuLinks !! zone.1))))
                  (map_to_list ianaZones)) as Hin.
      { apply elem_of_filter_bool. split; [by apply elem_of_map_to_list|].
        cbn [fst]. rewrite Hicu, Hicu'.
        rewrite !bool_decide_eq_false_2; [done| |]; by intros [? [=]]. }
      apply (list_elem_of_fmap_2 fst) in Hin. rewrite Hmissing in Hin.
      destruct ignoreBackzone; [by apply elem_of_nil in Hin|].
      apply list_elem_of_singleton in Hin. by destruct (Hname eq_refl).
    + intros [Hzone|Hlink]; [by apply HicuZones | by apply HicuLinks].
  - intros ->.
    assert ("Asia/Hanoi"
            ∈ (List.filter
                 (fun zone : string * string =>
                    negb (bool_decide (is_Some (icuZones !! zone.1))
                          || bool_decide (is_Some (icuLinks !! zone.1))))
                 (map_to_list ianaZones)).*1) as Hin
      by (rewrite Hmissing; by left).
    apply list_elem_of_fmap in Hin as ([name filename] & -> & Hin).
    apply elem_of_filter_bool in Hin as [Hin Hnot]. cbn [fst] in *.
    apply elem_of_map_to_list in Hin.
    apply negb_true_iff, orb_false_iff in Hnot as [Hz Hl].
    apply bool_decide_eq_false in Hz, Hl.
    split; [eauto|]. split; by apply eq_None_not_Some.
Qed.

(** X19: for IANA data that passed [validateTimeZones], every entry that
    [findIncorrectICULinks] returns is an IANA link, with its file name and
    its target, whose ICU target differs from the IANA target: ICU has the
    name as a link to another target, or as a zone, so that the ICU target is
    the name itself; and the two targets are not both names of UTC. *)
Theorem findIncorrectICULinks_entries (ianaZones : Zones) (ianaLinks : Links)
    (icuZones : Zones) (icuLinks : Links)
    (incorrectLinks : list (string * string * string * string))
    (name filename target icuTarget : string) :
  validateTimeZones ianaZones ianaLinks = Some () →
  findIncorrectICULinks ianaZones ianaLinks icuZones icuLinks
  = Some incorrectLinks →
  (name, filename, target, icuTarget) ∈ incorrectLinks →
  ianaLinks !! name = Some (filename, target)
  ∧ target ≠ icuTarget
  ∧ ((∃ icuFilename, icuLinks !! name = Some (icuFilename, icuTarget))
     ∨ (is_Some (icuZones !! name) ∧ icuTarget = name))
  ∧ ¬ (target ∈ utcnames ∧ icuTarget ∈ utcnames).
Proof.
  intros [Hdisjoint Htargets]%validateTimeZones_Some
         (_ & _ & Hentries)%findIncorrectICULinks_Some Hin.
  destruct (Hentries _ Hin) as (Hlink & Hicu & Hutc). cbn [fst snd] in *.
  split; [done|]. split; [|split; [|done]].
  - destruct Hicu as [[_ Hne]|[_ ->]]; [done|].
    intros ->.
    pose proof (Htargets _ _ _ Hlink) as Hzone.
    rewrite (Hdisjoint name) in Hzone by eauto. by destruct Hzone.
  - destruct Hicu as [[Hicu _]|Hicu]; [by left | by right].
Qed.

Lemma findIncorrectICU_names_witness :
  findIncorrectICUZones Sample.iana_zones Sample.iana_links Sample.types_zones
    Sample.types_links false
  = Some [ ("Asia/Kolkata", "asia", "Asia/Calcutta") ]
  ∧ findIncorrectICULinks Sample.iana_zones Sample.iana_links
      Sample.types_zones Sample.types_links
    = Some [ ("Asia/Calcutta", "backward", "Asia/Kolkata", "Asia/Calcutta") ]
  ∧ is_Some (Sample.iana_zones !! "Asia/Hanoi")
  ∧ Sample.types_zones !! "Asia/Hanoi" = None
  ∧ Sample.types_links !! "Asia/Hanoi" = None.
Proof.
  split; [by_evaluation|]. split; [by_evaluation|].
  destruct (findIncorrectICU_names Sample.iana_zones Sample.iana_links
              Sample.types_zones Sample.types_links false
              [ ("Asia/Kolkata", "asia", "Asia/Calcutta") ]
              [ ("Asia/Calcutta", "backward", "Asia/Kolkata", "Asia/Calcutta") ]
              ltac:(by_evaluation) ltac:(by_evaluation)) as [_ Hhanoi].
  by apply Hhanoi.
Defined.

Lemma findIncorrectICULinks_entries_witness :
  validateTimeZones Sample.iana_zones Sample.iana_links = Some ()
  ∧ findIncorrectICULinks Sample.iana_zones Sample.iana_links
      Sample.types_zones Sample.types_links
    = Some [ ("Asia/Calcutta", "backward", "Asia/Kolkata", "Asia/Calcutta") ]
  ∧ Sample.iana_links !! "Asia/Calcutta" = Some ("backward", "Asia/Kolkata").
Proof.
  split; [by_evaluation|]. split; [by_evaluation|].
  apply (findIncorrectICULinks_entries Sample.iana_zones Sample.iana_links
           Sample.types_zones Sample.types_links
           [ ("Asia/Calcutta", "backward", "Asia/Kolkata", "Asia/Calcutta") ]
           "Asia/Calcutta" "backward" "Asia/Kolkata" "Asia/Calcutta");
    [by_evaluation | by_evaluation | by left].
Defined.
